(** * Route graph builder of libosmscout: a shallow embedding

    The development follows
    [libosmscout-import/src/osmscout/import/GenRouteDat.cpp]
    (restriction ingestion, junction discovery, endpoint collection, way
    loading, route node construction, header finalisation) and the id
    codec of [libosmscout/src/osmscout/Way.cpp].

    Conventions.
    - Node, way and type ids are unsigned machine integers; they are
      carried as [Z].  Ids are only compared in [GenRouteDat.cpp]; the one
      place that does arithmetic on them ([Way::Write] / [Way::Read])
      writes the wrap-around out.
    - [std::map] and [std::set] are stdpp's [gmap] and [gset]; iteration in
      key order is [merge_sort] over the keys.
    - [double] is the kernel's binary64 [float]. *)

From Stdlib Require Import ZArith List Lia Bool String.
From Stdlib Require Import Floats.PrimFloat Floats.SpecFloat Floats.FloatOps Floats.FloatAxioms.
From stdpp Require Import gmap strings list sorting.

Import ListNotations.
Local Open Scope Z_scope.

Abbreviation Id := Z.
Abbreviation TypeId := Z.
Abbreviation FileOffset := nat.

(** ** Turn restrictions ([GenRouteDat.h], used by [CanTurn]) *)

Inductive RestrictionType := allow | forbit.

Record Restriction := mkRestriction {
  r_type : RestrictionType;
  r_from : Id;
  r_to   : Id
}.

(** The [for] loop of [RouteDataGenerator::CanTurn]; [defaultReturn] is the
    local of the same name. *)
Fixpoint CanTurn_loop (restrictions : list Restriction) (from to : Id)
    (defaultReturn : bool) : bool :=
  match restrictions with
  | [] => defaultReturn
  | iter :: rest =>
      if r_from iter =? from then
        match r_type iter with
        | allow =>
            if r_to iter =? to then true
            else CanTurn_loop rest from to false
        | forbit =>
            if r_to iter =? to then false
            else CanTurn_loop rest from to true
        end
      else CanTurn_loop rest from to defaultReturn
  end.

Definition CanTurn (restrictions : list Restriction) (from to : Id) : bool :=
  match restrictions with
  | [] => true
  | _ :: _ => CanTurn_loop restrictions from to true
  end.

(** ** Input records

    [RawRelation] (of [RawRelation.h]) as [ReadRestrictionRelations] reads
    it, and the [Way] with its [Point]s as [GenRouteDat.cpp] reads them:
    [way.GetId()], [way.GetType()], [way.IsArea()], [way.IsOneway()],
    [way.HasAccess()], [way.GetMaxSpeed()], [way.nodes[i].GetId()],
    [.GetLat()], [.GetLon()]. *)

Inductive MemberType := memberNode | memberWay | memberRelation.

Record Member := mkMember {
  m_type : MemberType;
  m_id   : Id;
  m_role : string
}.

Record RawRelation := mkRawRelation {
  rel_GetType : TypeId;
  members     : list Member
}.

Record Point := mkPoint {
  GetId  : Id;
  GetLat : float;
  GetLon : float
}.

Record Way := mkWay {
  way_GetId   : Id;
  GetType     : TypeId;
  IsArea      : bool;
  IsOneway    : bool;
  HasAccess   : bool;
  GetMaxSpeed : Z;
  nodes       : list Point
}.

(** The type configuration is an argument of every phase; its class is not
    among the sources, so the three queries the generator makes and the
    constant [typeIgnore] are its fields. *)
Record TypeConfig := mkTypeConfig {
  typeIgnore        : TypeId;
  GetRelationTypeId : string -> TypeId;
  GetIgnore         : TypeId -> bool;   (* GetTypeInfo(t).GetIgnore() *)
  CanBeRoute        : TypeId -> bool    (* GetTypeInfo(t).CanBeRoute() *)
}.

(** ** The file scanner *)

(** Modelled from the spec: [FileScanner] is one of the "generic binary
    scanner/writer I/O primitives" the sources do not contain.  A data file
    is a sequence of slots: the [uint32] entry count, a decodable record, or
    bytes that do not decode.  A file offset is the number of slots before
    it.  The scanner is "a positioned scanner" with a sticky error flag;
    every failing call raises the flag and leaves the position alone. *)

Inductive Slot (A : Type) :=
| SlotCount (n : Z)
| SlotData (a : A)
| SlotGarbage.
Arguments SlotCount {A} n.
Arguments SlotData {A} a.
Arguments SlotGarbage {A}.

Record FileScanner (A : Type) := mkScanner {
  fs_file     : list (Slot A);
  fs_pos      : FileOffset;
  fs_hasError : bool
}.
Arguments mkScanner {A}.
Arguments fs_file {A}.
Arguments fs_pos {A}.
Arguments fs_hasError {A}.

Section Scanner.
Context {A : Type}.

Definition raiseError (sc : FileScanner A) : FileScanner A :=
  mkScanner (fs_file sc) (fs_pos sc) true.

(** [scanner.Open(name)]: a file that is absent cannot be opened. *)
Definition scanner_Open (file : option (list (Slot A))) : option (FileScanner A) :=
  match file with
  | Some slots => Some (mkScanner slots 0%nat false)
  | None => None
  end.

Definition scanner_HasError (sc : FileScanner A) : bool := fs_hasError sc.

Definition scanner_GetPos (sc : FileScanner A) : option FileOffset :=
  if fs_hasError sc then None else Some (fs_pos sc).

Definition scanner_SetPos (pos : FileOffset) (sc : FileScanner A) : bool * FileScanner A :=
  if fs_hasError sc then (false, sc)
  else if (length (fs_file sc) <? pos)%nat then (false, raiseError sc)
  else (true, mkScanner (fs_file sc) pos false).

(** [scanner.Read(uint32_t&)] *)
Definition scanner_Read (sc : FileScanner A) : option Z * FileScanner A :=
  if fs_hasError sc then (None, sc)
  else match fs_file sc !! fs_pos sc with
       | Some (SlotCount n) => (Some (n mod 2^32), mkScanner (fs_file sc) (S (fs_pos sc)) false)
       | _ => (None, raiseError sc)
       end.

(** [record.Read(scanner)] for a [RawRelation] or a [Way] *)
Definition record_Read (sc : FileScanner A) : option A * FileScanner A :=
  if fs_hasError sc then (None, sc)
  else match fs_file sc !! fs_pos sc with
       | Some (SlotData a) => (Some a, mkScanner (fs_file sc) (S (fs_pos sc)) false)
       | _ => (None, raiseError sc)
       end.

(** [scanner.Close()]: closing an open in-memory file succeeds. *)
Definition scanner_Close (sc : FileScanner A) : bool := true.
End Scanner.

(** [i++] on a [uint32_t] *)
Definition incr32 (n : Z) : Z := (n + 1) mod 2^32.

(** The loop the three readers have in common,

    [for (uint32_t i=1; i<=count; i++) { Record record;
       if (!record.Read(scanner)) return false; body }]

    with [None] for the [return false].  The counter is a [uint32_t] as
    the count is: at a count of [2^32-1] it wraps to 0 and the guard never
    fails, so the loop goes on reading until a read fails.  Every
    iteration reads a record off the file, so [fuel], the number of slots
    of the file, is never used up ([readRecords_fuel] below). *)
Fixpoint readRecords {A T : Type} (body : Z -> A -> T -> T) (fuel : nat) (i count : Z)
    (scanner : FileScanner A) (state : T) : option T :=
  if i <=? count then
    match record_Read scanner with
    | (None, _) => None
    | (Some record, scanner') =>
        match fuel with
        | O => None
        | S fuel' => readRecords body fuel' (incr32 i) count scanner' (body i record state)
        end
    end
  else Some state.

(** ** [RouteDataGenerator::ReadRestrictionRelations] *)

(** One of the seven [if (typeConfig.GetRelationTypeId(name)!=typeIgnore)
    set.insert(...)] statements. *)
Definition insertRestrictionType (typeConfig : TypeConfig) (name : string)
    (set : gset TypeId) : gset TypeId :=
  if GetRelationTypeId typeConfig name =? typeIgnore typeConfig then set
  else {[ GetRelationTypeId typeConfig name ]} ∪ set.

Definition posRestrictions (typeConfig : TypeConfig) : gset TypeId :=
  insertRestrictionType typeConfig "restriction_only_straight_on"
    (insertRestrictionType typeConfig "restriction_only_left_turn"
      (insertRestrictionType typeConfig "restriction_only_right_turn" ∅)).

Definition negRestrictions (typeConfig : TypeConfig) : gset TypeId :=
  insertRestrictionType typeConfig "restriction_no_straight_on"
    (insertRestrictionType typeConfig "restriction_no_u_turn"
      (insertRestrictionType typeConfig "restriction_no_left_turn"
        (insertRestrictionType typeConfig "restriction_no_right_turn" ∅))).

Definition isMemberWay (m : Member) : bool :=
  match m_type m with memberWay => true | _ => false end.

Definition isMemberNode (m : Member) : bool :=
  match m_type m with memberNode => true | _ => false end.

Definition isFromMember (m : Member) : bool := isMemberWay m && String.eqb (m_role m) "from".
Definition isViaMember (m : Member) : bool := isMemberNode m && String.eqb (m_role m) "via".
Definition isToMember (m : Member) : bool := isMemberWay m && String.eqb (m_role m) "to".

(** The three locals the member loop assigns: [restriction.from], [via],
    [restriction.to]. *)
Record MemberSlots := mkSlots {
  slot_from : Id;
  slot_via  : Id;
  slot_to   : Id
}.

(** Body of [for (size_t i=0; i<relation.members.size(); i++)]. *)
Definition scanMember (st : MemberSlots) (m : Member) : MemberSlots :=
  if isFromMember m then mkSlots (m_id m) (slot_via st) (slot_to st)
  else if isViaMember m then mkSlots (slot_from st) (m_id m) (slot_to st)
  else if isToMember m then mkSlots (slot_from st) (slot_via st) (m_id m)
  else st.

Definition scanMembers (ms : list Member) (st : MemberSlots) : MemberSlots :=
  fold_left scanMember ms st.

(** [restrictions[via].push_back(restriction)] *)
Definition push_back_at {V : Type} (key : Id) (v : V) (m : gmap Id (list V)) : gmap Id (list V) :=
  <[ key := default [] (m !! key) ++ [v] ]> m.

(** Body of the relation loop after a successful [relation.Read].

    [Restriction restriction;] is default-constructed and [GenRouteDat.h] is
    not among the sources: [uninit] is what its [from] and [to] fields hold
    before the member loop (zero with a zeroing constructor, indeterminate
    without one).  [via] starts at 0 as written. *)
Definition handleRelation (typeConfig : TypeConfig) (uninit : Id * Id)
    (relation : RawRelation) (restrictions : gmap Id (list Restriction))
    : gmap Id (list Restriction) :=
  let pos := posRestrictions typeConfig in
  let neg := negRestrictions typeConfig in
  if bool_decide (rel_GetType relation ∈ pos) || bool_decide (rel_GetType relation ∈ neg) then
    let type :=
      if bool_decide (rel_GetType relation ∈ pos) then Some allow
      else if bool_decide (rel_GetType relation ∈ neg) then Some forbit
      else None in
    match type with
    | None => restrictions          (* continue *)
    | Some ty =>
        let st := scanMembers (members relation) (mkSlots (fst uninit) 0 (snd uninit)) in
        if negb (slot_from st =? 0) && negb (slot_via st =? 0) && negb (slot_to st =? 0)
        then push_back_at (slot_via st) (mkRestriction ty (slot_from st) (slot_to st)) restrictions
        else restrictions
    end
  else restrictions.

(** [for (uint32_t r=1; r<=rawRelCount; r++)]; [uninit r] is what the
    local [restriction] of iteration [r] holds. *)
Definition ReadRestrictionRelations_loop (typeConfig : TypeConfig) (uninit : nat -> Id * Id)
    (fuel : nat) (r rawRelCount : Z) (scanner : FileScanner RawRelation)
    (restrictions : gmap Id (list Restriction)) : option (gmap Id (list Restriction)) :=
  readRecords
    (fun r relation restrictions =>
       handleRelation typeConfig (uninit (Z.to_nat r)) relation restrictions)
    fuel r rawRelCount scanner restrictions.

Definition ReadRestrictionRelations (typeConfig : TypeConfig) (uninit : nat -> Id * Id)
    (rawrels : option (list (Slot RawRelation)))
    (restrictions : gmap Id (list Restriction)) : option (gmap Id (list Restriction)) :=
  match scanner_Open rawrels with
  | None => None
  | Some scanner =>
      match scanner_Read scanner with
      | (None, _) => None
      | (Some rawRelCount, scanner) =>
          match ReadRestrictionRelations_loop typeConfig uninit (length (fs_file scanner)) 1
                  rawRelCount scanner restrictions with
          | None => None
          | Some restrictions =>
              if scanner_Close scanner then Some restrictions else None
          end
      end
  end.

(** ** [RouteDataGenerator::ReadJunctions] *)

(** The three [continue] tests shared by [ReadJunctions] and
    [ReadWayEndpoints]: [true] when the way is skipped. *)
Definition skipWay (typeConfig : TypeConfig) (way : Way) : bool :=
  if GetType way =? typeIgnore typeConfig then true
  else if GetIgnore typeConfig (GetType way) then true
  else if negb (CanBeRoute typeConfig (GetType way)) then true
  else false.

(** Body of the node loop: [entry->second++] or [nodeWayCountMap[id]=1].
    The counter is a [size_t]; a successful pass has read fewer than
    [2^32-1] ways of at most [2^32-1] nodes each, so a 64 bit counter
    cannot wrap and it is a [nat] here. *)
Definition countNode (nodeWayCountMap : gmap Id nat) (node : Point) : gmap Id nat :=
  match nodeWayCountMap !! GetId node with
  | Some c => <[ GetId node := S c ]> nodeWayCountMap
  | None => <[ GetId node := 1%nat ]> nodeWayCountMap
  end.

Definition countWay (typeConfig : TypeConfig) (nodeWayCountMap : gmap Id nat) (way : Way)
    : gmap Id nat :=
  if skipWay typeConfig way then nodeWayCountMap
  else fold_left countNode (nodes way) nodeWayCountMap.

(** [for (uint32_t w=1; w<=wayCount; w++)] *)
Definition ReadJunctions_loop (typeConfig : TypeConfig) (fuel : nat) (w wayCount : Z)
    (scanner : FileScanner Way) (nodeWayCountMap : gmap Id nat) : option (gmap Id nat) :=
  readRecords (fun _ way nodeWayCountMap => countWay typeConfig nodeWayCountMap way)
              fuel w wayCount scanner nodeWayCountMap.

(** The final loop over [nodeWayCountMap]: [if (node->second>=2)
    junctions.insert(node->first)]. *)
Definition collectJunctions (nodeWayCountMap : gmap Id nat) (junctions : gset Id) : gset Id :=
  map_fold (fun id count acc => if (2 <=? count)%nat then {[ id ]} ∪ acc else acc)
           junctions nodeWayCountMap.

Definition ReadJunctions (typeConfig : TypeConfig) (waysDat : option (list (Slot Way)))
    (junctions : gset Id) : option (gset Id) :=
  match scanner_Open waysDat with
  | None => None
  | Some scanner =>
      match scanner_Read scanner with
      | (None, _) => None
      | (Some wayCount, scanner) =>
          match ReadJunctions_loop typeConfig (length (fs_file scanner)) 1 wayCount
                  scanner ∅ with
          | None => None
          | Some nodeWayCountMap =>
              if scanner_Close scanner then Some (collectJunctions nodeWayCountMap junctions)
              else None
          end
      end
  end.

(** ** [RouteDataGenerator::ReadWayEndpoints] *)

Definition addEndpoint (junctions : gset Id) (wayId : Id)
    (endPointWayMap : gmap Id (list Id)) (node : Point) : gmap Id (list Id) :=
  if bool_decide (GetId node ∈ junctions)
  then push_back_at (GetId node) wayId endPointWayMap
  else endPointWayMap.

Definition addWayEndpoints (typeConfig : TypeConfig) (junctions : gset Id)
    (endPointWayMap : gmap Id (list Id)) (way : Way) : gmap Id (list Id) :=
  if skipWay typeConfig way then endPointWayMap
  else fold_left (addEndpoint junctions (way_GetId way)) (nodes way) endPointWayMap.

(** [for (uint32_t w=1; w<=wayCount; w++)] *)
Definition ReadWayEndpoints_loop (typeConfig : TypeConfig) (junctions : gset Id)
    (fuel : nat) (w wayCount : Z) (scanner : FileScanner Way)
    (endPointWayMap : gmap Id (list Id)) : option (gmap Id (list Id)) :=
  readRecords
    (fun _ way endPointWayMap => addWayEndpoints typeConfig junctions endPointWayMap way)
    fuel w wayCount scanner endPointWayMap.

Definition ReadWayEndpoints (typeConfig : TypeConfig) (waysDat : option (list (Slot Way)))
    (junctions : gset Id) (endPointWayMap : gmap Id (list Id)) : option (gmap Id (list Id)) :=
  match scanner_Open waysDat with
  | None => None
  | Some scanner =>
      match scanner_Read scanner with
      | (None, _) => None
      | (Some wayCount, scanner) =>
          match ReadWayEndpoints_loop typeConfig junctions (length (fs_file scanner)) 1
                  wayCount scanner endPointWayMap with
          | None => None
          | Some endPointWayMap =>
              if scanner_Close scanner then Some endPointWayMap else None
          end
      end
  end.

(** ** [RouteDataGenerator::LoadWays] *)

(** Modelled from the spec: [NumericIndex] is "the external index used to
    random-access ways by id", it "maps way ids to file offsets", and a
    "missing id ... aborts the stage".  [GetOffsets] walks the [std::set] in
    ascending order. *)
Fixpoint lookupOffsets (wayIndex : gmap Id FileOffset) (ids : list Id) : option (list FileOffset) :=
  match ids with
  | [] => Some []
  | id :: rest =>
      match wayIndex !! id, lookupOffsets wayIndex rest with
      | Some offset, Some offsets => Some (offset :: offsets)
      | _, _ => None
      end
  end.

Definition GetOffsets (wayIndex : gmap Id FileOffset) (ids : gset Id) : option (list FileOffset) :=
  lookupOffsets wayIndex (merge_sort Z.le (elements ids)).

(** The loop over [offsets].  A failed [way->Read] always raises the
    scanner's flag, so [scanner.HasError()] is the [None] case. *)
Fixpoint LoadWays_loop (offsets : list FileOffset) (scanner : FileScanner Way)
    (ways : list Way) : bool * FileScanner Way * list Way :=
  match offsets with
  | [] => (true, scanner, ways)
  | offset :: rest =>
      match scanner_SetPos offset scanner with
      | (false, scanner) => (false, scanner, ways)
      | (true, scanner) =>
          match record_Read scanner with
          | (Some way, scanner) =>
              if scanner_HasError scanner then (false, scanner, ways)
              else LoadWays_loop rest scanner (ways ++ [way])
          | (None, scanner) => (false, scanner, ways)
          end
      end
  end.

Definition LoadWays (scanner : FileScanner Way) (wayIndex : gmap Id FileOffset)
    (ids : gset Id) (ways : list Way) : bool * FileScanner Way * list Way :=
  match GetOffsets wayIndex ids with
  | None => (false, scanner, ways)
  | Some offsets =>
      match scanner_GetPos scanner with
      | None => (false, scanner, ways)
      | Some oldPos =>
          match LoadWays_loop offsets scanner ways with
          | (false, scanner, ways) => (false, scanner, ways)
          | (true, scanner, ways) =>
              match scanner_SetPos oldPos scanner with
              | (false, scanner) => (false, scanner, ways)
              | (true, scanner) => (true, scanner, ways)
              end
          end
      end
  end.

(** ** Route nodes ([RouteNode.h]) and the writer

    [wayIndex] and [targetPath] index [ways] and [paths]; they are [nat]. *)

Record Path := mkPath {
  path_id   : Id;
  wayIndex  : nat;
  path_type : TypeId;
  maxSpeed  : Z;
  flags     : Z;
  lat       : float;
  lon       : float;
  distance  : float
}.

Record Exclude := mkExclude {
  sourceWay  : Id;
  targetPath : nat
}.

Record RouteNode := mkRouteNode {
  rn_id       : Id;
  rn_ways     : list Id;
  rn_paths    : list Path;
  rn_excludes : list Exclude
}.

(** Modelled from the spec: [RouteNode::Write] is not among the sources,
    and of [FileWriter] they hold the class declaration only
    ([util/FileWriter.h], whose [Open] and [Close] return nothing, unlike
    the ones [GenRouteDat.cpp] tests).  [route.dat] is "[uint32] count of
    route nodes (patched at end)" followed by "concatenated RouteNode
    records" whose byte layout "is delegated to the shared serializer":
    the file is a sequence of items, offset 0 is the first item, and a
    write at a position inside the file replaces the item there. *)
Inductive Item :=
| ItemU32 (v : Z)
| ItemRouteNode (routeNode : RouteNode).

(** Modelled from the spec: the "WriteIO" failures ("writer failure
    including seek-and-patch of the header") and the release of the index
    are decided by what the generator writes to and reads from, which the
    sources do not contain.  The medium says whether [route.dat] can be
    created, how many route nodes [RouteNode::Write] writes before it
    fails ([None]: all of them), and whether [writer.Close()] and
    [wayIndex.Close()] succeed.  The two header writes return nothing the
    generator looks at; a failure of theirs shows in [writer.Close()]. *)
Record Medium := mkMedium {
  creates      : bool;
  room         : option nat;
  writerCloses : bool;
  indexCloses  : bool
}.

Record FileWriter := mkWriter {
  fw_items : list Item;
  fw_pos   : nat
}.

Definition writer_Open : FileWriter := mkWriter [] 0%nat.

Definition writer_put (x : Item) (writer : FileWriter) : FileWriter :=
  if (fw_pos writer <? length (fw_items writer))%nat
  then mkWriter (<[ fw_pos writer := x ]> (fw_items writer)) (S (fw_pos writer))
  else mkWriter (fw_items writer ++ [x]) (S (length (fw_items writer))).

(** [writer.Write(uint32_t)] *)
Definition writer_Write (v : Z) (writer : FileWriter) : FileWriter :=
  writer_put (ItemU32 (v mod 2^32)) writer.

(** The records of a [route.dat] and its header. *)
Definition routeNodesOf (items : list Item) : list RouteNode :=
  flat_map (fun x => match x with ItemRouteNode rn => [rn] | ItemU32 _ => [] end) items.

Definition headerOf (items : list Item) : option Z :=
  match items with
  | ItemU32 v :: _ => Some v
  | _ => None
  end.

(** [routeNode.Write(writer)]: it fails when the medium has no room for
    another route node, and leaves the file as it is then. *)
Definition RouteNode_Write (medium : Medium) (routeNode : RouteNode) (writer : FileWriter)
    : bool * FileWriter :=
  match room medium with
  | Some n =>
      if (length (routeNodesOf (fw_items writer)) <? n)%nat
      then (true, writer_put (ItemRouteNode routeNode) writer)
      else (false, writer)
  | None => (true, writer_put (ItemRouteNode routeNode) writer)
  end.

(** [writer.SetPos(0)], the only seek the generator makes. *)
Definition writer_SetPos (pos : nat) (writer : FileWriter) : FileWriter :=
  mkWriter (fw_items writer) pos.

(** ** Route node construction (the block loop of [RouteDataGenerator::Import]) *)

(** How a run of the build phase ends: it goes on ([Ok]), it executes a
    [return false], it fails an [assert] or indexes outside a vector, or its
    block loop makes no progress. *)
Inductive Status := Ok | ReturnFalse | AssertFailed | NoTermination.

Record BuildState := mkBuildState {
  bs_scanner               : FileScanner Way;
  bs_writer                : FileWriter;
  handledRouteNodeCount    : Z;
  writtenRouteNodeCount    : Z;
  writtenRoutePathCount    : Z
}.

Section Builder.
(** [GetSphericalDistance(lonA,latA,lonB,latB)] of [util/Geometry.h] and
    the flag bit [RouteNode::hasAccess] are not among the sources. *)
Variable GetSphericalDistance : float -> float -> float -> float -> float.
Variable RouteNode_hasAccess : Z.
Variable medium : Medium.

Definition CopyFlags (way : Way) : Z :=
  if HasAccess way then Z.lor 0 RouteNode_hasAccess else 0.

(** [nodeWayMap.find(id)!=nodeWayMap.end()] *)
Definition isRouteNode (nodeWayMap : gmap Id (list Id)) (id : Id) : bool :=
  match nodeWayMap !! id with Some _ => true | None => false end.

Definition segment (a b : Point) : float :=
  GetSphericalDistance (GetLon a) (GetLat a) (GetLon b) (GetLat b).

(** [way->nodes[i]] for an [int] index that the surrounding code keeps
    inside the vector; [d] is a point of the vector. *)
Definition nodeAt (ns : list Point) (d : Point) (i : Z) : Point :=
  nth (Z.to_nat i) ns d.

Definition makePath (way : Way) (index : nat) (target : Point) (dist : float) : Path :=
  mkPath (GetId target) index (GetType way) (GetMaxSpeed way) (CopyFlags way)
         (GetLat target) (GetLon target) dist.

(** [while (currentNode<size && nodes[currentNode].GetId()!=node->first)
    currentNode++;] *)
Fixpoint findCurrentNode (ns : list Point) (id : Id) (currentNode : Z) : Z :=
  match ns with
  | [] => currentNode
  | p :: rest =>
      if GetId p =? id then currentNode
      else findCurrentNode rest id (currentNode + 1)
  end.

(** [nextNode++; if (nextNode>=size) nextNode=0;] and its mirror image *)
Definition stepNext (size i : Z) : Z := if i + 1 >=? size then 0 else i + 1.
Definition stepPrev (size i : Z) : Z := if i - 1 <? 0 then size - 1 else i - 1.

(** The two [while] loops of the ring walk, [step] being [stepNext] or
    [stepPrev]; each iteration moves the index one place round the ring,
    so [length ns] iterations reach [currentNode] again. *)
Fixpoint walkRing (fuel : nat) (step : Z -> Z -> Z) (nodeWayMap : gmap Id (list Id))
    (ns : list Point) (d : Point) (currentNode index : Z) (dist : float) : Z * float :=
  match fuel with
  | O => (index, dist)
  | S fuel' =>
      if negb (index =? currentNode) &&
         negb (isRouteNode nodeWayMap (GetId (nodeAt ns d index)))
      then
        let lastNode := index in
        let index := step (Z.of_nat (length ns)) index in
        let dist :=
          if negb (index =? currentNode)
          then PrimFloat.add dist (segment (nodeAt ns d lastNode) (nodeAt ns d index))
          else dist in
        walkRing fuel' step nodeWayMap ns d currentNode index dist
      else (index, dist)
  end.

(** The area branch and the circular-way branch.  Their text is the same
    but for the [if (!way->IsOneway())] around the backward walk of the
    latter; [backward] is [true] for an area and [!IsOneway()] for a
    circular way.  [None] is the failed [assert].  The indices are
    [int]s, carried as [Z]: they stay between -1 and the number of nodes,
    which is what the source computes for a way of fewer than [2^31]
    nodes. *)
Definition ringRouting (nodeWayMap : gmap Id (list Id)) (nodeId : Id) (way : Way)
    (index : nat) (backward : bool) : option (list Path) :=
  let ns := nodes way in
  let size := Z.of_nat (length ns) in
  let currentNode := findCurrentNode ns nodeId 0 in
  match ns !! Z.to_nat currentNode with
  | None => None                  (* assert(currentNode<(int)way->nodes.size()) *)
  | Some cur =>
      let nextNode := stepNext size currentNode in
      let dist := segment cur (nodeAt ns cur nextNode) in
      let '(nextNode, dist) :=
        walkRing (length ns) stepNext nodeWayMap ns cur currentNode nextNode dist in
      let forwardPaths :=
        if negb (nextNode =? currentNode)
        then [makePath way index (nodeAt ns cur nextNode) dist]
        else [] in
      let backwardPaths :=
        if backward then
          let prevNode := stepPrev size currentNode in
          let dist := segment cur (nodeAt ns cur prevNode) in
          let '(prevNode, dist) :=
            walkRing (length ns) stepPrev nodeWayMap ns cur currentNode prevNode dist in
          if negb (prevNode =? currentNode) && negb (prevNode =? nextNode)
          then [makePath way index (nodeAt ns cur prevNode) dist]
          else []
        else [] in
      Some (forwardPaths ++ backwardPaths)
  end.

(** [int j=i-1; while (j>=0) { if (junction) break; j--; }]: the index
    found, or [None] for [j<0]. *)
Fixpoint searchBackward (nodeWayMap : gmap Id (list Id)) (ns : list Point) (d : Point)
    (j : nat) : option nat :=
  if isRouteNode nodeWayMap (GetId (nth j ns d)) then Some j
  else match j with
       | O => None
       | S j' => searchBackward nodeWayMap ns d j'
       end.

(** [size_t j=i+1; while (j<size) { if (junction) break; j++; }] with
    [fuel = size - j] iterations left: the index found, or [None] for
    [j>=size]. *)
Fixpoint searchForward (fuel : nat) (nodeWayMap : gmap Id (list Id)) (ns : list Point)
    (d : Point) (j : nat) : option nat :=
  match fuel with
  | O => None
  | S fuel' =>
      if isRouteNode nodeWayMap (GetId (nth j ns d)) then Some j
      else searchForward fuel' nodeWayMap ns d (S j)
  end.

(** [path.distance=0.0; for (size_t d=from; d<to; d++) path.distance+=...] *)
Definition sumSegments (ns : list Point) (d : Point) (from to : nat) : float :=
  fold_left (fun acc k => PrimFloat.add acc (segment (nth k ns d) (nth (S k) ns d)))
            (seq from (to - from)) 0%float.

(** Body of [for (size_t i=0; i<way->nodes.size(); i++)] of the normal
    way branch. *)
Definition normalRoutingAt (nodeWayMap : gmap Id (list Id)) (nodeId : Id) (way : Way)
    (index : nat) (d : Point) (i : nat) : list Path :=
  let ns := nodes way in
  if GetId (nth i ns d) =? nodeId then
    let backwardPaths :=
      match i with
      | S i' =>
          if negb (IsOneway way) then
            match searchBackward nodeWayMap ns d i' with
            | Some j => [makePath way index (nth j ns d) (sumSegments ns d j i)]
            | None => []
            end
          else []
      | O => []
      end in
    let forwardPaths :=
      if (i + 1 <? length ns)%nat then
        match searchForward (length ns - (i + 1)) nodeWayMap ns d (i + 1) with
        | Some j => [makePath way index (nth j ns d) (sumSegments ns d i j)]
        | None => []
        end
      else [] in
    backwardPaths ++ forwardPaths
  else [].

Definition normalRouting (nodeWayMap : gmap Id (list Id)) (nodeId : Id) (way : Way)
    (index : nat) (d : Point) : list Path :=
  flat_map (normalRoutingAt nodeWayMap nodeId way index d) (seq 0 (length (nodes way))).

(** The three-way [if] on the way's topology.  [nodes.front()] of an
    empty vector is undefined. *)
Definition routeWay (nodeWayMap : gmap Id (list Id)) (nodeId : Id) (way : Way)
    (index : nat) : option (list Path) :=
  if IsArea way then ringRouting nodeWayMap nodeId way index true
  else match nodes way with
       | [] => None
       | front :: _ =>
           if GetId front =? GetId (List.last (nodes way) front)
           then ringRouting nodeWayMap nodeId way index (negb (IsOneway way))
           else Some (normalRouting nodeWayMap nodeId way index front)
       end.

(** The loop over the sorted [node->second]: [routeNode.ways] and
    [routeNode.paths] grow; a way id that [waysMap] does not hold is
    reported and skipped. *)
Fixpoint buildPaths (nodeWayMap : gmap Id (list Id)) (waysMap : gmap Id Way) (nodeId : Id)
    (wayIds : list Id) (ways : list Id) (paths : list Path)
    : option (list Id * list Path) :=
  match wayIds with
  | [] => Some (ways, paths)
  | wayId :: rest =>
      match waysMap !! wayId with
      | None => buildPaths nodeWayMap waysMap nodeId rest ways paths
      | Some way =>
          let ways := ways ++ [wayId] in
          match routeWay nodeWayMap nodeId way (length ways - 1) with
          | None => None
          | Some ps => buildPaths nodeWayMap waysMap nodeId rest ways (paths ++ ps)
          end
      end
  end.

(** [routeNode.ways[routeNode.paths[targetPath].wayIndex]!=*destWayId] *)
Definition pathLeavesBy (ways : list Id) (destWayId : Id) (path : Path) : bool :=
  match ways !! wayIndex path with
  | Some wayId => wayId =? destWayId
  | None => false
  end.

(** [while (exclude.targetPath<paths.size() && ways[...]!=*destWayId)
    exclude.targetPath++;] *)
Fixpoint findTargetPath (ways : list Id) (paths : list Path) (destWayId : Id)
    (targetPath : nat) : nat :=
  match paths with
  | [] => targetPath
  | path :: rest =>
      if pathLeavesBy ways destWayId path then targetPath
      else findTargetPath ways rest destWayId (S targetPath)
  end.

(** Body of the inner loop over [destWayId]. *)
Definition excludeTurn (turnConstraints : list Restriction) (ways : list Id)
    (paths : list Path) (sourceWayId destWayId : Id) (excludes : list Exclude)
    : list Exclude :=
  if negb (sourceWayId =? destWayId) then
    if negb (CanTurn turnConstraints sourceWayId destWayId) then
      let targetPath := findTargetPath ways paths destWayId 0 in
      if (targetPath <? length paths)%nat
      then excludes ++ [mkExclude sourceWayId targetPath]
      else excludes
    else excludes
  else excludes.

Definition resolveExcludes (turnConstraints : list Restriction) (wayIds : list Id)
    (ways : list Id) (paths : list Path) : list Exclude :=
  fold_left
    (fun excludes sourceWayId =>
       fold_left
         (fun excludes destWayId =>
            excludeTurn turnConstraints ways paths sourceWayId destWayId excludes)
         wayIds excludes)
    wayIds [].

(** One iteration of [for (size_t w=0; w<blockCount; w++)] up to the
    [routeNode.Write]: [node] is the map entry [block[w]]. *)
Definition buildRouteNode (restrictions : gmap Id (list Restriction))
    (nodeWayMap : gmap Id (list Id)) (waysMap : gmap Id Way)
    (node : Id * list Id) : option RouteNode :=
  let sorted := merge_sort Z.le (snd node) in      (* node->second.sort() *)
  match buildPaths nodeWayMap waysMap (fst node) sorted [] [] with
  | None => None
  | Some (ways, paths) =>
      let excludes :=
        match restrictions !! fst node with
        | Some turnConstraints => resolveExcludes turnConstraints sorted ways paths
        | None => []
        end in
      Some (mkRouteNode (fst node) ways paths excludes)
  end.

(** [for (size_t w=0; w<blockCount; w++)] over the entries of the block. *)
Fixpoint storeRouteNodes (restrictions : gmap Id (list Restriction))
    (nodeWayMap : gmap Id (list Id)) (waysMap : gmap Id Way)
    (block : list (Id * list Id)) (st : BuildState) : Status * BuildState :=
  match block with
  | [] => (Ok, st)
  | node :: rest =>
      let st := mkBuildState (bs_scanner st) (bs_writer st)
                  (incr32 (handledRouteNodeCount st))
                  (writtenRouteNodeCount st) (writtenRoutePathCount st) in
      match buildRouteNode restrictions nodeWayMap waysMap node with
      | None => (AssertFailed, st)
      | Some routeNode =>
          match RouteNode_Write medium routeNode (bs_writer st) with
          | (false, writer) =>
              (ReturnFalse,
               mkBuildState (bs_scanner st) writer (handledRouteNodeCount st)
                            (writtenRouteNodeCount st) (writtenRoutePathCount st))
          | (true, writer) =>
              let st := mkBuildState (bs_scanner st) writer
                          (handledRouteNodeCount st)
                          (incr32 (writtenRouteNodeCount st))
                          ((writtenRoutePathCount st + Z.of_nat (length (rn_paths routeNode)))
                             mod 2^32) in
              storeRouteNodes restrictions nodeWayMap waysMap rest st
          end
      end
  end.

(** [wayIds.insert] of every way id in the lists of the block *)
Definition collectWayIds (block : list (Id * list Id)) : gset Id :=
  fold_left
    (fun wayIds node => fold_left (fun wayIds wayId => {[ wayId ]} ∪ wayIds) (snd node) wayIds)
    block ∅.

(** [waysMap[way->GetId()]=way] over the loaded ways *)
Definition makeWaysMap (ways : list Way) : gmap Id Way :=
  fold_left (fun waysMap way => <[ way_GetId way := way ]> waysMap) ways ∅.

(** Body of [while (node!=nodeWayMap.end())] once the block is filled. *)
Definition processBlock (restrictions : gmap Id (list Restriction))
    (nodeWayMap : gmap Id (list Id)) (wayIndex : gmap Id FileOffset)
    (block : list (Id * list Id)) (st : BuildState) : Status * BuildState :=
  let wayIds := collectWayIds block in
  if bool_decide (wayIds = ∅) then (Ok, st)          (* continue *)
  else
    match LoadWays (bs_scanner st) wayIndex wayIds [] with
    | (false, scanner, _) =>
        (ReturnFalse,
         mkBuildState scanner (bs_writer st) (handledRouteNodeCount st)
                      (writtenRouteNodeCount st) (writtenRoutePathCount st))
    | (true, scanner, ways) =>
        storeRouteNodes restrictions nodeWayMap (makeWaysMap ways) block
          (mkBuildState scanner (bs_writer st) (handledRouteNodeCount st)
                        (writtenRouteNodeCount st) (writtenRoutePathCount st))
    end.

(** [while (node!=nodeWayMap.end())]: [node] is the rest of the map in key
    order, and a block is its first [blockSize] entries.  A block of size
    0 leaves [node] where it is, so the loop is given [fuel]. *)
Fixpoint Import_loop (fuel : nat) (restrictions : gmap Id (list Restriction))
    (nodeWayMap : gmap Id (list Id)) (wayIndex : gmap Id FileOffset) (blockSize : nat)
    (node : list (Id * list Id)) (st : BuildState) : Status * BuildState :=
  match node with
  | [] => (Ok, st)
  | _ :: _ =>
      match fuel with
      | O => (NoTermination, st)
      | S fuel' =>
          match processBlock restrictions nodeWayMap wayIndex (take blockSize node) st with
          | (Ok, st) =>
              Import_loop fuel' restrictions nodeWayMap wayIndex blockSize
                          (drop blockSize node) st
          | other => other
          end
      end
  end.

(** The entries of a [std::map] in iteration order. *)
Definition mapEntries (nodeWayMap : gmap Id (list Id)) : list (Id * list Id) :=
  map (fun id => (id, default [] (nodeWayMap !! id)))
      (merge_sort Z.le (elements (dom nodeWayMap))).

(** From [writer.Write(writtenRouteNodeCount)] to the end of the [while]
    loop, on an open scanner and a freshly opened writer. *)
Definition writeRouteNodes (restrictions : gmap Id (list Restriction))
    (nodeWayMap : gmap Id (list Id)) (wayIndex : gmap Id FileOffset) (blockSize : nat)
    (scanner : FileScanner Way) : Status * BuildState :=
  let writtenRouteNodeCount := 0 in
  let writer := writer_Write writtenRouteNodeCount writer_Open in
  Import_loop (length (mapEntries nodeWayMap)) restrictions nodeWayMap wayIndex blockSize
              (mapEntries nodeWayMap)
              (mkBuildState scanner writer 0 writtenRouteNodeCount 0).

(** [writer.SetPos(0); writer.Write(writtenRouteNodeCount);] *)
Definition patchHeader (st : BuildState) : FileWriter :=
  writer_Write (writtenRouteNodeCount st) (writer_SetPos 0 (bs_writer st)).

(** The files of the destination directory and the import parameter the
    generator reads. *)
Record Directory := mkDirectory {
  rawrels_dat : option (list (Slot RawRelation));
  ways_dat    : option (list (Slot Way));
  way_idx     : option (gmap Id FileOffset)
}.

(** [RouteDataGenerator::Import]: how it ends, and [route.dat] as it
    leaves it: [None] when the file was never created, otherwise what was
    written to it. *)
Definition Import (GetRouteNodeBlockSize : nat) (typeConfig : TypeConfig)
    (uninit : nat -> Id * Id) (dir : Directory) : Status * option (list Item) :=
  match ReadRestrictionRelations typeConfig uninit (rawrels_dat dir) ∅ with
  | None => (ReturnFalse, None)
  | Some restrictions =>
  match ReadJunctions typeConfig (ways_dat dir) ∅ with
  | None => (ReturnFalse, None)
  | Some junctions =>
  match ReadWayEndpoints typeConfig (ways_dat dir) junctions ∅ with
  | None => (ReturnFalse, None)
  | Some nodeWayMap =>
  match way_idx dir with
  | None => (ReturnFalse, None)
  | Some wayIndex =>
  match scanner_Open (ways_dat dir) with
  | None => (ReturnFalse, None)
  | Some scanner =>
      if negb (creates medium) then (ReturnFalse, None)      (* writer.Open *)
      else
      match writeRouteNodes restrictions nodeWayMap wayIndex GetRouteNodeBlockSize scanner with
      | (Ok, st) =>
          if scanner_Close (bs_scanner st) then
            let writer := patchHeader st in
            if negb (writerCloses medium) then (ReturnFalse, Some (fw_items writer))
            else if negb (indexCloses medium) then (ReturnFalse, Some (fw_items writer))
            else (Ok, Some (fw_items writer))
          else (ReturnFalse, Some (fw_items (bs_writer st)))
      | (other, st) => (other, Some (fw_items (bs_writer st)))
      end
  end end end end end.
(** Places on the ring of a closed way, counted from [currentNode]: [k]
    steps ahead and [k] steps behind, round the end of the vector. *)
Definition ringAhead (size currentNode : Z) (k : nat) : Z :=
  (currentNode + Z.of_nat k) mod size.

Definition ringBehind (size currentNode : Z) (k : nat) : Z :=
  (currentNode - Z.of_nat k) mod size.

(** The least number of steps, from 1 to [size-1], after which [place]
    holds a route node. *)
Definition firstOnRing (nodeWayMap : gmap Id (list Id)) (ns : list Point) (d : Point)
    (place : nat -> Z) : option nat :=
  List.find (fun k => isRouteNode nodeWayMap (GetId (nodeAt ns d (place k))))
            (seq 1 (length ns - 1)).

(** The lengths of the first [k] segments along [place], added in the
    order they are walked, the first one being the initial value. *)
Definition ringDistance (ns : list Point) (d : Point) (place : nat -> Z) (k : nat) : float :=
  fold_left (fun acc m =>
               PrimFloat.add acc (segment (nodeAt ns d (place m)) (nodeAt ns d (place (S m)))))
            (seq 1 (k - 1))
            (segment (nodeAt ns d (place 0%nat)) (nodeAt ns d (place 1%nat))).

(** The path of a ring way that ends [k] steps along [place]. *)
Definition ringPath (way : Way) (index : nat) (d : Point) (place : nat -> Z) (k : nat) : Path :=
  makePath way index (nodeAt (nodes way) d (place k)) (ringDistance (nodes way) d place k).
End Builder.

(** ** [Way::Write] and [Way::Read] ([Way.cpp])

    This [Way] is the one of [Way.cpp]: segment attributes, the coordinates
    in [nodes] and the node ids in a vector [ids] of their own. *)

Module WayCodec.

(** Modelled from the spec: the byte codecs of [FileWriter] and
    [FileScanner] are "generic binary scanner/writer I/O primitives" and
    "the exact byte layout is delegated to the shared serializer".  A file
    is the sequence of values written: one token per [Write],
    [WriteNumber] or [attributes.Write] call, read back by the call of the
    same kind.  A read that finds another kind of token, or none, raises
    the scanner's sticky error flag and yields 0. *)
Inductive Token (Attr : Type) :=
| TokAttributes (a : Attr)
| TokFixed (v : Z)        (* Write(uint32_t) *)
| TokNumber (v : Z).      (* WriteNumber *)
Arguments TokAttributes {Attr} a.
Arguments TokFixed {Attr} v.
Arguments TokNumber {Attr} v.

Record Coord := mkCoord {
  GetLat : float;
  GetLon : float
}.

Record Way (Attr : Type) := mkWay {
  attributes : Attr;
  nodes      : list Coord;
  ids        : list Id;
  fileOffset : FileOffset
}.
Arguments mkWay {Attr}.
Arguments attributes {Attr}.
Arguments nodes {Attr}.
Arguments ids {Attr}.
Arguments fileOffset {Attr}.

Record Scanner (Attr : Type) := mkScanner {
  sc_tokens   : list (Token Attr);     (* what is left to read *)
  sc_pos      : FileOffset;            (* tokens read so far *)
  sc_hasError : bool
}.
Arguments mkScanner {Attr}.
Arguments sc_tokens {Attr}.
Arguments sc_pos {Attr}.
Arguments sc_hasError {Attr}.

Record Writer (Attr : Type) := mkWriter {
  wr_tokens   : list (Token Attr);
  wr_hasError : bool
}.
Arguments mkWriter {Attr}.
Arguments wr_tokens {Attr}.
Arguments wr_hasError {Attr}.

Section Codec.
(** [SegmentAttributes] with its default value, the width of [Id]
    ([Types.h]), [conversionFactor] and the conversions between
    [double] and [uint32_t] are not among the sources. *)
Variable Attr : Type.
Variable defaultAttributes : Attr.
Variable IdModulus : Z.
Variable conversionFactor : float.
Variable round_u32 : float -> Z.        (* (uint32_t)round(x) *)
Variable u32_to_double : Z -> float.

Definition fail (sc : Scanner Attr) : Scanner Attr :=
  mkScanner (sc_tokens sc) (sc_pos sc) true.

Definition advance (sc : Scanner Attr) (rest : list (Token Attr)) : Scanner Attr :=
  mkScanner rest (S (sc_pos sc)) false.

Definition GetPos (sc : Scanner Attr) : option FileOffset :=
  if sc_hasError sc then None else Some (sc_pos sc).

(** [attributes.Read(scanner)] *)
Definition attributes_Read (sc : Scanner Attr) : option Attr * Scanner Attr :=
  if sc_hasError sc then (None, sc)
  else match sc_tokens sc with
       | TokAttributes a :: rest => (Some a, advance sc rest)
       | _ => (None, fail sc)
       end.

(** [scanner.Read(uint32_t&)] *)
Definition Read_u32 (sc : Scanner Attr) : bool * Z * Scanner Attr :=
  if sc_hasError sc then (false, 0, sc)
  else match sc_tokens sc with
       | TokFixed v :: rest => (true, v mod 2^32, advance sc rest)
       | _ => (false, 0, fail sc)
       end.

(** [scanner.ReadNumber(x)] for an unsigned [x] of [modulus] values *)
Definition ReadNumber (modulus : Z) (sc : Scanner Attr) : bool * Z * Scanner Attr :=
  if sc_hasError sc then (false, 0, sc)
  else match sc_tokens sc with
       | TokNumber v :: rest => (true, v mod modulus, advance sc rest)
       | _ => (false, 0, fail sc)
       end.

Definition put (t : Token Attr) (w : Writer Attr) : Writer Attr :=
  if wr_hasError w then w else mkWriter (wr_tokens w ++ [t]) false.

Definition attributes_Write (a : Attr) (w : Writer Attr) : bool * Writer Attr :=
  (negb (wr_hasError w), put (TokAttributes a) w).
Definition Write_u32 (v : Z) (w : Writer Attr) : Writer Attr := put (TokFixed (v mod 2^32)) w.
Definition WriteNumber (modulus v : Z) (w : Writer Attr) : Writer Attr :=
  put (TokNumber (v mod modulus)) w.

(** [std::min] on [double] *)
Definition fmin (a b : float) : float := if PrimFloat.ltb b a then b else a.

(** [v.resize(n)] and [v.resize(n,x)] *)
Definition resize {T : Type} (n : nat) (x : T) (v : list T) : list T :=
  take n v ++ replicate (n - length v) x.

(** *** [Way::Write] *)

(** The loop that counts the non-zero ids and finds the least of them:
    [(idCount, minId)], [minId] not yet assigned while [idCount] is 0. *)
Definition scanId (st : Z * Id) (id : Id) : Z * Id :=
  if negb (id =? 0) then
    (((fst st + 1) mod 2^32),
     if fst st =? 0 then id else Z.min (snd st) id)
  else st.

Definition scanIds (ids : list Id) (minId0 : Id) : Z * Id :=
  fold_left scanId ids (0, minId0).

(** The loop that writes an index and a delta per non-zero id, [i]
    being the index of the head of [ids]. *)
Fixpoint writeIds (minId : Id) (i : nat) (ids : list Id) (w : Writer Attr) : Writer Attr :=
  match ids with
  | [] => w
  | id :: rest =>
      let w :=
        if negb (id =? 0)
        then WriteNumber IdModulus (id - minId) (WriteNumber (2^32) (Z.of_nat i) w)
        else w in
      writeIds minId (S i) rest w
  end.

Definition writeCoord (minLat minLon : float) (w : Writer Attr) (node : Coord)
    : Writer Attr :=
  let latValue := round_u32 (PrimFloat.mul (PrimFloat.sub (GetLat node) minLat) conversionFactor) in
  let lonValue := round_u32 (PrimFloat.mul (PrimFloat.sub (GetLon node) minLon) conversionFactor) in
  WriteNumber (2^32) lonValue (WriteNumber (2^32) latValue w).

(** [None] is the failed [assert(!nodes.empty())]; [minId0] is what the
    uninitialised local [minId] holds. *)
Definition Write (minId0 : Id) (way : Way Attr) (writer : Writer Attr)
    : option (bool * Writer Attr) :=
  match nodes way with
  | [] => None
  | first :: others =>
      match attributes_Write (attributes way) writer with
      | (false, writer) => Some (false, writer)
      | (true, writer) =>
          let writer := WriteNumber (2^32) (Z.of_nat (length (nodes way))) writer in
          let minLat := fold_left (fun m n => fmin m (GetLat n)) others (GetLat first) in
          let minLon := fold_left (fun m n => fmin m (GetLon n)) others (GetLon first) in
          let minLatValue := round_u32 (PrimFloat.mul (PrimFloat.add minLat 90%float) conversionFactor) in
          let minLonValue := round_u32 (PrimFloat.mul (PrimFloat.add minLon 180%float) conversionFactor) in
          let writer := Write_u32 minLonValue (Write_u32 minLatValue writer) in
          let writer := fold_left (writeCoord minLat minLon) (nodes way) writer in
          let '(idCount, minId) := scanIds (ids way) minId0 in
          let writer := WriteNumber (2^32) idCount writer in
          let writer :=
            if 0 <? idCount
            then writeIds minId 0 (ids way) (WriteNumber IdModulus minId writer)
            else writer in
          Some (negb (wr_hasError writer), writer)
      end
  end.

(** *** [Way::Read] *)

(** The coordinate loop, [n] iterations left, [i] the index written. *)
Fixpoint readCoords (n i : nat) (minLat minLon : Z) (nodes : list Coord)
    (sc : Scanner Attr) : list Coord * Scanner Attr :=
  match n with
  | O => (nodes, sc)
  | S n' =>
      let '(_, latValue, sc) := ReadNumber (2^32) sc in
      let '(_, lonValue, sc) := ReadNumber (2^32) sc in
      let node :=
        mkCoord
          (PrimFloat.sub (PrimFloat.div (u32_to_double ((minLat + latValue) mod 2^32)) conversionFactor) 90%float)
          (PrimFloat.sub (PrimFloat.div (u32_to_double ((minLon + lonValue) mod 2^32)) conversionFactor) 180%float) in
      readCoords n' (S i) minLat minLon (<[ i := node ]> nodes) sc
  end.

(** [for (size_t i=1; i<=idCount; i++)]: [ids[index]=id+minId].  With an
    [index] outside the vector the assignment is undefined: [None]. *)
Fixpoint readIds (n : nat) (minId : Id) (ids : list Id) (sc : Scanner Attr)
    : option (list Id * Scanner Attr) :=
  match n with
  | O => Some (ids, sc)
  | S n' =>
      let '(_, index, sc) := ReadNumber (2^32) sc in
      let '(_, id, sc) := ReadNumber IdModulus sc in
      if (Z.to_nat index <? length ids)%nat
      then readIds n' minId (<[ Z.to_nat index := (id + minId) mod IdModulus ]> ids) sc
      else None
  end.

(** [way] is the object read into; [None] is the undefined assignment of
    [readIds]. *)
Definition Read (way : Way Attr) (scanner : Scanner Attr)
    : option (bool * Way Attr * Scanner Attr) :=
  match GetPos scanner with
  | None => Some (false, way, scanner)
  | Some offset =>
      let way := mkWay (attributes way) (nodes way) (ids way) offset in
      match attributes_Read scanner with
      | (None, scanner) => Some (false, way, scanner)
      | (Some attrs, scanner) =>
          let way := mkWay attrs (nodes way) (ids way) (fileOffset way) in
          match ReadNumber (2^32) scanner with
          | (false, _, scanner) => Some (false, way, scanner)
          | (true, nodeCount, scanner) =>
              let '(_, minLat, scanner) := Read_u32 scanner in
              let '(_, minLon, scanner) := Read_u32 scanner in
              let nodes0 := resize (Z.to_nat nodeCount) (mkCoord 0%float 0%float) (nodes way) in
              let '(nodes1, scanner) :=
                readCoords (Z.to_nat nodeCount) 0 minLat minLon nodes0 scanner in
              let ids0 := resize (Z.to_nat nodeCount) 0 (ids way) in
              let '(_, idCount, scanner) := ReadNumber (2^32) scanner in
              match (if 0 <? idCount then
                       let '(_, minId, scanner) := ReadNumber IdModulus scanner in
                       readIds (Z.to_nat idCount) minId ids0 scanner
                     else Some (ids0, scanner)) with
              | None => None
              | Some (ids1, scanner) =>
                  Some (negb (sc_hasError scanner),
                        mkWay (attributes way) nodes1 ids1 (fileOffset way),
                        scanner)
              end
          end
      end
  end.

(** [new Way()] *)
Definition newWay : Way Attr := mkWay defaultAttributes [] [] 0%nat.

(** A scanner opened on what a writer wrote. *)
Definition openOn (w : Writer Attr) : Scanner Attr := mkScanner (wr_tokens w) 0%nat false.

Definition newWriter : Writer Attr := mkWriter [] false.

(** *** The tokens of the two loops of [Way::Write], for the statements
    below *)

Definition coordTokens (minLat minLon : float) (nodes : list Coord) : list (Token Attr) :=
  flat_map
    (fun node =>
       [TokNumber (round_u32 (PrimFloat.mul (PrimFloat.sub (GetLat node) minLat) conversionFactor) mod 2^32);
        TokNumber (round_u32 (PrimFloat.mul (PrimFloat.sub (GetLon node) minLon) conversionFactor) mod 2^32)])
    nodes.

Fixpoint idTokens (minId : Id) (i : nat) (ids : list Id) : list (Token Attr) :=
  match ids with
  | [] => []
  | id :: rest =>
      (if negb (id =? 0)
       then [TokNumber (Z.of_nat i mod 2^32); TokNumber ((id - minId) mod IdModulus)]
       else []) ++ idTokens minId (S i) rest
  end.

Definition countNonzero (ids : list Id) : nat :=
  length (List.filter (fun id => negb (id =? 0)) ids).

(** *** [Way::WriteOptimized] and [Way::ReadOptimized]

    The record without its id section. *)

Definition WriteOptimized (way : Way Attr) (writer : Writer Attr)
    : option (bool * Writer Attr) :=
  match nodes way with
  | [] => None
  | first :: others =>
      match attributes_Write (attributes way) writer with
      | (false, writer) => Some (false, writer)
      | (true, writer) =>
          let writer := WriteNumber (2^32) (Z.of_nat (length (nodes way))) writer in
          let minLat := fold_left (fun m n => fmin m (GetLat n)) others (GetLat first) in
          let minLon := fold_left (fun m n => fmin m (GetLon n)) others (GetLon first) in
          let minLatValue := round_u32 (PrimFloat.mul (PrimFloat.add minLat 90%float) conversionFactor) in
          let minLonValue := round_u32 (PrimFloat.mul (PrimFloat.add minLon 180%float) conversionFactor) in
          let writer := Write_u32 minLonValue (Write_u32 minLatValue writer) in
          let writer := fold_left (writeCoord minLat minLon) (nodes way) writer in
          Some (negb (wr_hasError writer), writer)
      end
  end.

Definition ReadOptimized (way : Way Attr) (scanner : Scanner Attr)
    : bool * Way Attr * Scanner Attr :=
  match GetPos scanner with
  | None => (false, way, scanner)
  | Some offset =>
      let way := mkWay (attributes way) (nodes way) (ids way) offset in
      match attributes_Read scanner with
      | (None, scanner) => (false, way, scanner)
      | (Some attrs, scanner) =>
          let way := mkWay attrs (nodes way) (ids way) (fileOffset way) in
          match ReadNumber (2^32) scanner with
          | (false, _, scanner) => (false, way, scanner)
          | (true, nodeCount, scanner) =>
              let '(_, minLat, scanner) := Read_u32 scanner in
              let '(_, minLon, scanner) := Read_u32 scanner in
              let nodes0 := resize (Z.to_nat nodeCount) (mkCoord 0%float 0%float) (nodes way) in
              let '(nodes1, scanner) :=
                readCoords (Z.to_nat nodeCount) 0 minLat minLon nodes0 scanner in
              (negb (sc_hasError scanner),
               mkWay (attributes way) nodes1 (ids way) (fileOffset way),
               scanner)
          end
      end
  end.

(** *** [Way::GetCenter], [Way::GetBoundingBox], [Way::GetCoordinates] *)

(** [std::max] on [double] *)
Definition fmax (a b : float) : float := if PrimFloat.ltb a b then b else a.

(** The four running extremes of the loop of [GetCenter]. *)
Record Extremes := mkExtremes {
  minLat : float;
  minLon : float;
  maxLat : float;
  maxLon : float
}.

(** Body of [for (size_t i=1; i<nodes.size(); i++)] of [GetCenter]. *)
Definition stretch (e : Extremes) (node : Coord) : Extremes :=
  let minLat := fmin (minLat e) (GetLat node) in
  let minLon := fmin (minLon e) (GetLon node) in
  let maxLat := fmax (maxLat e) (GetLat node) in
  let maxLon := fmax (maxLon e) (GetLon node) in
  mkExtremes minLat minLon maxLat maxLon.

(** [None] is [return false]; otherwise the [(lat, lon)] written through
    the two references. *)
Definition GetCenter (way : Way Attr) : option (float * float) :=
  match nodes way with
  | [] => None
  | first :: others =>
      let e := fold_left stretch others
                 (mkExtremes (GetLat first) (GetLon first) (GetLat first) (GetLon first)) in
      let lat := PrimFloat.add (minLat e) (PrimFloat.div (PrimFloat.sub (maxLat e) (minLat e)) 2%float) in
      let lon := PrimFloat.add (minLon e) (PrimFloat.div (PrimFloat.sub (maxLon e) (minLon e)) 2%float) in
      Some (lat, lon)
  end.

(** The box written through the four references of [GetBoundingBox]. *)
Record Box := mkBox {
  box_minLon : float;
  box_maxLon : float;
  box_minLat : float;
  box_maxLat : float
}.

(** Body of the loop of [GetBoundingBox]. *)
Definition enlarge (b : Box) (node : Coord) : Box :=
  let minLon := fmin (box_minLon b) (GetLon node) in
  let maxLon := fmax (box_maxLon b) (GetLon node) in
  let minLat := fmin (box_minLat b) (GetLat node) in
  let maxLat := fmax (box_maxLat b) (GetLat node) in
  mkBox minLon maxLon minLat maxLat.

(** [None] is the failed [assert(!nodes.empty())]. *)
Definition GetBoundingBox (way : Way Attr) : option Box :=
  match nodes way with
  | [] => None
  | first :: others =>
      Some (fold_left enlarge others
              (mkBox (GetLon first) (GetLon first) (GetLat first) (GetLat first)))
  end.

(** [None] is the failed [assert(nodeIndex<nodes.size())]; otherwise
    [(lat, lon)]. *)
Definition GetCoordinates (way : Way Attr) (nodeIndex : nat) : option (float * float) :=
  match nodes way !! nodeIndex with
  | None => None
  | Some node => Some (GetLat node, GetLon node)
  end.

(** *** For the statements below *)

(** The tokens of one record: what [Write] appends for [way]. *)
Definition recordTokens (minId0 : Id) (way : Way Attr) : list (Token Attr) :=
  match nodes way with
  | [] => []
  | first :: others =>
      let minLat := fold_left (fun m n => fmin m (GetLat n)) others (GetLat first) in
      let minLon := fold_left (fun m n => fmin m (GetLon n)) others (GetLon first) in
      TokAttributes (attributes way)
      :: TokNumber (Z.of_nat (length (nodes way)) mod 2^32)
      :: TokFixed (round_u32 (PrimFloat.mul (PrimFloat.add minLat 90%float) conversionFactor) mod 2^32)
      :: TokFixed (round_u32 (PrimFloat.mul (PrimFloat.add minLon 180%float) conversionFactor) mod 2^32)
      :: coordTokens minLat minLon (nodes way)
      ++ TokNumber (fst (scanIds (ids way) minId0) mod 2^32)
      :: (if 0 <? fst (scanIds (ids way) minId0)
          then TokNumber (snd (scanIds (ids way) minId0) mod IdModulus)
               :: idTokens (snd (scanIds (ids way) minId0)) 0 (ids way)
          else [])
  end.

(** The tokens of one record of [WriteOptimized]. *)
Definition optimizedTokens (way : Way Attr) : list (Token Attr) :=
  match nodes way with
  | [] => []
  | first :: others =>
      let minLat := fold_left (fun m n => fmin m (GetLat n)) others (GetLat first) in
      let minLon := fold_left (fun m n => fmin m (GetLon n)) others (GetLon first) in
      TokAttributes (attributes way)
      :: TokNumber (Z.of_nat (length (nodes way)) mod 2^32)
      :: TokFixed (round_u32 (PrimFloat.mul (PrimFloat.add minLat 90%float) conversionFactor) mod 2^32)
      :: TokFixed (round_u32 (PrimFloat.mul (PrimFloat.add minLon 180%float) conversionFactor) mod 2^32)
      :: coordTokens minLat minLon (nodes way)
  end.

(** The ids vector after a [Read] into a vector that held [old]: an id of
    the file where the file has one, what was there where it has none. *)
Definition overlay (new old : list Id) : list Id :=
  zip_with (fun n o => if n =? 0 then o else n) new old.

(** [node] lies in the box, its sides included, in the order of
    [double]. *)
Definition inBox (b : Box) (node : Coord) : bool :=
  PrimFloat.leb (box_minLat b) (GetLat node) && PrimFloat.leb (GetLat node) (box_maxLat b) &&
  PrimFloat.leb (box_minLon b) (GetLon node) && PrimFloat.leb (GetLon node) (box_maxLon b).

(** Neither coordinate of [node] is a NaN. *)
Definition isNumber (node : Coord) : bool :=
  negb (PrimFloat.is_nan (GetLat node)) && negb (PrimFloat.is_nan (GetLon node)).
End Codec.

(** A way of three nodes, the first without an id. *)
Definition exampleWay : Way unit :=
  mkWay tt [mkCoord 0%float 0%float; mkCoord 1%float 0%float; mkCoord 1%float 1%float]
        [0; 7; 5] 0%nat.
End WayCodec.

(** ** Reference definitions for the statements below *)

(** The id of the last member of [ms] that passes [test], [d] when there is
    none. *)
Definition lastMemberId (test : Member -> bool) (ms : list Member) (d : Id) : Id :=
  List.last (map m_id (List.filter test ms)) d.

(** The kind of a relation type: [Allow] for the three [only] tags,
    [Forbid] for the four [no] tags, none for any other type. *)
Definition recognisedKind (typeConfig : TypeConfig) (type : TypeId) : option RestrictionType :=
  if bool_decide (type ∈ posRestrictions typeConfig) then Some allow
  else if bool_decide (type ∈ negRestrictions typeConfig) then Some forbit
  else None.

(** A way is routable when its type is neither [typeIgnore], nor ignored,
    nor barred from routing by the type configuration. *)
Definition isRoutable (typeConfig : TypeConfig) (way : Way) : bool :=
  negb (GetType way =? typeIgnore typeConfig) &&
  negb (GetIgnore typeConfig (GetType way)) &&
  CanBeRoute typeConfig (GetType way).

(** How often [id] appears in [ns]. *)
Definition occurrences (id : Id) (ns : list Point) : nat :=
  length (List.filter (fun p => GetId p =? id) ns).

(** The appearances of a node id over the routable ways of a list, each
    position in each way counted. *)
Definition appearances (typeConfig : TypeConfig) (ways : list Way) (id : Id) : nat :=
  occurrences id (flat_map nodes (List.filter (isRoutable typeConfig) ways)).

(** The counter of [id] in [nodeWayCountMap], 0 when it has no entry. *)
Definition countOf (m : gmap Id nat) (id : Id) : nat := default 0%nat (m !! id).

(** No entry of a node way map is an empty list. *)
Definition NoEmptyList (m : gmap Id (list Id)) : Prop :=
  forall id wayIds, m !! id = Some wayIds -> wayIds <> [].

(** A [ways.dat] that holds exactly the ways [ways] after its count. *)
Definition waysFile (ways : list Way) : list (Slot Way) :=
  SlotCount (Z.of_nat (length ways)) :: map SlotData ways.

(** [waysMap] holds a way of id [wayId]: [waysMap[wayId].Valid()]. *)
Definition isLoaded (waysMap : gmap Id Way) (wayId : Id) : bool :=
  match waysMap !! wayId with Some _ => true | None => false end.

(** The way id a path leaves by: [ways[path.wayIndex]]. *)
Definition wayOfPath (ways : list Id) (path : Path) : option Id := ways !! wayIndex path.

(** [targetPath] is the first index of [paths] whose way id is [dst]. *)
Definition firstPathBy (ways : list Id) (paths : list Path) (dst : Id) (targetPath : nat) : Prop :=
  (exists path, paths !! targetPath = Some path /\ wayOfPath ways path = Some dst) /\
  (forall i path, (i < targetPath)%nat -> paths !! i = Some path ->
                  wayOfPath ways path <> Some dst).

(** The [k]-th block of the block loop: [blockSize] entries from entry
    [k * blockSize] on. *)
Definition blockOf (blockSize : nat) (entries : list (Id * list Id)) (k : nat)
    : list (Id * list Id) :=
  take blockSize (drop (k * blockSize) entries).

(** The state of the build after the records [rns] have been written: the
    placeholder 0, the records, the writer at the end of the file, and the
    [uint32_t] counter. *)
Definition Written (st : BuildState) (rns : list RouteNode) : Prop :=
  fw_items (bs_writer st) = ItemU32 0 :: map ItemRouteNode rns /\
  fw_pos (bs_writer st) = S (length rns) /\
  writtenRouteNodeCount st = Z.of_nat (length rns) mod 2^32.

(** Steps left before a forward (backward) walk from [index] is at
    [currentNode] again. *)
Definition gapNext (size currentNode index : Z) : Z :=
  if index <=? currentNode then currentNode - index else currentNode - index + size.

Definition gapPrev (size currentNode index : Z) : Z :=
  if currentNode <=? index then index - currentNode else index - currentNode + size.

(** The paths of the [k]-th entry of [routeNode.ways]: those whose
    [wayIndex] is [k]. *)
Definition pathsOfListing (k : nat) (paths : list Path) : list Path :=
  List.filter (fun p => (wayIndex p =? k)%nat) paths.

(** What the turn from [src] to [dst] contributes to the excludes: the
    turn is denied and [dst] has a path, the first of which is the target. *)
Definition DeniedTurn (turnConstraints : list Restriction) (ways : list Id)
    (paths : list Path) (src dst : Id) (e : Exclude) : Prop :=
  e = mkExclude src (findTargetPath ways paths dst 0) /\
  src <> dst /\
  CanTurn turnConstraints src dst = false /\
  (findTargetPath ways paths dst 0 < length paths)%nat.

Section Provenance.
Variable dist : float -> float -> float -> float -> float.
Variable accessBit : Z.

(** [rn] was built for an entry of [block], from some batch of loaded
    ways. *)
Definition Built (restrictions : gmap Id (list Restriction))
    (nodeWayMap : gmap Id (list Id)) (block : list (Id * list Id)) (rn : RouteNode) : Prop :=
  exists waysMap node,
    node ∈ block /\
    buildRouteNode dist accessBit restrictions nodeWayMap waysMap node = Some rn.

(** [rn] was built in a block of the loop that was not skipped. *)
Definition EmittedFrom (restrictions : gmap Id (list Restriction))
    (nodeWayMap : gmap Id (list Id)) (blockSize : nat) (entries : list (Id * list Id))
    (rn : RouteNode) : Prop :=
  exists k,
    collectWayIds (blockOf blockSize entries k) <> ∅ /\
    Built restrictions nodeWayMap (blockOf blockSize entries k) rn.
End Provenance.

(** *** Data files *)

(** The first [n] slots of [slots] as records, when they all decode. *)
Fixpoint takeRecords {A : Type} (n : nat) (slots : list (Slot A)) : option (list A) :=
  match n with
  | O => Some []
  | S n' =>
      match slots with
      | SlotData a :: rest =>
          match takeRecords n' rest with
          | Some records => Some (a :: records)
          | None => None
          end
      | _ => None
      end
  end.

(** The records a data file announces in its count and holds behind it;
    [None] for a file that is absent, has no count, or holds fewer
    decodable records than the count says. *)
Definition recordsOf {A : Type} (file : option (list (Slot A))) : option (list A) :=
  match file with
  | Some (SlotCount n :: slots) => takeRecords (Z.to_nat (n mod 2^32)) slots
  | _ => None
  end.

(** The count a data file announces, as [scanner.Read(uint32_t&)] yields
    it. *)
Definition announcedCount {A : Type} (file : option (list (Slot A))) : option Z :=
  match file with
  | Some (SlotCount n :: _) => Some (n mod 2^32)
  | _ => None
  end.

(** The body of a counted loop over records already decoded, [i] the
    number of the first. *)
Fixpoint foldRecords {A T : Type} (body : Z -> A -> T -> T) (i : Z) (records : list A)
    (state : T) : T :=
  match records with
  | [] => state
  | record :: rest => foldRecords body (i + 1) rest (body i record state)
  end.

(** The relation loop of [ReadRestrictionRelations] over relations already
    decoded, [r] the number of the first. *)
Fixpoint handleRelations (typeConfig : TypeConfig) (uninit : nat -> Id * Id) (r : nat)
    (relations : list RawRelation) (restrictions : gmap Id (list Restriction))
    : gmap Id (list Restriction) :=
  match relations with
  | [] => restrictions
  | relation :: rest =>
      handleRelations typeConfig uninit (S r) rest
        (handleRelation typeConfig (uninit r) relation restrictions)
  end.

(** Every restriction stored has a way to come from and a way to go to,
    under a via node, and no key holds an empty vector. *)
Definition WellKeyed (restrictions : gmap Id (list Restriction)) : Prop :=
  forall via rs, restrictions !! via = Some rs ->
    via <> 0 /\ rs <> [] /\ Forall (fun r => r_from r <> 0 /\ r_to r <> 0) rs.

(** The way ids [ReadWayEndpoints] lists for node [id]: the id of each
    routable way, once per position at which the way holds the node, in
    file order. *)
Definition listings (typeConfig : TypeConfig) (ways : list Way) (id : Id) : list Id :=
  flat_map (fun way => replicate (occurrences id (nodes way)) (way_GetId way))
           (List.filter (isRoutable typeConfig) ways).

(** *** Turn restrictions *)

(** The type of the last restriction of [restrictions] that starts at
    [from]. *)
Definition lastTypeFrom (restrictions : list Restriction) (from : Id) : option RestrictionType :=
  last (map r_type (List.filter (fun r => r_from r =? from) restrictions)).

(** [restrictions] names the turn from [from] to [to]. *)
Definition namesTurn (restrictions : list Restriction) (from to : Id) : Prop :=
  exists r, r ∈ restrictions /\ r_from r = from /\ r_to r = to.

(** *** Open ways *)

(** The route node next before place [i] of the node list [ns], and the
    one next behind it: the first of the places [i-1, ..., 0], and of the
    places [i+1, ..., size-1], that holds a route node. *)
Definition routeNodeBefore (nodeWayMap : gmap Id (list Id)) (ns : list Point) (d : Point)
    (i : nat) : option nat :=
  List.find (fun j => isRouteNode nodeWayMap (GetId (nth j ns d))) (rev (seq 0 i)).

Definition routeNodeAfter (nodeWayMap : gmap Id (list Id)) (ns : list Point) (d : Point)
    (i : nat) : option nat :=
  List.find (fun j => isRouteNode nodeWayMap (GetId (nth j ns d)))
            (seq (S i) (length ns - S i)).

(** *** Way loading *)

(** [way] is the record at the offset the index gives for [id]. *)
Definition indexedRecord (wayIndex : gmap Id FileOffset) (file : list (Slot Way))
    (id : Id) (way : Way) : Prop :=
  exists offset, wayIndex !! id = Some offset /\ file !! offset = Some (SlotData way).

(** *** Inputs that fit together *)

(** The junctions of a list of ways: the node ids that appear at least
    twice over its routable ways. *)
Definition junctionsOf (typeConfig : TypeConfig) (ways : list Way) : gset Id :=
  list_to_set (List.filter (fun id => (2 <=? appearances typeConfig ways id)%nat)
                           (map GetId (flat_map nodes ways))).


(** The way index leads the id of every routable way of [ways] to the
    record of that way in [file]. *)
Definition Indexed (typeConfig : TypeConfig) (wayIndex : gmap Id FileOffset)
    (file : list (Slot Way)) (ways : list Way) : Prop :=
  forall way, way ∈ ways -> isRoutable typeConfig way = true ->
    indexedRecord wayIndex file (way_GetId way) way.

(** [way] holds the node [id]. *)
Definition holdsNode (way : Way) (id : Id) : Prop :=
  exists p, p ∈ nodes way /\ GetId p = id.

(** The index leads every way id listed for [node] to a record of that
    id which holds the node. *)
Definition Served (wayIndex : gmap Id FileOffset) (file : list (Slot Way))
    (node : Id * list Id) : Prop :=
  forall wayId, wayId ∈ snd node ->
    exists way, indexedRecord wayIndex file wayId way /\ way_GetId way = wayId /\
                holdsNode way (fst node).

(** The medium has room for [n] route nodes. *)
Definition roomFor (medium : Medium) (n : nat) : Prop :=
  match room medium with
  | Some k => (n <= k)%nat
  | None => True
  end.

(** An index of the file [waysFile ways]: the id of each way leads to the
    slot that holds the way, the first way being at offset 1. *)
Fixpoint indexFrom (offset : FileOffset) (ways : list Way) : gmap Id FileOffset :=
  match ways with
  | [] => ∅
  | way :: rest => <[ way_GetId way := offset ]> (indexFrom (S offset) rest)
  end.

Definition indexOf (ways : list Way) : gmap Id FileOffset := indexFrom 1 ways.

(** ** Concrete inputs

    A type configuration in which type 1 is routable and type 2 is not,
    points of ids 1 to 5 (all at latitude and longitude 0), and five ways:
    the area triangle [1,2,3,1] (way 20), two open ways that make 2 and 3
    junctions (ways 30 and 40), a lollipop [4,5,1,5] (way 50) and a way of
    the type that is not routable (way 60). *)
Module Ex.
Definition typeConfig : TypeConfig :=
  mkTypeConfig 0 (fun _ => 0) (fun _ => false) (fun t => t =? 1).

Definition pt (id : Id) : Point := mkPoint id 0%float 0%float.

Definition triangle : Way := mkWay 20 1 true false true 50 [pt 1; pt 2; pt 3; pt 1].
Definition spur2 : Way := mkWay 30 1 false false true 50 [pt 2; pt 4].
Definition spur3 : Way := mkWay 40 1 false false true 50 [pt 3; pt 5].
Definition lollipop : Way := mkWay 50 1 false false true 30 [pt 4; pt 5; pt 1; pt 5].
Definition footpath : Way := mkWay 60 2 false false true 5 [pt 1; pt 2; pt 3].

(** [GetSphericalDistance] replaced by a constant and the flag bit 1. *)
Definition unitDistance (lonA latA lonB latB : float) : float := 1%float.
Definition hasAccess : Z := 1.

(** No [Restriction] field is left unassigned. *)
Definition zeroed (r : nat) : Id * Id := (0, 0).

(** A medium on which nothing fails, and one that takes a single route
    node. *)
Definition disk : Medium := mkMedium true None true true.

Definition triangleWays : list Way := [triangle; spur2; spur3].
Definition triangleIndex : gmap Id FileOffset :=
  <[ 20 := 1%nat ]> (<[ 30 := 2%nat ]> (<[ 40 := 3%nat ]> ∅)).
Definition triangleDir : Directory :=
  mkDirectory (Some [SlotCount 0]) (Some (waysFile triangleWays)) (Some triangleIndex).

Definition triangleScanner : FileScanner Way := mkScanner (waysFile triangleWays) 0%nat false.


(** The node way map [ReadWayEndpoints] makes of the triangle ways, and
    the build phase on it. *)
Definition triangleMap : gmap Id (list Id) :=
  <[ 1 := [20; 20] ]> (<[ 2 := [20; 30] ]> (<[ 3 := [20; 40] ]> ∅)).
Definition triangleRun : Status * BuildState :=
  writeRouteNodes unitDistance hasAccess disk ∅ triangleMap triangleIndex 5 triangleScanner.

(** The route node of junction 2 in that run. *)
Definition triangleNode2 : RouteNode :=
  Eval vm_compute in
    nth 1 (routeNodesOf (fw_items (bs_writer (snd triangleRun)))) (mkRouteNode 0 [] [] []).

(** The lollipop alone: junction 5 lists way 50 twice. *)
Definition lollipopScanner : FileScanner Way := mkScanner (waysFile [lollipop]) 0%nat false.
Definition lollipopDir : Directory :=
  mkDirectory (Some [SlotCount 0]) (Some (waysFile [lollipop])) (Some {[ 50 := 1%nat ]}).
Definition lollipopMap : gmap Id (list Id) := {[ 5 := [50; 50] ]}.
Definition lollipopRun : Status * BuildState :=
  writeRouteNodes unitDistance hasAccess disk ∅ lollipopMap {[ 50 := 1%nat ]} 5 lollipopScanner.
Definition lollipopNode : RouteNode :=
  Eval vm_compute in
    hd (mkRouteNode 0 [] [] []) (routeNodesOf (fw_items (bs_writer (snd lollipopRun)))).

(** The triangle with the turn from way 30 into way 20 forbidden at
    junction 2. *)
Definition noTurnInto20 : gmap Id (list Restriction) :=
  {[ 2 := [mkRestriction forbit 30 20] ]}.
Definition restrictedRun : Status * BuildState :=
  writeRouteNodes unitDistance hasAccess disk noTurnInto20 triangleMap triangleIndex 5
                  triangleScanner.
Definition restrictedNode : RouteNode :=
  Eval vm_compute in
    nth 1 (routeNodesOf (fw_items (bs_writer (snd restrictedRun)))) (mkRouteNode 0 [] [] []).

(** A type configuration that knows two of the restriction names, and a
    [rawrels.dat] of two relations of type 7: a left turn from way 30 into
    way 20 forbidden at node 2, and a relation without a via node. *)
Definition restrictionConfig : TypeConfig :=
  mkTypeConfig 0
    (fun name => if String.eqb name "restriction_no_left_turn" then 7
                 else if String.eqb name "restriction_only_straight_on" then 8
                 else 0)
    (fun _ => false) (fun t => t =? 1).
Definition noLeftTurn : RawRelation :=
  mkRawRelation 7 [mkMember memberWay 30 "from"; mkMember memberNode 2 "via";
                   mkMember memberWay 20 "to"].
Definition noVia : RawRelation :=
  mkRawRelation 7 [mkMember memberWay 30 "from"; mkMember memberWay 20 "to"].
Definition rawrels : list (Slot RawRelation) :=
  [SlotCount 2; SlotData noLeftTurn; SlotData noVia].
(** Open ways that share no node: way [k] runs over the nodes [2k],
    [2k+1], [2k], [2k+1], so that both its nodes are junctions. *)
Definition zigzag (k : nat) : Way :=
  mkWay (Z.of_nat k + 1) 1 false false true 50
        [pt (2 * Z.of_nat k); pt (2 * Z.of_nat k + 1);
         pt (2 * Z.of_nat k); pt (2 * Z.of_nat k + 1)].
Definition zigzags (n : nat) : list Way := map zigzag (seq 0 n).
Definition zigzagDir (n : nat) : Directory :=
  mkDirectory (Some [SlotCount 0]) (Some (waysFile (zigzags n))) (Some (indexOf (zigzags n))).
End Ex.

(** * Properties *)

(** ** [CanTurn] *)

Lemma CanTurn_is_loop (R : list Restriction) (from to : Id) :
  CanTurn R from to = CanTurn_loop R from to true.
Proof. destruct R; reflexivity. Qed.

Lemma CanTurn_loop_filter_from (R : list Restriction) (from to : Id) (d : bool) :
  CanTurn_loop (List.filter (fun r => r_from r =? from) R) from to d
  = CanTurn_loop R from to d.
Proof.
  revert d. induction R as [|r R IH]; intros d; simpl; [reflexivity|].
  destruct (r_from r =? from) eqn:Hfrom; simpl.
  - rewrite Hfrom. destruct (r_type r); destruct (r_to r =? to); auto.
  - apply IH.
Qed.

(** C3. The laws of [CanTurn]: an empty list allows every turn; a single
    Allow restriction [a -> b] allows [a -> b] and denies [a -> c] for
    [c <> b]; a single Forbid restriction [a -> b] denies [a -> b] and
    allows [a -> c]; and dropping every restriction whose [from] is not the
    source way leaves the answer unchanged. *)
Theorem CanTurn_laws (a b c : Id) (R : list Restriction) (from to : Id) :
  c <> b ->
  CanTurn [] a b = true /\
  CanTurn [mkRestriction allow a b] a b = true /\
  CanTurn [mkRestriction allow a b] a c = false /\
  CanTurn [mkRestriction forbit a b] a b = false /\
  CanTurn [mkRestriction forbit a b] a c = true /\
  CanTurn (List.filter (fun r => r_from r =? from) R) from to = CanTurn R from to.
Proof.
  intros Hcb.
  assert (Hbc : (b =? c) = false) by (apply Z.eqb_neq; congruence).
  unfold CanTurn at 1 2 3 4 5; simpl.
  rewrite !Z.eqb_refl, Hbc.
  repeat split.
  rewrite !CanTurn_is_loop. apply CanTurn_loop_filter_from.
Qed.

Lemma CanTurn_laws_witness :
  CanTurn [mkRestriction allow 1 2] 1 3 = false /\
  CanTurn [mkRestriction forbit 1 2] 1 3 = true.
Proof.
  pose proof (CanTurn_laws 1 2 3 [mkRestriction allow 7 3] 1 3 ltac:(lia)) as H.
  split; apply H.
Defined.

(** ** [ReadRestrictionRelations] *)

Lemma last_cons_default {T : Type} (x d : T) (l : list T) :
  List.last (x :: l) d = List.last l x.
Proof.
  revert x d. induction l as [|y l IH]; intros x d; [reflexivity|].
  change (List.last (x :: y :: l) d) with (List.last (y :: l) d).
  rewrite (IH y d), (IH y x). reflexivity.
Qed.

Lemma lastMemberId_cons (test : Member -> bool) (m : Member) (ms : list Member) (d : Id) :
  lastMemberId test (m :: ms) d
  = lastMemberId test ms (if test m then m_id m else d).
Proof.
  unfold lastMemberId. simpl. destruct (test m); simpl; [|reflexivity].
  apply last_cons_default.
Qed.

Lemma member_tests_exclusive (m : Member) :
  (isFromMember m = true -> isViaMember m = false /\ isToMember m = false) /\
  (isViaMember m = true -> isToMember m = false).
Proof.
  unfold isFromMember, isViaMember, isToMember, isMemberWay, isMemberNode.
  destruct (m_type m); simpl; try (split; intros; try split; congruence).
  split; [|congruence].
  intros H. apply String.eqb_eq in H. rewrite H. split; reflexivity.
Qed.

Lemma scanMembers_slots (ms : list Member) (st : MemberSlots) :
  scanMembers ms st
  = mkSlots (lastMemberId isFromMember ms (slot_from st))
            (lastMemberId isViaMember ms (slot_via st))
            (lastMemberId isToMember ms (slot_to st)).
Proof.
  revert st. induction ms as [|m ms IH]; intros st.
  - destruct st; reflexivity.
  - unfold scanMembers in *. simpl. rewrite IH, !lastMemberId_cons.
    destruct (member_tests_exclusive m) as [Hf Hv].
    unfold scanMember.
    destruct (isFromMember m) eqn:Ef.
    { destruct (Hf eq_refl) as [-> ->]. reflexivity. }
    destruct (isViaMember m) eqn:Ev.
    { rewrite (Hv eq_refl). reflexivity. }
    destruct (isToMember m); reflexivity.
Qed.

(** C9. In a recognised restriction relation the value of each slot is the
    id of the last member with that role and member kind (what an earlier
    matching member assigned is overwritten), and the restriction is
    appended at key [via], only when the three values are all non-zero; a
    relation of any other type changes nothing. *)
Theorem handleRelation_last_member_wins (typeConfig : TypeConfig) (uninit : Id * Id)
    (relation : RawRelation) (restrictions : gmap Id (list Restriction)) :
  scanMembers (members relation) (mkSlots (fst uninit) 0 (snd uninit))
  = mkSlots (lastMemberId isFromMember (members relation) (fst uninit))
            (lastMemberId isViaMember (members relation) 0)
            (lastMemberId isToMember (members relation) (snd uninit)) /\
  handleRelation typeConfig uninit relation restrictions
  = match recognisedKind typeConfig (rel_GetType relation) with
    | Some kind =>
        if bool_decide (lastMemberId isFromMember (members relation) (fst uninit) <> 0 /\
                        lastMemberId isViaMember (members relation) 0 <> 0 /\
                        lastMemberId isToMember (members relation) (snd uninit) <> 0)
        then push_back_at (lastMemberId isViaMember (members relation) 0)
               (mkRestriction kind
                  (lastMemberId isFromMember (members relation) (fst uninit))
                  (lastMemberId isToMember (members relation) (snd uninit)))
               restrictions
        else restrictions
    | None => restrictions
    end.
Proof.
  split; [apply scanMembers_slots|].
  unfold handleRelation, recognisedKind. rewrite scanMembers_slots. simpl.
  set (f := lastMemberId isFromMember _ _).
  set (v := lastMemberId isViaMember _ _).
  set (t := lastMemberId isToMember _ _).
  assert (Hnz : (negb (f =? 0) && negb (v =? 0) && negb (t =? 0))
                = bool_decide (f <> 0 /\ v <> 0 /\ t <> 0)).
  { destruct (Z.eqb_spec f 0), (Z.eqb_spec v 0), (Z.eqb_spec t 0); simpl;
      symmetry; first [ apply bool_decide_eq_true; tauto
                      | apply bool_decide_eq_false; tauto ]. }
  rewrite Hnz.
  destruct (bool_decide (rel_GetType relation ∈ posRestrictions typeConfig)); simpl;
    [reflexivity|].
  destruct (bool_decide (rel_GetType relation ∈ negRestrictions typeConfig)); reflexivity.
Qed.

(** ** The counted loop of the readers *)

Lemma drop_lookup_slot {A : Type} (l : list (Slot A)) (pos : nat) :
  drop pos l = match l !! pos with
               | Some x => x :: drop (S pos) l
               | None => []
               end.
Proof.
  destruct (l !! pos) as [x|] eqn:Hlook.
  - apply drop_S, Hlook.
  - apply drop_ge, lookup_ge_None, Hlook.
Qed.

Lemma readRecords_unfold {A T : Type} (body : Z -> A -> T -> T) (fuel : nat) (i count : Z)
    (scanner : FileScanner A) (state : T) :
  readRecords body fuel i count scanner state
  = if i <=? count then
      match record_Read scanner with
      | (None, _) => None
      | (Some record, scanner') =>
          match fuel with
          | O => None
          | S fuel' => readRecords body fuel' (incr32 i) count scanner' (body i record state)
          end
      end
    else Some state.
Proof. destruct fuel; reflexivity. Qed.

(** At a count of [2^32-1] the guard [i<=count] holds for every value of
    the counter: the loop leaves by a failed read only. *)
Lemma readRecords_wraps {A T : Type} (body : Z -> A -> T -> T) (fuel : nat) :
  forall (i : Z) (scanner : FileScanner A) (state : T),
    0 <= i < 2^32 ->
    readRecords body fuel i (2^32 - 1) scanner state = None.
Proof.
  induction fuel as [|fuel IH]; intros i scanner state Hi; rewrite readRecords_unfold.
  - destruct (Z.leb_spec i (2^32 - 1)); [|lia].
    destruct (record_Read scanner) as [[record|] scanner']; reflexivity.
  - destruct (Z.leb_spec i (2^32 - 1)); [|lia].
    destruct (record_Read scanner) as [[record|] scanner']; [|reflexivity].
    apply IH. unfold incr32. apply Z.mod_pos_bound. lia.
Qed.

(** A fuel of the slots left in the file is never used up: more of it
    changes nothing. *)
Lemma readRecords_fuel {A T : Type} (body : Z -> A -> T -> T) (count : Z) (fuel : nat) :
  forall (extra : nat) (i : Z) (scanner : FileScanner A) (state : T),
    (length (fs_file scanner) - fs_pos scanner <= fuel)%nat ->
    readRecords body (fuel + extra) i count scanner state
    = readRecords body fuel i count scanner state.
Proof.
  induction fuel as [|fuel IH]; intros extra i scanner state Hfuel;
    rewrite (readRecords_unfold body (_ + extra)), (readRecords_unfold body);
    destruct (i <=? count); try reflexivity;
    destruct (record_Read scanner) as [[record|] scanner'] eqn:Hread; try reflexivity.
  - exfalso. unfold record_Read in Hread.
    destruct (fs_hasError scanner); [discriminate|].
    destruct (fs_file scanner !! fs_pos scanner) as [slot|] eqn:Hlook;
      [|discriminate].
    apply lookup_lt_Some in Hlook. lia.
  - simpl. apply IH.
    unfold record_Read in Hread. destruct (fs_hasError scanner); [discriminate|].
    destruct (fs_file scanner !! fs_pos scanner) as [[n|a|]|]; try discriminate.
    inversion Hread. subst. simpl. lia.
Qed.

(** Below that count the loop reads the records the count announces. *)
Lemma readRecords_reads {A T : Type} (body : Z -> A -> T -> T) (file : list (Slot A))
    (count : Z) (n : nat) :
  forall (pos fuel : nat) (i : Z) (state : T),
    n = Z.to_nat (count + 1 - i) ->
    1 <= i <= count + 1 -> count < 2^32 - 1 ->
    (length file - pos <= fuel)%nat ->
    readRecords body fuel i count (mkScanner file pos false) state
    = match takeRecords n (drop pos file) with
      | Some records => Some (foldRecords body i records state)
      | None => None
      end.
Proof.
  induction n as [|n IH]; intros pos fuel i state Hn Hi Hcount Hfuel;
    rewrite readRecords_unfold.
  - destruct (Z.leb_spec i count); [lia|reflexivity].
  - destruct (Z.leb_spec i count); [|lia].
    unfold record_Read. simpl. rewrite (drop_lookup_slot file pos).
    destruct (file !! pos) as [[c|a|]|] eqn:Hlook; try reflexivity.
    apply lookup_lt_Some in Hlook.
    destruct fuel as [|fuel]; [lia|].
    assert (Hincr : incr32 i = i + 1) by (unfold incr32; apply Z.mod_small; lia).
    rewrite Hincr, (IH (S pos) fuel (i + 1)) by lia.
    simpl. destruct (takeRecords n (drop (S pos) file)); reflexivity.
Qed.

Lemma foldRecords_fold_left {A T : Type} (f : T -> A -> T) (records : list A) :
  forall (i : Z) (state : T),
    foldRecords (fun _ record state => f state record) i records state
    = fold_left f records state.
Proof. induction records as [|a records IH]; intros i state; simpl; [reflexivity|apply IH]. Qed.

Lemma foldRecords_handleRelations typeConfig uninit (relations : list RawRelation) :
  forall (r : nat) (restrictions : gmap Id (list Restriction)),
    foldRecords (fun r relation restrictions =>
                   handleRelation typeConfig (uninit (Z.to_nat r)) relation restrictions)
                (Z.of_nat r) relations restrictions
    = handleRelations typeConfig uninit r relations restrictions.
Proof.
  induction relations as [|relation relations IH]; intros r restrictions; simpl;
    [reflexivity|].
  rewrite Nat2Z.id. replace (Z.of_nat r + 1) with (Z.of_nat (S r)) by lia. apply IH.
Qed.

Lemma takeRecords_length {A : Type} (n : nat) :
  forall (slots : list (Slot A)) (records : list A),
    takeRecords n slots = Some records -> length records = n.
Proof.
  induction n as [|n IH]; intros slots records; simpl.
  - intros [= <-]. reflexivity.
  - destruct slots as [|[c|a|] slots]; try discriminate.
    destruct (takeRecords n slots) as [rest|] eqn:Hrest; [|discriminate].
    intros [= <-]. simpl. f_equal. apply (IH slots). exact Hrest.
Qed.

Lemma takeRecords_data {A : Type} (records : list A) (rest : list (Slot A)) :
  takeRecords (length records) (map SlotData records ++ rest) = Some records.
Proof. induction records as [|a records IH]; simpl; [reflexivity|]. rewrite IH. reflexivity. Qed.

Lemma recordsOf_waysFile (ways : list Way) :
  Z.of_nat (length ways) < 2^32 -> recordsOf (Some (waysFile ways)) = Some ways.
Proof.
  intros Hlen. unfold recordsOf, waysFile.
  rewrite Z.mod_small by lia. rewrite Nat2Z.id.
  rewrite <- (app_nil_r (map SlotData ways)). apply takeRecords_data.
Qed.

Lemma recordsOf_count {A : Type} (file : option (list (Slot A))) (records : list A) :
  recordsOf file = Some records ->
  announcedCount file = Some (Z.of_nat (length records)) /\
  Z.of_nat (length records) < 2^32.
Proof.
  destruct file as [[|[n|a|] slots]|]; try discriminate. simpl.
  intros Htake. apply takeRecords_length in Htake. rewrite Htake.
  pose proof (Z.mod_pos_bound n (2^32)). rewrite Z2Nat.id by lia.
  split; [reflexivity|lia].
Qed.

(** When a reader fails, on the result spelled out by [reader_on_file]
    below. *)
Lemma reader_fails_iff {A T : Type} (file : option (list (Slot A))) (f : list A -> T) :
  match recordsOf file with
  | Some records => if Z.of_nat (length records) =? 2^32 - 1 then None else Some (f records)
  | None => None
  end = None
  <-> recordsOf file = None \/ announcedCount file = Some (2^32 - 1).
Proof.
  destruct (recordsOf file) as [records|] eqn:Hfile; [|tauto].
  apply recordsOf_count in Hfile as [-> _].
  destruct (Z.eqb_spec (Z.of_nat (length records)) (2^32 - 1)) as [->|Hne].
  - tauto.
  - split; [discriminate|]. intros [H|H]; [discriminate|]. inversion H. contradiction.
Qed.

(** A reader on its file: what the loop makes of the count and the
    records behind it. *)
Lemma reader_on_file {A T : Type} (body : Z -> A -> T -> T) (file : option (list (Slot A)))
    (state : T) :
  match scanner_Open file with
  | None => None
  | Some scanner =>
      match scanner_Read scanner with
      | (None, _) => None
      | (Some count, scanner) =>
          readRecords body (length (fs_file scanner)) 1 count scanner state
      end
  end
  = match recordsOf file with
    | Some records =>
        if Z.of_nat (length records) =? 2^32 - 1 then None
        else Some (foldRecords body 1 records state)
    | None => None
    end.
Proof.
  destruct file as [[|[n|a|] slots]|]; try reflexivity.
  change (scanner_Open (Some (SlotCount n :: slots)))
    with (Some (mkScanner (SlotCount n :: slots) 0%nat false)).
  cbv beta iota.
  change (scanner_Read (mkScanner (SlotCount n :: slots) 0%nat false))
    with (Some (n mod 2^32), mkScanner (SlotCount n :: slots) 1%nat false).
  change (recordsOf (Some (SlotCount n :: slots)))
    with (takeRecords (Z.to_nat (n mod 2^32)) slots).
  cbv beta iota. cbn [fs_file].
  pose proof (Z.mod_pos_bound n (2^32)) as Hn.
  destruct (Z.eq_dec (n mod 2^32) (2^32 - 1)) as [Hwrap|Hbelow].
  - rewrite Hwrap, readRecords_wraps by lia.
    destruct (takeRecords _ slots) as [records|] eqn:Htake; [|reflexivity].
    apply takeRecords_length in Htake. rewrite Htake, Z2Nat.id by lia.
    rewrite Z.eqb_refl. reflexivity.
  - rewrite (readRecords_reads body (SlotCount n :: slots) (n mod 2^32)
               (Z.to_nat (n mod 2^32)) 1 _ 1) by (cbn [length]; lia).
    change (drop 1 (SlotCount n :: slots)) with (drop 0 slots). rewrite drop_0.
    destruct (takeRecords _ slots) as [records|] eqn:Htake; [|reflexivity].
    apply takeRecords_length in Htake. rewrite Htake, Z2Nat.id by lia.
    destruct (Z.eqb_spec (n mod 2^32) (2^32 - 1)); [contradiction|reflexivity].
Qed.

(** The readers wrap the loop in the same way. *)
Ltac reader_fails Hrun :=
  intros Hrun; destruct (recordsOf _) as [?records|]; [|reflexivity];
  destruct (_ =? _); [reflexivity|discriminate Hrun].

Ltac reader_by Hrun :=
  revert Hrun;
  destruct (scanner_Open _) as [?scanner|]; [|reader_fails Hrun];
  destruct (scanner_Read _) as [[?count|] ?scanner]; [|reader_fails Hrun];
  intros ->; destruct (recordsOf _) as [?records|]; [|reflexivity];
  destruct (_ =? _); [reflexivity|].

Lemma ReadRestrictionRelations_records typeConfig uninit file restrictions :
  ReadRestrictionRelations typeConfig uninit file restrictions
  = match recordsOf file with
    | Some relations =>
        if Z.of_nat (length relations) =? 2^32 - 1 then None
        else Some (handleRelations typeConfig uninit 1 relations restrictions)
    | None => None
    end.
Proof.
  pose proof (reader_on_file
                (fun r relation restrictions =>
                   handleRelation typeConfig (uninit (Z.to_nat r)) relation restrictions)
                file restrictions) as Hrun.
  unfold ReadRestrictionRelations, ReadRestrictionRelations_loop.
  reader_by Hrun.
  rewrite <- (foldRecords_handleRelations typeConfig uninit records 1). reflexivity.
Qed.

Lemma ReadJunctions_records typeConfig file junctions :
  ReadJunctions typeConfig file junctions
  = match recordsOf file with
    | Some ways =>
        if Z.of_nat (length ways) =? 2^32 - 1 then None
        else Some (collectJunctions (fold_left (countWay typeConfig) ways ∅) junctions)
    | None => None
    end.
Proof.
  pose proof (reader_on_file (fun _ way m => countWay typeConfig m way) file ∅) as Hrun.
  unfold ReadJunctions, ReadJunctions_loop.
  reader_by Hrun.
  rewrite foldRecords_fold_left. reflexivity.
Qed.

Lemma ReadWayEndpoints_records typeConfig file junctions endPointWayMap :
  ReadWayEndpoints typeConfig file junctions endPointWayMap
  = match recordsOf file with
    | Some ways =>
        if Z.of_nat (length ways) =? 2^32 - 1 then None
        else Some (fold_left (addWayEndpoints typeConfig junctions) ways endPointWayMap)
    | None => None
    end.
Proof.
  pose proof (reader_on_file
                (fun _ way m => addWayEndpoints typeConfig junctions m way)
                file endPointWayMap) as Hrun.
  unfold ReadWayEndpoints, ReadWayEndpoints_loop.
  reader_by Hrun.
  rewrite foldRecords_fold_left. reflexivity.
Qed.

(** ** [ReadJunctions] *)

Lemma countOf_countNode (m : gmap Id nat) (p : Point) (id : Id) :
  countOf (countNode m p) id
  = (countOf m id + (if (GetId p =? id)%Z then 1 else 0))%nat.
Proof.
  unfold countOf, countNode.
  destruct (Z.eqb_spec (GetId p) id) as [->|Hne].
  - destruct (m !! id) eqn:E; rewrite lookup_insert_eq; simpl; lia.
  - destruct (m !! GetId p); rewrite lookup_insert_ne by done; lia.
Qed.

Lemma countOf_nodes (ns : list Point) (m : gmap Id nat) (id : Id) :
  countOf (fold_left countNode ns m) id = (countOf m id + occurrences id ns)%nat.
Proof.
  revert m. induction ns as [|p ns IH]; intros m; simpl.
  - unfold occurrences. simpl. lia.
  - rewrite IH, countOf_countNode. unfold occurrences. simpl.
    destruct (GetId p =? id); simpl; lia.
Qed.

Lemma skipWay_isRoutable (typeConfig : TypeConfig) (way : Way) :
  skipWay typeConfig way = negb (isRoutable typeConfig way).
Proof.
  unfold skipWay, isRoutable.
  destruct (GetType way =? typeIgnore typeConfig); [reflexivity|].
  destruct (GetIgnore typeConfig (GetType way)); [reflexivity|].
  destruct (CanBeRoute typeConfig (GetType way)); reflexivity.
Qed.

Lemma occurrences_app (id : Id) (l1 l2 : list Point) :
  occurrences id (l1 ++ l2) = (occurrences id l1 + occurrences id l2)%nat.
Proof. unfold occurrences. rewrite List.filter_app, length_app. reflexivity. Qed.

Lemma countOf_ways (typeConfig : TypeConfig) (ways : list Way) (m : gmap Id nat) (id : Id) :
  countOf (fold_left (countWay typeConfig) ways m) id
  = (countOf m id + appearances typeConfig ways id)%nat.
Proof.
  revert m. induction ways as [|w ways IH]; intros m; simpl.
  - unfold appearances, occurrences. simpl. lia.
  - rewrite IH. unfold countWay, appearances. rewrite skipWay_isRoutable. simpl.
    destruct (isRoutable typeConfig w); simpl.
    + rewrite countOf_nodes, occurrences_app. lia.
    + lia.
Qed.

Lemma elem_of_collectJunctions (m : gmap Id nat) (junctions : gset Id) (id : Id) :
  id ∈ collectJunctions m junctions <-> id ∈ junctions \/ (2 <= countOf m id)%nat.
Proof.
  unfold collectJunctions.
  apply (map_fold_weak_ind
           (fun acc m => id ∈ acc <-> id ∈ junctions \/ (2 <= countOf m id)%nat)).
  - unfold countOf. rewrite lookup_empty. simpl. split; [auto|intros [?|?]; [done|lia]].
  - intros i c m' acc Hnone IH. unfold countOf in *.
    destruct (decide (i = id)) as [->|Hne].
    + rewrite lookup_insert_eq. rewrite Hnone in IH.
      destruct (Nat.leb_spec 2 c); simpl in *.
      * rewrite elem_of_union, elem_of_singleton. tauto.
      * rewrite IH. split; intros [?|?]; auto; lia.
    + rewrite lookup_insert_ne by done.
      destruct (2 <=? c)%nat; [|exact IH].
      rewrite elem_of_union, elem_of_singleton, IH. split; [intros [?|?]|]; try tauto.
      congruence.
Qed.

(** C6. On a [ways.dat] holding the ways [ways], fewer than [2^32-1] of
    them, [ReadJunctions] succeeds and emits exactly the node ids that
    appear at least twice over the routable ways, every position counted
    (also two positions of one way); ways of an ignored or non-routable
    type count for nothing. *)
Theorem ReadJunctions_exact (typeConfig : TypeConfig) (ways : list Way) :
  Z.of_nat (length ways) < 2^32 - 1 ->
  exists junctions,
    ReadJunctions typeConfig (Some (waysFile ways)) ∅ = Some junctions /\
    forall id, id ∈ junctions <-> (2 <= appearances typeConfig ways id)%nat.
Proof.
  intros Hlen.
  exists (collectJunctions (fold_left (countWay typeConfig) ways ∅) ∅). split.
  - rewrite ReadJunctions_records, recordsOf_waysFile by lia.
    destruct (Z.eqb_spec (Z.of_nat (length ways)) (2^32 - 1)); [lia|reflexivity].
  - intros id. rewrite elem_of_collectJunctions, countOf_ways.
    unfold countOf. rewrite lookup_empty. simpl.
    split; [intros [H|H]; [set_solver|exact H]|auto].
Qed.

(** The lollipop alone: node 5 occurs twice in it and nowhere else, and is a
    junction; the footpath is not routable and adds nothing. *)
Lemma ReadJunctions_exact_witness :
  exists junctions,
    ReadJunctions Ex.typeConfig (Some (waysFile [Ex.lollipop; Ex.footpath])) ∅ = Some junctions /\
    5 ∈ junctions /\ 1 ∉ junctions.
Proof.
  destruct (ReadJunctions_exact Ex.typeConfig [Ex.lollipop; Ex.footpath])
    as [junctions [Hrun Hiff]].
  - reflexivity.
  - exists junctions. split; [exact Hrun|]. split.
    + apply Hiff. vm_compute. lia.
    + rewrite Hiff. vm_compute. lia.
Defined.

(** ** [ReadWayEndpoints] *)




(** The first phases on the triangle ways: the junctions and the node way
    map of the examples. *)
Lemma triangle_junctions_and_endpoints :
  ReadJunctions Ex.typeConfig (Some (waysFile Ex.triangleWays)) ∅ = Some {[ 1; 2; 3 ]} /\
  ReadWayEndpoints Ex.typeConfig (Some (waysFile Ex.triangleWays)) {[ 1; 2; 3 ]} ∅
  = Some Ex.triangleMap.
Proof. split; vm_compute; reflexivity. Qed.

(** ** [LoadWays] *)

Lemma scanner_SetPos_true {A : Type} (pos : FileOffset) (sc sc' : FileScanner A) :
  scanner_SetPos pos sc = (true, sc') ->
  fs_hasError sc = false /\ sc' = mkScanner (fs_file sc) pos false.
Proof.
  unfold scanner_SetPos. destruct (fs_hasError sc); [discriminate|].
  destruct (length (fs_file sc) <? pos)%nat; [discriminate|].
  intros H. inversion H. auto.
Qed.

Lemma record_Read_Some {A : Type} (sc sc' : FileScanner A) (a : A) :
  record_Read sc = (Some a, sc') ->
  fs_hasError sc = false /\ sc' = mkScanner (fs_file sc) (S (fs_pos sc)) false.
Proof.
  unfold record_Read. destruct (fs_hasError sc); [discriminate|].
  destruct (fs_file sc !! fs_pos sc) as [[n|a'|]|]; try discriminate.
  intros H. inversion H. auto.
Qed.

Lemma LoadWays_loop_true (offsets : list FileOffset) (sc sc' : FileScanner Way)
    (ways ways' : list Way) :
  LoadWays_loop offsets sc ways = (true, sc', ways') ->
  fs_file sc' = fs_file sc /\ fs_hasError sc' = fs_hasError sc.
Proof.
  revert sc ways. induction offsets as [|offset rest IH]; intros sc ways; simpl.
  - intros H. inversion H. auto.
  - destruct (scanner_SetPos offset sc) as [[] sc1] eqn:Hset; [|discriminate].
    apply scanner_SetPos_true in Hset as [Herr ->].
    destruct (record_Read _) as [[way|] sc2] eqn:Hread; [|discriminate].
    apply record_Read_Some in Hread as [_ ->]. simpl.
    intros H. apply IH in H as [Hfile Hflag]. simpl in *.
    rewrite Hfile, Hflag, Herr. auto.
Qed.





(** ** Route node construction *)

Lemma StronglySorted_filter {T : Type} (R : relation T) (f : T -> bool) (l : list T) :
  StronglySorted R l -> StronglySorted R (List.filter f l).
Proof.
  induction 1 as [|x l Hsorted IH Hall]; simpl; [constructor|].
  destruct (f x); [|exact IH]. constructor; [exact IH|].
  rewrite Forall_forall in *. intros y Hy.
  apply list_elem_of_In, List.filter_In in Hy as [Hy _].
  apply Hall, list_elem_of_In, Hy.
Qed.

Lemma StronglySorted_lookup (l : list Z) (i j : nat) (a b : Z) :
  StronglySorted Z.le l -> (i < j)%nat ->
  l !! i = Some a -> l !! j = Some b -> a <= b.
Proof.
  intros Hsorted. revert i j.
  induction Hsorted as [|x l Hsorted IH Hall]; intros i j Hij Hi Hj; [discriminate|].
  destruct j as [|j]; [lia|]. simpl in Hj.
  destruct i as [|i]; simpl in Hi.
  - inversion Hi. subst. rewrite Forall_forall in Hall.
    apply Hall. eapply list_elem_of_lookup_2. exact Hj.
  - apply (IH i j); [lia|exact Hi|exact Hj].
Qed.

Lemma NoDup_keys_mapEntries (nodeWayMap : gmap Id (list Id)) :
  NoDup (map fst (mapEntries nodeWayMap)).
Proof.
  unfold mapEntries. rewrite map_map. simpl. rewrite map_id.
  rewrite (merge_sort_Permutation Z.le _). apply NoDup_elements.
Qed.

Lemma blockOf_lookup (blockSize : nat) (entries : list (Id * list Id)) (k : nat)
    (node : Id * list Id) :
  node ∈ blockOf blockSize entries k ->
  exists i, entries !! i = Some node /\ (k * blockSize <= i < k * blockSize + blockSize)%nat.
Proof.
  unfold blockOf. intros Hin. apply elem_of_take in Hin as (i & Hi & Hlt).
  rewrite lookup_drop in Hi. exists (k * blockSize + i)%nat. split; [exact Hi|lia].
Qed.

(** *** Excludes *)

Lemma pathLeavesBy_true (ways : list Id) (dst : Id) (path : Path) :
  pathLeavesBy ways dst path = true <-> wayOfPath ways path = Some dst.
Proof.
  unfold pathLeavesBy, wayOfPath. destruct (ways !! wayIndex path) as [wayId|].
  - rewrite Z.eqb_eq. split; congruence.
  - split; discriminate.
Qed.

Lemma findTargetPath_first (ways : list Id) (paths : list Path) (dst : Id) (k : nat) :
  exists n,
    findTargetPath ways paths dst k = (k + n)%nat /\ (n <= length paths)%nat /\
    (forall path, paths !! n = Some path -> wayOfPath ways path = Some dst) /\
    (forall i path, (i < n)%nat -> paths !! i = Some path -> wayOfPath ways path <> Some dst).
Proof.
  revert k. induction paths as [|p paths IH]; intros k; simpl.
  - exists 0%nat. split; [lia|]. split; [lia|]. split; [discriminate|intros; lia].
  - destruct (pathLeavesBy ways dst p) eqn:Hp.
    + exists 0%nat. split; [lia|]. split; [lia|]. split; [|intros; lia].
      intros path H. inversion H. subst. apply pathLeavesBy_true, Hp.
    + destruct (IH (S k)) as (n & Heq & Hlen & Hhit & Hmiss).
      exists (S n). split; [lia|]. split; [lia|]. split; [exact Hhit|].
      intros [|i] path Hi Hlook; simpl in Hlook.
      * inversion Hlook. subst. rewrite <- pathLeavesBy_true, Hp. discriminate.
      * apply (Hmiss i); [lia|exact Hlook].
Qed.

Lemma findTargetPath_firstPathBy (ways : list Id) (paths : list Path) (dst : Id) :
  (findTargetPath ways paths dst 0 < length paths)%nat ->
  firstPathBy ways paths dst (findTargetPath ways paths dst 0).
Proof.
  destruct (findTargetPath_first ways paths dst 0) as (n & -> & Hlen & Hhit & Hmiss).
  simpl. intros Hlt. split; [|exact Hmiss].
  destruct (paths !! n) as [path|] eqn:Hn.
  - exists path. auto.
  - apply lookup_ge_None in Hn. lia.
Qed.

Lemma findTargetPath_none (ways : list Id) (paths : list Path) (dst : Id) :
  (forall path, path ∈ paths -> wayOfPath ways path <> Some dst) ->
  findTargetPath ways paths dst 0 = length paths.
Proof.
  intros Hnone.
  destruct (findTargetPath_first ways paths dst 0) as (n & -> & Hlen & Hhit & _). simpl.
  destruct (paths !! n) as [path|] eqn:Hn.
  - exfalso. apply (Hnone path); [eapply list_elem_of_lookup_2; exact Hn|auto].
  - apply lookup_ge_None in Hn. lia.
Qed.

Lemma excludeTurn_elem turnConstraints ways paths src dst excludes e :
  e ∈ excludeTurn turnConstraints ways paths src dst excludes ->
  e ∈ excludes \/ DeniedTurn turnConstraints ways paths src dst e.
Proof.
  unfold excludeTurn, DeniedTurn.
  destruct (Z.eqb_spec src dst); simpl; [auto|].
  destruct (CanTurn turnConstraints src dst) eqn:Hturn; simpl; [auto|].
  destruct (Nat.ltb_spec (findTargetPath ways paths dst 0) (length paths)); [|auto].
  rewrite elem_of_app, list_elem_of_singleton. intros [Hin| ->]; auto.
Qed.

Lemma resolveExcludes_elem turnConstraints wayIds ways paths e :
  e ∈ resolveExcludes turnConstraints wayIds ways paths ->
  exists src dst,
    src ∈ wayIds /\ dst ∈ wayIds /\ DeniedTurn turnConstraints ways paths src dst e.
Proof.
  unfold resolveExcludes.
  assert (Hinner : forall src dsts excludes,
    e ∈ fold_left (fun excludes dst => excludeTurn turnConstraints ways paths src dst excludes)
                  dsts excludes ->
    e ∈ excludes \/ exists dst, dst ∈ dsts /\ DeniedTurn turnConstraints ways paths src dst e).
  { intros src dsts. induction dsts as [|dst dsts IH]; intros excludes; simpl; [auto|].
    intros H. apply IH in H as [H|(dst' & Hin & Hd)].
    - apply excludeTurn_elem in H as [H|H]; [auto|].
      right. exists dst. split; [left|exact H].
    - right. exists dst'. split; [right; exact Hin|exact Hd]. }
  assert (Houter : forall srcs excludes,
    e ∈ fold_left
          (fun excludes src =>
             fold_left (fun excludes dst =>
                          excludeTurn turnConstraints ways paths src dst excludes)
                       wayIds excludes)
          srcs excludes ->
    e ∈ excludes \/
    exists src dst, src ∈ srcs /\ dst ∈ wayIds /\
                    DeniedTurn turnConstraints ways paths src dst e).
  { induction srcs as [|src srcs IH]; intros excludes; simpl; [auto|].
    intros H. apply IH in H as [H|(src' & dst & Hs & Hd & Hden)].
    - apply Hinner in H as [H|(dst & Hd & Hden)]; [auto|].
      right. exists src, dst. split; [left|auto].
    - right. exists src', dst. split; [right; exact Hs|auto]. }
  intros H. apply Houter in H as [H|H]; [|exact H].
  apply elem_of_nil in H. contradiction.
Qed.

Section BuilderProperties.
Variable dist : float -> float -> float -> float -> float.
Variable accessBit : Z.
Variable medium : Medium.

(** *** The loops that are given fuel *)

Lemma walkRing_exits (step : Z -> Z -> Z) (gap : Z -> Z) (nodeWayMap : gmap Id (list Id))
    (ns : list Point) (d : Point) (currentNode : Z) :
  (forall i, 0 <= i < Z.of_nat (length ns) -> i <> currentNode ->
             0 <= step (Z.of_nat (length ns)) i < Z.of_nat (length ns) /\
             gap (step (Z.of_nat (length ns)) i) < gap i) ->
  (forall i, 0 <= i < Z.of_nat (length ns) -> 0 <= gap i) ->
  forall (fuel : nat) (index : Z) (acc : float),
    0 <= index < Z.of_nat (length ns) ->
    gap index < Z.of_nat fuel ->
    0 <= fst (walkRing dist fuel step nodeWayMap ns d currentNode index acc)
      < Z.of_nat (length ns) /\
    (fst (walkRing dist fuel step nodeWayMap ns d currentNode index acc) = currentNode \/
     isRouteNode nodeWayMap
       (GetId (nodeAt ns d (fst (walkRing dist fuel step nodeWayMap ns d currentNode index acc))))
     = true).
Proof.
  intros Hstep Hgap fuel. induction fuel as [|fuel IH]; intros index acc Hindex Hfuel.
  - specialize (Hgap index Hindex). lia.
  - simpl. destruct (Z.eqb_spec index currentNode) as [->|Hne]; simpl; [auto|].
    destruct (isRouteNode nodeWayMap (GetId (nodeAt ns d index))) eqn:Hjunction; simpl;
      [auto|].
    destruct (Hstep index Hindex Hne) as [Hrange Hless].
    apply IH; [exact Hrange|lia].
Qed.

(** In [ringRouting] the walks are given [length ns] iterations, which is
    enough: each stops at [currentNode] or at a junction, inside the
    vector. *)
Lemma walkRing_next_exits (nodeWayMap : gmap Id (list Id)) (ns : list Point) (d : Point)
    (currentNode : Z) (acc : float) :
  0 <= currentNode < Z.of_nat (length ns) ->
  0 <= fst (walkRing dist (length ns) stepNext nodeWayMap ns d currentNode
              (stepNext (Z.of_nat (length ns)) currentNode) acc) < Z.of_nat (length ns) /\
  (fst (walkRing dist (length ns) stepNext nodeWayMap ns d currentNode
          (stepNext (Z.of_nat (length ns)) currentNode) acc) = currentNode \/
   isRouteNode nodeWayMap
     (GetId (nodeAt ns d
        (fst (walkRing dist (length ns) stepNext nodeWayMap ns d currentNode
                (stepNext (Z.of_nat (length ns)) currentNode) acc)))) = true).
Proof.
  intros Hcur.
  apply (walkRing_exits stepNext (gapNext (Z.of_nat (length ns)) currentNode)).
  - intros i Hi Hne. unfold stepNext, gapNext.
    destruct (Z.geb_spec (i + 1) (Z.of_nat (length ns)));
      destruct (Z.leb_spec i currentNode); destruct (Z.leb_spec 0 currentNode);
      destruct (Z.leb_spec (i + 1) currentNode); lia.
  - intros i Hi. unfold gapNext. destruct (Z.leb_spec i currentNode); lia.
  - unfold stepNext. destruct (Z.geb_spec (currentNode + 1) (Z.of_nat (length ns))); lia.
  - unfold stepNext, gapNext.
    destruct (Z.geb_spec (currentNode + 1) (Z.of_nat (length ns)));
      destruct (Z.leb_spec 0 currentNode); destruct (Z.leb_spec (currentNode + 1) currentNode);
      lia.
Qed.

Lemma walkRing_prev_exits (nodeWayMap : gmap Id (list Id)) (ns : list Point) (d : Point)
    (currentNode : Z) (acc : float) :
  0 <= currentNode < Z.of_nat (length ns) ->
  0 <= fst (walkRing dist (length ns) stepPrev nodeWayMap ns d currentNode
              (stepPrev (Z.of_nat (length ns)) currentNode) acc) < Z.of_nat (length ns) /\
  (fst (walkRing dist (length ns) stepPrev nodeWayMap ns d currentNode
          (stepPrev (Z.of_nat (length ns)) currentNode) acc) = currentNode \/
   isRouteNode nodeWayMap
     (GetId (nodeAt ns d
        (fst (walkRing dist (length ns) stepPrev nodeWayMap ns d currentNode
                (stepPrev (Z.of_nat (length ns)) currentNode) acc)))) = true).
Proof.
  intros Hcur.
  apply (walkRing_exits stepPrev (gapPrev (Z.of_nat (length ns)) currentNode)).
  - intros i Hi Hne. unfold stepPrev, gapPrev.
    destruct (Z.ltb_spec (i - 1) 0);
      destruct (Z.leb_spec currentNode i);
      destruct (Z.leb_spec currentNode (Z.of_nat (length ns) - 1));
      destruct (Z.leb_spec currentNode (i - 1)); lia.
  - intros i Hi. unfold gapPrev. destruct (Z.leb_spec currentNode i); lia.
  - unfold stepPrev. destruct (Z.ltb_spec (currentNode - 1) 0); lia.
  - unfold stepPrev, gapPrev.
    destruct (Z.ltb_spec (currentNode - 1) 0);
      destruct (Z.leb_spec currentNode (Z.of_nat (length ns) - 1));
      destruct (Z.leb_spec currentNode (currentNode - 1)); lia.
Qed.


Lemma storeRouteNodes_status restrictions nodeWayMap waysMap block st :
  fst (storeRouteNodes dist accessBit medium restrictions nodeWayMap waysMap block st)
  <> NoTermination.
Proof.
  revert st. induction block as [|node rest IH]; intros st; simpl; [discriminate|].
  destruct (buildRouteNode _ _ _ _ _ node); [|discriminate].
  destruct (RouteNode_Write _ _ _) as [[] writer]; [apply IH|discriminate].
Qed.

Lemma processBlock_status restrictions nodeWayMap wayIdx block st :
  fst (processBlock dist accessBit medium restrictions nodeWayMap wayIdx block st)
  <> NoTermination.
Proof.
  unfold processBlock. case_bool_decide; [discriminate|].
  destruct (LoadWays _ _ _ _) as [[[] scanner] ways]; [|discriminate].
  apply storeRouteNodes_status.
Qed.

(** With a block size of at least 1 the block loop ends within as many
    iterations as the map has entries. *)
Lemma Import_loop_terminates fuel restrictions nodeWayMap wayIdx blockSize entries st :
  (0 < blockSize)%nat -> (length entries <= fuel)%nat ->
  fst (Import_loop dist accessBit medium fuel restrictions nodeWayMap wayIdx blockSize entries st)
  <> NoTermination.
Proof.
  intros Hsize. revert entries st.
  induction fuel as [|fuel IH]; intros entries st Hfuel.
  - destruct entries; [discriminate|simpl in Hfuel; lia].
  - destruct entries as [|e entries'] eqn:He; [discriminate|]. rewrite <- He in *.
    replace (Import_loop dist accessBit medium (S fuel) restrictions nodeWayMap wayIdx blockSize
               entries st)
      with (match processBlock dist accessBit medium restrictions nodeWayMap wayIdx
                    (take blockSize entries) st with
            | (Ok, st1) => Import_loop dist accessBit medium fuel restrictions nodeWayMap wayIdx
                             blockSize (drop blockSize entries) st1
            | other => other
            end) by (rewrite He; reflexivity).
    pose proof (processBlock_status restrictions nodeWayMap wayIdx (take blockSize entries) st)
      as Hblock.
    destruct (processBlock _ _ _ _ _ _ _) as [[] st1]; simpl in Hblock; try discriminate;
      try contradiction.
    apply IH. rewrite length_drop. rewrite He in *. simpl in *. lia.
Qed.

(** With a block size of 0 and a junction to handle it never ends. *)
Lemma Import_loop_block_size_zero fuel restrictions nodeWayMap wayIdx entries st :
  entries <> [] ->
  Import_loop dist accessBit medium fuel restrictions nodeWayMap wayIdx 0 entries st
  = (NoTermination, st).
Proof.
  intros Hne. induction fuel as [|fuel IH]; destruct entries; try contradiction;
    [reflexivity|].
  simpl in *. exact IH.
Qed.

(** *** Paths carry the index of their way *)

Lemma ringRouting_wayIndex nodeWayMap nodeId way index backward ps :
  ringRouting dist accessBit nodeWayMap nodeId way index backward = Some ps ->
  Forall (fun p => wayIndex p = index) ps.
Proof.
  unfold ringRouting.
  destruct (nodes way !! _) as [cur|]; [|discriminate].
  destruct (walkRing _ _ _ _ _ _ _ _ _) as [nextNode d1].
  destruct backward.
  - destruct (walkRing _ _ _ _ _ _ _ _ _) as [prevNode d2].
    intros H. inversion H. clear H.
    destruct (negb (nextNode =? _)); destruct (negb (prevNode =? _) && _);
      simpl; repeat constructor.
  - intros H. inversion H. clear H.
    destruct (negb (nextNode =? _)); simpl; repeat constructor.
Qed.

Lemma normalRoutingAt_wayIndex nodeWayMap nodeId way index d i :
  Forall (fun p => wayIndex p = index)
         (normalRoutingAt dist accessBit nodeWayMap nodeId way index d i).
Proof.
  unfold normalRoutingAt.
  destruct (GetId _ =? nodeId); [|constructor].
  apply Forall_app. split.
  - destruct i; [constructor|]. destruct (negb _); [|constructor].
    destruct (searchBackward _ _ _ _); repeat constructor.
  - destruct (_ <? _)%nat; [|constructor].
    destruct (searchForward _ _ _ _ _); repeat constructor.
Qed.

Lemma routeWay_wayIndex nodeWayMap nodeId way index ps :
  routeWay dist accessBit nodeWayMap nodeId way index = Some ps ->
  Forall (fun p => wayIndex p = index) ps.
Proof.
  unfold routeWay. destruct (IsArea way); [apply ringRouting_wayIndex|].
  destruct (nodes way) as [|front rest] eqn:Hnodes; [discriminate|].
  destruct (GetId front =? _); [apply ringRouting_wayIndex|].
  intros H. inversion H. clear H. unfold normalRouting.
  apply Forall_flat_map, Forall_forall. intros i _.
  apply normalRoutingAt_wayIndex.
Qed.

(** *** [routeNode.ways] and the indices into it *)

Lemma buildPaths_ways nodeWayMap waysMap nodeId wayIds ways paths ways' paths' :
  buildPaths dist accessBit nodeWayMap waysMap nodeId wayIds ways paths = Some (ways', paths') ->
  ways' = ways ++ List.filter (isLoaded waysMap) wayIds /\
  (Forall (fun p => (wayIndex p < length ways)%nat) paths ->
   Forall (fun p => (wayIndex p < length ways')%nat) paths').
Proof.
  revert ways paths. induction wayIds as [|wayId rest IH]; intros ways paths; simpl.
  - intros H. inversion H. subst. rewrite app_nil_r. auto.
  - unfold isLoaded at 1. destruct (waysMap !! wayId) as [way|] eqn:Hway.
    + destruct (routeWay _ _ _ _ _ _) as [ps|] eqn:Hroute; [|discriminate].
      intros H. apply IH in H as [Hways Hidx]. split.
      * rewrite Hways, <- app_assoc. reflexivity.
      * intros Hpaths. apply Hidx. apply Forall_app. split.
        -- eapply Forall_impl; [exact Hpaths|]. intros p Hp. simpl in Hp.
           rewrite length_app. simpl. lia.
        -- apply routeWay_wayIndex in Hroute.
           eapply Forall_impl; [exact Hroute|]. intros p Hp. simpl in Hp.
           rewrite Hp, length_app. simpl. lia.
    + apply IH.
Qed.

Lemma buildRouteNode_inv restrictions nodeWayMap waysMap node rn :
  buildRouteNode dist accessBit restrictions nodeWayMap waysMap node = Some rn ->
  rn_id rn = fst node /\
  rn_ways rn = List.filter (isLoaded waysMap) (merge_sort Z.le (snd node)) /\
  Forall (fun p => (wayIndex p < length (rn_ways rn))%nat) (rn_paths rn) /\
  rn_excludes rn
  = match restrictions !! fst node with
    | Some turnConstraints =>
        resolveExcludes turnConstraints (merge_sort Z.le (snd node)) (rn_ways rn) (rn_paths rn)
    | None => []
    end.
Proof.
  unfold buildRouteNode.
  destruct (buildPaths _ _ _ _ _ _ _ _) as [[ways paths]|] eqn:Hbuild; [|discriminate].
  intros H. inversion H. subst. clear H. simpl.
  apply buildPaths_ways in Hbuild as [Hways Hidx]. simpl in Hways.
  repeat split; auto.
Qed.

(** *** The paths of one listing of a way *)

Lemma pathsOfListing_app (k : nat) (l1 l2 : list Path) :
  pathsOfListing k (l1 ++ l2) = pathsOfListing k l1 ++ pathsOfListing k l2.
Proof. apply List.filter_app. Qed.

Lemma pathsOfListing_other (k : nat) (l : list Path) :
  Forall (fun p => wayIndex p <> k) l -> pathsOfListing k l = [].
Proof.
  induction 1 as [|p l Hp Hl IH]; [reflexivity|]. unfold pathsOfListing in *. simpl.
  destruct (Nat.eqb_spec (wayIndex p) k); [contradiction|exact IH].
Qed.

Lemma pathsOfListing_same (k : nat) (l : list Path) :
  Forall (fun p => wayIndex p = k) l -> pathsOfListing k l = l.
Proof.
  induction 1 as [|p l Hp Hl IH]; [reflexivity|]. unfold pathsOfListing in *. simpl.
  destruct (Nat.eqb_spec (wayIndex p) k); [|contradiction]. rewrite IH. reflexivity.
Qed.

Lemma buildPaths_new nodeWayMap waysMap nodeId wayIds ways paths ways' paths' :
  buildPaths dist accessBit nodeWayMap waysMap nodeId wayIds ways paths = Some (ways', paths') ->
  exists new,
    paths' = paths ++ new /\ Forall (fun p => (length ways <= wayIndex p)%nat) new.
Proof.
  revert ways paths. induction wayIds as [|wayId rest IH]; intros ways paths; simpl.
  - intros H. inversion H. subst. exists []. rewrite app_nil_r. auto.
  - destruct (waysMap !! wayId) as [way|]; [|apply IH].
    destruct (routeWay _ _ _ _ _ _) as [ps|] eqn:Hroute; [|discriminate].
    intros H. apply IH in H as (new & -> & Hnew).
    exists (ps ++ new). rewrite app_assoc. split; [reflexivity|].
    apply routeWay_wayIndex in Hroute.
    apply Forall_app. split.
    + eapply Forall_impl; [exact Hroute|]. intros p Hp. simpl in Hp.
      rewrite Hp, length_app. simpl. lia.
    + eapply Forall_impl; [exact Hnew|]. intros p Hp. simpl in Hp.
      rewrite length_app in Hp. simpl in Hp. lia.
Qed.

(** The paths that carry index [k] are those [routeWay] made for the way
    at [ways[k]]. *)
Lemma buildPaths_listing nodeWayMap waysMap nodeId wayIds ways paths ways' paths' k W :
  buildPaths dist accessBit nodeWayMap waysMap nodeId wayIds ways paths = Some (ways', paths') ->
  Forall (fun p => (wayIndex p < length ways)%nat) paths ->
  (length ways <= k)%nat -> ways' !! k = Some W ->
  exists way,
    waysMap !! W = Some way /\
    routeWay dist accessBit nodeWayMap nodeId way k = Some (pathsOfListing k paths').
Proof.
  revert ways paths. induction wayIds as [|wayId rest IH]; intros ways paths; simpl.
  - intros H _ Hk Hlook. inversion H. subst.
    apply lookup_lt_Some in Hlook. lia.
  - destruct (waysMap !! wayId) as [way|] eqn:Hway; [|apply IH].
    destruct (routeWay _ _ _ _ _ _) as [ps|] eqn:Hroute; [|discriminate].
    intros H Hpaths Hk Hlook.
    assert (Hindex : (length (ways ++ [wayId]) - 1 = length ways)%nat)
      by (rewrite length_app; simpl; lia).
    rewrite Hindex in Hroute.
    pose proof (routeWay_wayIndex _ _ _ _ _ Hroute) as Hps.
    destruct (decide (k = length ways)) as [->|Hne].
    + pose proof (buildPaths_ways _ _ _ _ _ _ _ _ H) as [Hways _].
      pose proof (buildPaths_new _ _ _ _ _ _ _ _ H) as (new & -> & Hnew).
      rewrite Hways, <- app_assoc in Hlook. cbn [app] in Hlook.
      rewrite list_lookup_middle in Hlook by reflexivity.
      inversion Hlook. subst W. exists way. split; [exact Hway|].
      rewrite !pathsOfListing_app.
      rewrite (pathsOfListing_other _ paths), (pathsOfListing_same _ ps),
              (pathsOfListing_other _ new).
      * rewrite app_nil_r. exact Hroute.
      * eapply Forall_impl; [exact Hnew|]. intros p Hp. simpl in Hp.
        rewrite length_app in Hp. simpl in Hp. lia.
      * exact Hps.
      * eapply Forall_impl; [exact Hpaths|]. intros p Hp. simpl in Hp. lia.
    + apply (IH _ _ H); [|rewrite length_app; simpl; lia|exact Hlook].
      apply Forall_app. split.
      * eapply Forall_impl; [exact Hpaths|]. intros p Hp. simpl in Hp.
        rewrite length_app. simpl. lia.
      * eapply Forall_impl; [exact Hps|]. intros p Hp. simpl in Hp.
        rewrite Hp, length_app. simpl. lia.
Qed.

Lemma buildRouteNode_listing restrictions nodeWayMap waysMap node rn k W :
  buildRouteNode dist accessBit restrictions nodeWayMap waysMap node = Some rn ->
  rn_ways rn !! k = Some W ->
  exists way,
    waysMap !! W = Some way /\
    routeWay dist accessBit nodeWayMap (fst node) way k
    = Some (pathsOfListing k (rn_paths rn)).
Proof.
  unfold buildRouteNode.
  destruct (buildPaths _ _ _ _ _ _ _ _) as [[ways paths]|] eqn:Hbuild; [|discriminate].
  intros H. inversion H. subst. clear H. simpl. intros Hlook.
  apply (buildPaths_listing _ _ _ _ _ _ _ _ _ _ Hbuild); [constructor|simpl; lia|exact Hlook].
Qed.

(** The ring walk on an area way whose nodes are [J1, J2, J3, J1]. *)
Lemma routeWay_triangle nodeWayMap way index (J1 J2 J3 : Id) :
  IsArea way = true ->
  map GetId (nodes way) = [J1; J2; J3; J1] ->
  J1 <> J2 -> J2 <> J3 -> J1 <> J3 ->
  isRouteNode nodeWayMap J1 = true ->
  isRouteNode nodeWayMap J2 = true ->
  isRouteNode nodeWayMap J3 = true ->
  option_map (map path_id) (routeWay dist accessBit nodeWayMap J2 way index) = Some [J3; J1] /\
  option_map (map path_id) (routeWay dist accessBit nodeWayMap J3 way index) = Some [J1; J2] /\
  exists p q, routeWay dist accessBit nodeWayMap J1 way index = Some [p; q] /\ path_id p = J2.
Proof.
  intros Harea Hids H12 H23 H13 Hj1 Hj2 Hj3.
  destruct (nodes way) as [|[i1 la1 lo1] [|[i2 la2 lo2] [|[i3 la3 lo3] [|[i4 la4 lo4] [|]]]]]
    eqn:Hnodes; try discriminate.
  simpl in Hids. inversion Hids. subst. clear Hids.
  assert (E12 : (J1 =? J2) = false) by (apply Z.eqb_neq; exact H12).
  assert (E23 : (J2 =? J3) = false) by (apply Z.eqb_neq; exact H23).
  assert (E13 : (J1 =? J3) = false) by (apply Z.eqb_neq; exact H13).
  assert (E21 : (J2 =? J1) = false) by (apply Z.eqb_neq; congruence).
  unfold routeWay, ringRouting. rewrite Harea, Hnodes.
  cbn [findCurrentNode GetId length]. rewrite ?Z.eqb_refl, ?E12, ?E13, ?E21, ?E23.
  cbv -[isRouteNode segment makePath PrimFloat.add].
  rewrite ?Hj1, ?Hj2, ?Hj3.
  cbv -[isRouteNode segment makePath PrimFloat.add].
  split; [reflexivity|]. split; [reflexivity|].
  do 2 eexists. split; reflexivity.
Qed.

(** *** What the block loop writes *)

Lemma routeNodesOf_records (v : Z) (rns : list RouteNode) :
  routeNodesOf (ItemU32 v :: map ItemRouteNode rns) = rns.
Proof.
  unfold routeNodesOf. simpl. induction rns as [|rn rns IH]; simpl; congruence.
Qed.

Lemma Written_start (scanner : FileScanner Way) :
  Written (mkBuildState scanner (writer_Write 0 writer_Open) 0 0 0) [].
Proof. repeat split. Qed.

(** [RouteNode::Write] appends the record, or fails and writes nothing. *)
Lemma RouteNode_Write_cases (rn : RouteNode) (writer : FileWriter) :
  RouteNode_Write medium rn writer = (true, writer_put (ItemRouteNode rn) writer) \/
  RouteNode_Write medium rn writer = (false, writer).
Proof.
  unfold RouteNode_Write. destruct (room medium) as [n|]; [|auto].
  destruct (_ <? _)%nat; auto.
Qed.

Lemma Written_put (st : BuildState) (rns : list RouteNode) (rn : RouteNode) handled paths :
  Written st rns ->
  Written (mkBuildState (bs_scanner st) (writer_put (ItemRouteNode rn) (bs_writer st)) handled
                        (incr32 (writtenRouteNodeCount st)) paths)
          (rns ++ [rn]).
Proof.
  intros (Hitems & Hpos & Hcount). unfold Written, writer_put. simpl.
  rewrite Hitems, Hpos. simpl. rewrite length_map, Nat.ltb_irrefl. simpl.
  rewrite map_app, length_app. simpl. repeat split.
  - f_equal. lia.
  - unfold incr32. rewrite Hcount, Zplus_mod_idemp_l. f_equal. lia.
Qed.

(** The step that writes nothing: the run [H] ends where it started. *)
Ltac nothing_written H Hw :=
  inversion H; subst; exists []; rewrite app_nil_r;
  split; [exact Hw|]; split; [simpl; lia|constructor].

Lemma storeRouteNodes_Written restrictions nodeWayMap waysMap block st rns status st' :
  storeRouteNodes dist accessBit medium restrictions nodeWayMap waysMap block st = (status, st') ->
  Written st rns ->
  exists new,
    Written st' (rns ++ new) /\
    (length new <= length block)%nat /\
    Forall (fun rn => exists node, node ∈ block /\
              buildRouteNode dist accessBit restrictions nodeWayMap waysMap node = Some rn)
           new.
Proof.
  revert st rns. induction block as [|node rest IH]; intros st rns; simpl.
  - intros H Hw. nothing_written H Hw.
  - destruct (buildRouteNode _ _ _ _ _ node) as [rn|] eqn:Hbuild.
    + destruct (RouteNode_Write_cases rn (bs_writer st)) as [Hwrite|Hwrite];
        rewrite Hwrite; intros H Hw; [|nothing_written H Hw].
      apply IH with (rns := rns ++ [rn]) in H.
      2:{ apply Written_put. exact Hw. }
      destruct H as (new & Hw' & Hlen & Hall).
      exists (rn :: new). rewrite <- app_assoc in Hw'. simpl in *.
      split; [exact Hw'|]. split; [lia|].
      constructor.
      * exists node. split; [left|exact Hbuild].
      * eapply Forall_impl; [exact Hall|]. intros rn' (node' & Hin & Hb).
        exists node'. split; [right; exact Hin|exact Hb].
    + intros H Hw. nothing_written H Hw.
Qed.

Lemma processBlock_Written restrictions nodeWayMap wayIndex block st rns status st' :
  processBlock dist accessBit medium restrictions nodeWayMap wayIndex block st = (status, st') ->
  Written st rns ->
  exists new,
    Written st' (rns ++ new) /\
    (length new <= length block)%nat /\
    Forall (fun rn => collectWayIds block <> ∅ /\
                      Built dist accessBit restrictions nodeWayMap block rn) new.
Proof.
  unfold processBlock. case_bool_decide as Hempty.
  - intros H Hw. nothing_written H Hw.
  - destruct (LoadWays _ _ _ _) as [[[] scanner] ways].
    + intros H Hw. apply storeRouteNodes_Written with (rns := rns) in H; [|exact Hw].
      destruct H as (new & Hw' & Hlen & Hall). exists new.
      split; [exact Hw'|]. split; [exact Hlen|].
      eapply Forall_impl; [exact Hall|]. intros rn (node & Hin & Hb).
      split; [exact Hempty|]. exists (makeWaysMap ways), node. auto.
    + intros H Hw. nothing_written H Hw.
Qed.

Lemma blockOf_drop (blockSize : nat) (entries : list (Id * list Id)) (k : nat) :
  blockOf blockSize (drop blockSize entries) k = blockOf blockSize entries (S k).
Proof. unfold blockOf. rewrite drop_drop. reflexivity. Qed.

Lemma Import_loop_Written fuel restrictions nodeWayMap wayIndex blockSize entries st rns
    status st' :
  Import_loop dist accessBit medium fuel restrictions nodeWayMap wayIndex blockSize entries st
  = (status, st') ->
  Written st rns ->
  exists new,
    Written st' (rns ++ new) /\
    (length new <= length entries)%nat /\
    Forall (EmittedFrom dist accessBit restrictions nodeWayMap blockSize entries) new.
Proof.
  revert entries st rns. induction fuel as [|fuel IH]; intros entries st rns.
  - destruct entries; simpl; intros H Hw; nothing_written H Hw.
  - destruct entries as [|e entries'] eqn:He.
    { simpl. intros H Hw. nothing_written H Hw. }
    rewrite <- He. intros H Hw.
    assert (Hstep :
      match processBlock dist accessBit medium restrictions nodeWayMap wayIndex
              (take blockSize entries) st with
      | (Ok, st1) => Import_loop dist accessBit medium fuel restrictions nodeWayMap wayIndex
                       blockSize (drop blockSize entries) st1
      | other => other
      end = (status, st')).
    { rewrite <- H. rewrite He. reflexivity. }
    clear H.
    destruct (processBlock _ _ _ _ _ _ _) as [status1 st1] eqn:Hblock.
    apply processBlock_Written with (rns := rns) in Hblock; [|exact Hw].
    destruct Hblock as (new1 & Hw1 & Hlen1 & Hall1).
    assert (Hfirst : Forall (EmittedFrom dist accessBit restrictions nodeWayMap
                               blockSize entries) new1).
    { eapply Forall_impl; [exact Hall1|]. intros rn [Hne Hb].
      exists 0%nat. unfold blockOf. simpl. auto. }
    rewrite length_take in Hlen1.
    destruct status1.
    + apply IH with (rns := rns ++ new1) in Hstep; [|exact Hw1].
      destruct Hstep as (new2 & Hw2 & Hlen2 & Hall2).
      exists (new1 ++ new2). rewrite app_assoc. split; [exact Hw2|].
      rewrite length_drop in Hlen2. split; [rewrite length_app; lia|].
      apply Forall_app. split; [exact Hfirst|].
      eapply Forall_impl; [exact Hall2|]. intros rn (k & Hne & Hb).
      exists (S k). rewrite <- blockOf_drop. auto.
    + inversion Hstep. subst. exists new1. split; [exact Hw1|]. split; [lia|exact Hfirst].
    + inversion Hstep. subst. exists new1. split; [exact Hw1|]. split; [lia|exact Hfirst].
    + inversion Hstep. subst. exists new1. split; [exact Hw1|]. split; [lia|exact Hfirst].
Qed.

Lemma length_mapEntries (nodeWayMap : gmap Id (list Id)) :
  length (mapEntries nodeWayMap) = size nodeWayMap.
Proof.
  unfold mapEntries. rewrite length_map.
  rewrite (Permutation_length (merge_sort_Permutation Z.le _)).
  rewrite <- size_dom. reflexivity.
Qed.

Lemma writeRouteNodes_Written restrictions nodeWayMap wayIndex blockSize scanner status st :
  writeRouteNodes dist accessBit medium restrictions nodeWayMap wayIndex blockSize scanner
  = (status, st) ->
  exists rns,
    Written st rns /\
    (length rns <= size nodeWayMap)%nat /\
    Forall (EmittedFrom dist accessBit restrictions nodeWayMap blockSize
              (mapEntries nodeWayMap)) rns.
Proof.
  unfold writeRouteNodes. intros H.
  apply Import_loop_Written with (rns := []) in H; [|apply Written_start].
  destruct H as (new & Hw & Hlen & Hall). exists new.
  rewrite length_mapEntries in Hlen. auto.
Qed.

Lemma patchHeader_items (st : BuildState) (rns : list RouteNode) :
  Written st rns ->
  fw_items (patchHeader st)
  = ItemU32 (Z.of_nat (length rns) mod 2^32) :: map ItemRouteNode rns.
Proof.
  intros (Hitems & Hpos & Hcount).
  unfold patchHeader, writer_Write, writer_SetPos, writer_put. simpl.
  rewrite Hitems, Hcount. simpl. rewrite Z.mod_mod by lia. reflexivity.
Qed.

Lemma records_of_run (st : BuildState) (rns : list RouteNode) :
  Written st rns ->
  routeNodesOf (fw_items (bs_writer st)) = rns /\
  routeNodesOf (fw_items (patchHeader st)) = rns.
Proof.
  intros Hw. rewrite (patchHeader_items st rns Hw).
  destruct Hw as (Hitems & _ & _). rewrite Hitems.
  split; apply routeNodesOf_records.
Qed.

(** [Import] runs the build phase on what the first three phases made.
    What it leaves in [route.dat] holds the records of that run, behind
    the patched header when the build phase ran through, and it returns
    [true] when the two [Close] calls behind the patch succeed too. *)
Lemma Import_runs_build blockSize typeConfig uninit dir status items :
  Import dist accessBit medium blockSize typeConfig uninit dir = (status, Some items) ->
  exists restrictions junctions nodeWayMap wayIdx scanner built st,
    ReadRestrictionRelations typeConfig uninit (rawrels_dat dir) ∅ = Some restrictions /\
    ReadJunctions typeConfig (ways_dat dir) ∅ = Some junctions /\
    ReadWayEndpoints typeConfig (ways_dat dir) junctions ∅ = Some nodeWayMap /\
    way_idx dir = Some wayIdx /\
    scanner_Open (ways_dat dir) = Some scanner /\
    writeRouteNodes dist accessBit medium restrictions nodeWayMap wayIdx blockSize scanner
    = (built, st) /\
    routeNodesOf items = routeNodesOf (fw_items (bs_writer st)) /\
    match built with
    | Ok => items = fw_items (patchHeader st) /\
            status = (if writerCloses medium && indexCloses medium then Ok else ReturnFalse)
    | _ => items = fw_items (bs_writer st) /\ status = built
    end.
Proof.
  unfold Import.
  destruct (ReadRestrictionRelations _ _ _ _) as [restrictions|] eqn:Hrestrictions;
    [|discriminate].
  destruct (ReadJunctions _ _ _) as [junctions|] eqn:Hjunctions; [|discriminate].
  destruct (ReadWayEndpoints _ _ _ _) as [nodeWayMap|] eqn:Hendpoints; [|discriminate].
  destruct (way_idx dir) as [wayIdx|]; [|discriminate].
  destruct (scanner_Open (ways_dat dir)) as [scanner|] eqn:Hopen; [|discriminate].
  destruct (creates medium); [|discriminate]. cbn [negb].
  destruct (writeRouteNodes _ _ _ _ _ _ _ _) as [built st] eqn:Hrun.
  intros H. exists restrictions, junctions, nodeWayMap, wayIdx, scanner, built, st.
  destruct (writeRouteNodes_Written _ _ _ _ _ _ _ Hrun) as (rns & Hw & _ & _).
  destruct (records_of_run st rns Hw) as [Hrecords Hpatched].
  split; [reflexivity|]. split; [reflexivity|]. split; [exact Hendpoints|].
  split; [reflexivity|]. split; [reflexivity|]. split; [exact Hrun|].
  destruct built; cbn [scanner_Close] in H.
  - destruct (writerCloses medium), (indexCloses medium); cbn [negb andb] in *;
      inversion H; subst; (split; [congruence|split; reflexivity]).
  - inversion H. subst. auto.
  - inversion H. subst. auto.
  - inversion H. subst. auto.
Qed.

Lemma written_record_emitted restrictions nodeWayMap wayIndex blockSize scanner status st rn :
  writeRouteNodes dist accessBit medium restrictions nodeWayMap wayIndex blockSize scanner
  = (status, st) ->
  rn ∈ routeNodesOf (fw_items (bs_writer st)) ->
  EmittedFrom dist accessBit restrictions nodeWayMap blockSize (mapEntries nodeWayMap) rn.
Proof.
  intros Hrun Hin. apply writeRouteNodes_Written in Hrun as (rns & Hw & _ & Hall).
  apply records_of_run in Hw as [Hrecords _]. rewrite Hrecords in Hin.
  rewrite Forall_forall in Hall. apply Hall, Hin.
Qed.

Lemma addWayEndpoints_triangle typeConfig junctions endPointWayMap way (J1 J2 J3 : Id) :
  skipWay typeConfig way = false ->
  map GetId (nodes way) = [J1; J2; J3; J1] ->
  J1 <> J2 -> J2 <> J3 -> J1 <> J3 ->
  J1 ∈ junctions -> J2 ∈ junctions -> J3 ∈ junctions ->
  addWayEndpoints typeConfig junctions endPointWayMap way !! J1
  = Some (default [] (endPointWayMap !! J1) ++ [way_GetId way; way_GetId way]) /\
  addWayEndpoints typeConfig junctions endPointWayMap way !! J2
  = Some (default [] (endPointWayMap !! J2) ++ [way_GetId way]) /\
  addWayEndpoints typeConfig junctions endPointWayMap way !! J3
  = Some (default [] (endPointWayMap !! J3) ++ [way_GetId way]).
Proof.
  intros Hskip Hids H12 H23 H13 Hj1 Hj2 Hj3.
  destruct (nodes way) as [|[i1 la1 lo1] [|[i2 la2 lo2] [|[i3 la3 lo3] [|[i4 la4 lo4] [|]]]]]
    eqn:Hnodes; try discriminate.
  simpl in Hids. inversion Hids. subst. clear Hids.
  unfold addWayEndpoints. rewrite Hskip, Hnodes. simpl.
  unfold addEndpoint. simpl. rewrite !bool_decide_eq_true_2 by assumption.
  unfold push_back_at.
  repeat split.
  - rewrite lookup_insert_eq. f_equal.
    rewrite !lookup_insert_ne, lookup_insert_eq by congruence. simpl.
    rewrite <- app_assoc. reflexivity.
  - rewrite lookup_insert_ne, lookup_insert_ne, lookup_insert_eq by congruence.
    rewrite lookup_insert_ne by congruence. reflexivity.
  - rewrite lookup_insert_ne, lookup_insert_eq by congruence.
    rewrite !lookup_insert_ne by congruence. reflexivity.
Qed.

(** C1, as the code has it. For an area way with nodes [J1, J2, J3, J1],
    the three of them junctions: the way is listed once for [J2] and for
    [J3] and twice for [J1], and every listing of the way in a route node
    has two paths.  Those of [J2] lead to [J3] (forward) and [J1]
    (backward), those of [J3] to [J1] and [J2]; the first of the two of
    [J1] leads to [J2]. *)
Theorem area_triangle_paths typeConfig junctions endPointWayMap restrictions nodeWayMap
    waysMap node rn (k : nat) way (J1 J2 J3 : Id) :
  IsArea way = true ->
  map GetId (nodes way) = [J1; J2; J3; J1] ->
  J1 <> J2 -> J2 <> J3 -> J1 <> J3 ->
  (skipWay typeConfig way = false ->
   J1 ∈ junctions -> J2 ∈ junctions -> J3 ∈ junctions ->
   addWayEndpoints typeConfig junctions endPointWayMap way !! J1
   = Some (default [] (endPointWayMap !! J1) ++ [way_GetId way; way_GetId way]) /\
   addWayEndpoints typeConfig junctions endPointWayMap way !! J2
   = Some (default [] (endPointWayMap !! J2) ++ [way_GetId way]) /\
   addWayEndpoints typeConfig junctions endPointWayMap way !! J3
   = Some (default [] (endPointWayMap !! J3) ++ [way_GetId way])) /\
  (isRouteNode nodeWayMap J1 = true ->
   isRouteNode nodeWayMap J2 = true ->
   isRouteNode nodeWayMap J3 = true ->
   buildRouteNode dist accessBit restrictions nodeWayMap waysMap node = Some rn ->
   waysMap !! way_GetId way = Some way ->
   rn_ways rn !! k = Some (way_GetId way) ->
   (fst node = J2 -> map path_id (pathsOfListing k (rn_paths rn)) = [J3; J1]) /\
   (fst node = J3 -> map path_id (pathsOfListing k (rn_paths rn)) = [J1; J2]) /\
   (fst node = J1 ->
    exists p q, pathsOfListing k (rn_paths rn) = [p; q] /\ path_id p = J2)).
Proof.
  intros Harea Hids H12 H23 H13. split.
  - intros Hskip Hj1 Hj2 Hj3. apply addWayEndpoints_triangle; assumption.
  - intros Hj1 Hj2 Hj3 Hbuild Hway Hlook.
    destruct (buildRouteNode_listing _ _ _ _ _ _ _ Hbuild Hlook) as (way' & Hway' & Hroute).
    rewrite Hway in Hway'. inversion Hway'. subst way'. clear Hway'.
    destruct (routeWay_triangle nodeWayMap way k J1 J2 J3 Harea Hids H12 H23 H13 Hj1 Hj2 Hj3)
      as (Hsecond & Hthird & p & q & Hfirst & Hp).
    split; [|split].
    + intros Hnode. rewrite Hnode in Hroute. rewrite Hroute in Hsecond.
      simpl in Hsecond. congruence.
    + intros Hnode. rewrite Hnode in Hroute. rewrite Hroute in Hthird.
      simpl in Hthird. congruence.
    + intros Hnode. rewrite Hnode in Hroute. rewrite Hroute in Hfirst.
      exists p, q. split; [congruence|exact Hp].
Qed.

(** C2, as the code has it. In every route node the build phase writes,
    [ways] is ascending, not strictly: [ways[i] <= ways[j]] for [i < j]. *)
Theorem ways_sorted_ascending restrictions nodeWayMap wayIndex blockSize scanner status st
    rn (i j : nat) (a b : Id) :
  writeRouteNodes dist accessBit medium restrictions nodeWayMap wayIndex blockSize scanner
  = (status, st) ->
  rn ∈ routeNodesOf (fw_items (bs_writer st)) ->
  (i < j)%nat -> rn_ways rn !! i = Some a -> rn_ways rn !! j = Some b ->
  a <= b.
Proof.
  intros Hrun Hin. apply (written_record_emitted _ _ _ _ _ _ _ _ Hrun) in Hin.
  destruct Hin as (k & _ & waysMap & node & _ & Hbuild).
  apply buildRouteNode_inv in Hbuild as (_ & Hways & _).
  rewrite Hways. apply StronglySorted_lookup, StronglySorted_filter.
  apply StronglySorted_merge_sort; apply _.
Qed.

Lemma mapEntries_elem (nodeWayMap : gmap Id (list Id)) (node : Id * list Id) :
  node ∈ mapEntries nodeWayMap -> nodeWayMap !! fst node = Some (snd node).
Proof.
  unfold mapEntries. rewrite list_elem_of_In, in_map_iff.
  intros (id & <- & Hin). simpl.
  apply list_elem_of_In in Hin. rewrite (merge_sort_Permutation Z.le _) in Hin.
  apply elem_of_elements, elem_of_dom in Hin as [wayIds Hsome].
  rewrite Hsome. reflexivity.
Qed.

Lemma blockOf_subseteq (blockSize : nat) (entries : list (Id * list Id)) (k : nat)
    (node : Id * list Id) :
  node ∈ blockOf blockSize entries k -> node ∈ entries.
Proof.
  intros Hin. apply blockOf_lookup in Hin as (i & Hi & _).
  eapply list_elem_of_lookup_2. exact Hi.
Qed.

(** C4. For every exclude of a route node the build phase writes:
    [targetPath] is an index into [paths]; the way of that path differs
    from [sourceWay]; the exclude stands for a turn between two incident
    ways of the junction that [CanTurn] denies, and [targetPath] is the
    first path that leaves by the destination way.  A turn whose
    destination way has no path appends nothing. *)
Theorem excludes_target_first_path restrictions nodeWayMap wayIdx blockSize scanner
    status st rn e :
  writeRouteNodes dist accessBit medium restrictions nodeWayMap wayIdx blockSize scanner
  = (status, st) ->
  rn ∈ routeNodesOf (fw_items (bs_writer st)) ->
  e ∈ rn_excludes rn ->
  (targetPath e < length (rn_paths rn))%nat /\
  (exists path wayId,
      rn_paths rn !! targetPath e = Some path /\
      rn_ways rn !! wayIndex path = Some wayId /\
      wayId <> sourceWay e) /\
  (exists turnConstraints wayIds dst,
      restrictions !! rn_id rn = Some turnConstraints /\
      nodeWayMap !! rn_id rn = Some wayIds /\
      sourceWay e ∈ wayIds /\ dst ∈ wayIds /\
      CanTurn turnConstraints (sourceWay e) dst = false /\
      firstPathBy (rn_ways rn) (rn_paths rn) dst (targetPath e)) /\
  (forall turnConstraints src dst excludes,
      (forall path, path ∈ rn_paths rn -> wayOfPath (rn_ways rn) path <> Some dst) ->
      excludeTurn turnConstraints (rn_ways rn) (rn_paths rn) src dst excludes = excludes).
Proof.
  intros Hrun Hin He.
  apply (written_record_emitted _ _ _ _ _ _ _ _ Hrun) in Hin.
  destruct Hin as (k & _ & waysMap & node & Hnode & Hbuild).
  apply buildRouteNode_inv in Hbuild as (Hid & _ & _ & Hexcl).
  apply blockOf_subseteq, mapEntries_elem in Hnode.
  assert (Hlast : forall turnConstraints src dst excludes,
      (forall path, path ∈ rn_paths rn -> wayOfPath (rn_ways rn) path <> Some dst) ->
      excludeTurn turnConstraints (rn_ways rn) (rn_paths rn) src dst excludes = excludes).
  { intros turnConstraints src dst excludes Hnone. unfold excludeTurn.
    rewrite (findTargetPath_none _ _ _ Hnone), Nat.ltb_irrefl.
    destruct (negb (src =? dst)); [|reflexivity].
    destruct (negb (CanTurn turnConstraints src dst)); reflexivity. }
  rewrite Hexcl in He.
  destruct (restrictions !! fst node) as [turnConstraints|] eqn:Hrestr;
    [|apply elem_of_nil in He; contradiction].
  apply resolveExcludes_elem in He as (src & dst & Hsrc & Hdst & -> & Hne & Hturn & Hlt).
  simpl.
  pose proof (findTargetPath_firstPathBy _ _ _ Hlt) as Hfirst.
  split; [exact Hlt|]. split; [|split; [|exact Hlast]].
  - destruct Hfirst as [(path & Hpath & Hway) _].
    exists path, dst. unfold wayOfPath in Hway. auto.
  - exists turnConstraints, (snd node), dst. rewrite Hid.
    rewrite (merge_sort_Permutation Z.le _) in Hsrc, Hdst. auto 10.
Qed.

End BuilderProperties.

Lemma ways_sorted_ascending_witness :
  Ex.lollipopRun = (fst Ex.lollipopRun, snd Ex.lollipopRun) /\
  Ex.lollipopNode ∈ routeNodesOf (fw_items (bs_writer (snd Ex.lollipopRun))) /\
  rn_ways Ex.lollipopNode !! 0%nat = Some 50 /\
  rn_ways Ex.lollipopNode !! 1%nat = Some 50 /\
  50 <= 50.
Proof.
  assert (Hrun : Ex.lollipopRun = (fst Ex.lollipopRun, snd Ex.lollipopRun))
    by (vm_compute; reflexivity).
  assert (Hin : Ex.lollipopNode ∈ routeNodesOf (fw_items (bs_writer (snd Ex.lollipopRun))))
    by (vm_compute; left).
  split; [exact Hrun|]. split; [exact Hin|]. split; [reflexivity|]. split; [reflexivity|].
  exact (ways_sorted_ascending Ex.unitDistance Ex.hasAccess Ex.disk ∅ Ex.lollipopMap
           {[ 50 := 1%nat ]} 5 Ex.lollipopScanner (fst Ex.lollipopRun) (snd Ex.lollipopRun)
           Ex.lollipopNode 0 1 50 50 Hrun Hin ltac:(lia) eq_refl eq_refl).
Defined.

(** C2, as the claim has it, fails on the lollipop: junction 5 occurs twice
    in way 50, its incident-way list is [50, 50], and so is [ways]. *)
Lemma ways_not_strictly_sorted :
  option_map (fun items => map rn_ways (routeNodesOf items))
    (snd (Import Ex.unitDistance Ex.hasAccess Ex.disk 5 Ex.typeConfig Ex.zeroed Ex.lollipopDir))
  = Some [[50; 50]].
Proof. vm_compute. reflexivity. Qed.

Lemma excludes_target_first_path_witness :
  Ex.restrictedRun = (fst Ex.restrictedRun, snd Ex.restrictedRun) /\
  Ex.restrictedNode ∈ routeNodesOf (fw_items (bs_writer (snd Ex.restrictedRun))) /\
  mkExclude 30 0 ∈ rn_excludes Ex.restrictedNode /\
  (0 < length (rn_paths Ex.restrictedNode))%nat /\
  (exists path wayId,
      rn_paths Ex.restrictedNode !! 0%nat = Some path /\
      rn_ways Ex.restrictedNode !! wayIndex path = Some wayId /\
      wayId <> 30).
Proof.
  assert (Hrun : Ex.restrictedRun = (fst Ex.restrictedRun, snd Ex.restrictedRun))
    by (vm_compute; reflexivity).
  assert (Hin : Ex.restrictedNode ∈ routeNodesOf (fw_items (bs_writer (snd Ex.restrictedRun))))
    by (vm_compute; right; left).
  assert (He : mkExclude 30 0 ∈ rn_excludes Ex.restrictedNode) by (vm_compute; left).
  pose proof (excludes_target_first_path Ex.unitDistance Ex.hasAccess Ex.disk Ex.noTurnInto20
                Ex.triangleMap Ex.triangleIndex 5 Ex.triangleScanner _ _
                Ex.restrictedNode (mkExclude 30 0) Hrun Hin He) as (Hlt & Hway & _).
  split; [exact Hrun|]. split; [exact Hin|]. split; [exact He|].
  split; [exact Hlt|exact Hway].
Defined.

(** C1, as the claim has it, fails for the junction that closes the ring.
    [Import] on the area triangle [1,2,3,1], the three nodes junctions:
    junctions 2 and 3 get the two paths of the claim.  For junction 1 the
    way is listed twice, the walk starts at index 0 both times, and the
    backward walk stops at index 3, which holds node 1 again: four paths
    by the way, two of them to junction 1 itself. *)
Lemma triangle_closing_node_paths :
  option_map
    (fun items =>
       map (fun rn => (rn_id rn, rn_ways rn,
                       map (fun p => (path_id p, wayIndex p)) (rn_paths rn)))
           (routeNodesOf items))
    (snd (Import Ex.unitDistance Ex.hasAccess Ex.disk 5 Ex.typeConfig Ex.zeroed Ex.triangleDir))
  = Some [ (1, [20; 20], [(2, 0%nat); (1, 0%nat); (2, 1%nat); (1, 1%nat)]);
           (2, [20; 30], [(3, 0%nat); (1, 0%nat)]);
           (3, [20; 40], [(1, 0%nat); (2, 0%nat)]) ].
Proof. vm_compute. reflexivity. Qed.

(** ** [Way::Write] then [Way::Read] *)

Module WayCodecProperties.
Import WayCodec.

Section RoundTrip.
Variable Attr : Type.
Variable IdModulus : Z.
Variable conversionFactor : float.
Variable round_u32 : float -> Z.
Variable u32_to_double : Z -> float.

Local Abbreviation writeCoords minLat minLon ns w :=
  (fold_left (writeCoord Attr conversionFactor round_u32 minLat minLon) ns w).
Local Abbreviation coordToks := (coordTokens Attr conversionFactor round_u32).

Lemma writeCoords_tokens (minLat minLon : float) (ns : list Coord) (ts : list (Token Attr)) :
  writeCoords minLat minLon ns (mkWriter ts false)
  = mkWriter (ts ++ coordToks minLat minLon ns) false.
Proof.
  revert ts. induction ns as [|node ns IH]; intros ts; simpl.
  - rewrite app_nil_r. reflexivity.
  - unfold writeCoord at 2, WriteNumber, put. simpl. rewrite IH.
    rewrite <- !app_assoc. reflexivity.
Qed.

Lemma writeIds_tokens (minId : Id) (i : nat) (l : list Id) (ts : list (Token Attr)) :
  writeIds Attr IdModulus minId i l (mkWriter ts false)
  = mkWriter (ts ++ idTokens Attr IdModulus minId i l) false.
Proof.
  revert i ts. induction l as [|id l IH]; intros i ts; simpl.
  - rewrite app_nil_r. reflexivity.
  - destruct (negb (id =? 0)); simpl.
    + unfold WriteNumber, put. simpl. rewrite IH, <- !app_assoc. reflexivity.
    + apply IH.
Qed.

(** The coordinate loop of [Read] consumes the tokens of the coordinate
    loop of [Write]. *)
Lemma readCoords_tokens (minLatW minLonW : float) (ns : list Coord) (i : nat)
    (minLat minLon : Z) (nodes0 : list Coord) (rest : list (Token Attr)) (pos : nat) :
  exists nodes1,
    readCoords Attr conversionFactor u32_to_double (length ns) i minLat minLon nodes0
      (mkScanner (coordToks minLatW minLonW ns ++ rest) pos false)
    = (nodes1, mkScanner rest (pos + 2 * length ns) false).
Proof.
  revert i nodes0 pos. induction ns as [|node ns IH]; intros i nodes0 pos; simpl.
  - exists nodes0. do 2 f_equal. lia.
  - unfold ReadNumber, advance. simpl.
    edestruct IH as [nodes1 Heq]. rewrite Heq. exists nodes1. do 2 f_equal. lia.
Qed.
Lemma countNonzero_snoc (seen : list Id) (id : Id) :
  countNonzero (seen ++ [id])
  = (countNonzero seen + (if (id =? 0)%Z then 0 else 1))%nat.
Proof.
  unfold countNonzero. rewrite List.filter_app, length_app. simpl.
  destruct (id =? 0); reflexivity.
Qed.

(** The counting loop of [Write]: the number of non-zero ids, and a
    [minId] of the type's range that is not above any of them. *)
Lemma scanIds_fold (l seen : list Id) (c m : Z) :
  Forall (fun id => 0 <= id < IdModulus) l ->
  c = Z.of_nat (countNonzero seen) ->
  c + Z.of_nat (length l) < 2^32 ->
  (0 < c -> (forall id, id ∈ seen -> id <> 0 -> m <= id) /\ 0 <= m < IdModulus) ->
  fst (fold_left scanId l (c, m)) = Z.of_nat (countNonzero (seen ++ l)) /\
  (0 < fst (fold_left scanId l (c, m)) ->
   (forall id, id ∈ seen ++ l -> id <> 0 -> snd (fold_left scanId l (c, m)) <= id) /\
   0 <= snd (fold_left scanId l (c, m)) < IdModulus).
Proof.
  revert seen c m. induction l as [|id l IH]; intros seen c m Hrange Hc Hlen Hmin.
  - simpl. rewrite app_nil_r. auto.
  - inversion Hrange as [|? ? Hid Hrest]. subst.
    simpl fold_left. simpl length in Hlen.
    replace (seen ++ id :: l) with ((seen ++ [id]) ++ l) by (rewrite <- app_assoc; reflexivity).
    destruct (Z.eqb_spec id 0) as [->|Hne].
    + replace (scanId (Z.of_nat (countNonzero seen), m) 0)
        with (Z.of_nat (countNonzero seen), m) by reflexivity.
      apply IH; try assumption.
      * rewrite countNonzero_snoc. simpl. lia.
      * lia.
      * intros Hpos. destruct (Hmin Hpos) as [Hlow Hm]. split; [|exact Hm].
        intros id' Hin Hne'. apply elem_of_app in Hin as [Hin|Hin]; [auto|].
        apply list_elem_of_singleton in Hin. congruence.
    + assert (Hc1 : (Z.of_nat (countNonzero seen) + 1) mod 2^32
                    = Z.of_nat (countNonzero (seen ++ [id]))).
      { rewrite countNonzero_snoc. destruct (Z.eqb_spec id 0); [contradiction|].
        rewrite Z.mod_small by lia. lia. }
      replace (scanId (Z.of_nat (countNonzero seen), m) id)
        with ((Z.of_nat (countNonzero seen) + 1) mod 2^32,
              if Z.of_nat (countNonzero seen) =? 0 then id else Z.min m id).
      2:{ unfold scanId. simpl fst. simpl snd.
          destruct (Z.eqb_spec id 0); [contradiction|reflexivity]. }
      apply IH; try assumption.
      * rewrite Z.mod_small by lia. lia.
      * intros _. destruct (Z.eqb_spec (Z.of_nat (countNonzero seen)) 0) as [Hzero|Hpos].
        -- split; [|lia]. intros id' Hin Hne'.
           apply elem_of_app in Hin as [Hin|Hin].
           ++ exfalso. unfold countNonzero in Hzero.
              apply list_elem_of_In in Hin.
              assert (Hf : In id' (List.filter (fun id => negb (id =? 0)) seen)).
              { apply List.filter_In. split; [exact Hin|].
                apply negb_true_iff, Z.eqb_neq, Hne'. }
              destruct (List.filter _ seen); [contradiction|simpl in Hzero; lia].
           ++ apply list_elem_of_singleton in Hin. lia.
        -- destruct Hmin as [Hlow Hm]; [lia|]. split; [|lia].
           intros id' Hin Hne'. apply elem_of_app in Hin as [Hin|Hin].
           ++ specialize (Hlow id' Hin Hne'). lia.
           ++ apply list_elem_of_singleton in Hin. lia.
Qed.

Lemma ReadNumber_token (modulus v : Z) (rest : list (Token Attr)) (pos : nat) :
  ReadNumber Attr modulus (mkScanner (TokNumber v :: rest) pos false)
  = (true, v mod modulus, mkScanner rest (S pos) false).
Proof. reflexivity. Qed.

Lemma readIds_step (n : nat) (minId : Id) (l : list Id) (index v : Z)
    (rest : list (Token Attr)) (pos : nat) :
  readIds Attr IdModulus (S n) minId l
    (mkScanner (TokNumber index :: TokNumber v :: rest) pos false)
  = if (Z.to_nat (index mod 2^32) <? length l)%nat
    then readIds Attr IdModulus n minId
           (<[ Z.to_nat (index mod 2^32) := (v mod IdModulus + minId) mod IdModulus ]> l)
           (mkScanner rest (S (S pos)) false)
    else None.
Proof. reflexivity. Qed.

(** The id loop of [Read] on the tokens of the id loop of [Write]: the ids
    [done] are in place, those of [todo] still 0. *)
Lemma readIds_tokens (minId : Id) (todo done : list Id) (rest : list (Token Attr)) (pos : nat) :
  0 <= minId < IdModulus ->
  Forall (fun id => id <> 0 -> minId <= id < IdModulus) todo ->
  Z.of_nat (length done + length todo) < 2^32 ->
  readIds Attr IdModulus (countNonzero todo) minId (done ++ replicate (length todo) 0)
    (mkScanner (idTokens Attr IdModulus minId (length done) todo ++ rest) pos false)
  = Some (done ++ todo, mkScanner rest (pos + 2 * countNonzero todo) false).
Proof.
  intros HminId. revert done pos.
  induction todo as [|id todo IH]; intros done pos Hall Hlen.
  - simpl. rewrite Nat.add_0_r. reflexivity.
  - inversion Hall as [|? ? Hid Hrest]. subst.
    simpl length in *. simpl replicate. simpl idTokens.
    assert (Hnext : done ++ 0 :: replicate (length todo) 0
                    = (done ++ [0]) ++ replicate (length todo) 0)
      by (rewrite <- app_assoc; reflexivity).
    assert (Hlen' : S (length done) = length (done ++ [id]))
      by (rewrite length_app; simpl; lia).
    replace (done ++ id :: todo) with ((done ++ [id]) ++ todo)
      by (rewrite <- app_assoc; reflexivity).
    destruct (Z.eqb_spec id 0) as [->|Hne]; simpl negb; cbv iota.
    + replace (countNonzero (0 :: todo)) with (countNonzero todo) by reflexivity.
      rewrite Hnext, Hlen'. simpl app at 2.
      apply IH; [exact Hrest|]. rewrite length_app. simpl. lia.
    + replace (countNonzero (id :: todo)) with (S (countNonzero todo)).
      2:{ unfold countNonzero. simpl. destruct (Z.eqb_spec id 0); [contradiction|reflexivity]. }
      simpl app at 2. rewrite readIds_step.
      rewrite (Z.mod_small (Z.of_nat (length done))) by lia.
      rewrite (Z.mod_small (Z.of_nat (length done))) by lia.
      rewrite Nat2Z.id.
      assert (Hinside : (length done <? length (done ++ 0%Z :: replicate (length todo) 0%Z))%nat
                        = true)
        by (apply Nat.ltb_lt; rewrite length_app; simpl; lia).
      rewrite Hinside.
      specialize (Hid Hne).
      rewrite (Z.mod_small (id - minId)) by lia.
      rewrite (Z.mod_small (id - minId)) by lia.
      replace (id - minId + minId) with id by lia.
      rewrite (Z.mod_small id) by lia.
      rewrite insert_app_r_alt by lia. rewrite Nat.sub_diag. simpl insert.
      replace (done ++ id :: replicate (length todo) 0)
        with ((done ++ [id]) ++ replicate (length todo) 0)
        by (rewrite <- app_assoc; reflexivity).
      rewrite Hlen'.
      rewrite IH; [|exact Hrest|rewrite length_app; simpl; lia].
      do 3 f_equal. lia.
Qed.

Lemma put_ok (t : Token Attr) (ts : list (Token Attr)) :
  put Attr t (mkWriter ts false) = mkWriter (ts ++ [t]) false.
Proof. reflexivity. Qed.

(** What [Write] leaves in a fresh writer. *)
Lemma Write_tokens (minId0 : Id) (way : Way Attr) :
  nodes way <> [] ->
  exists x y A B,
    Write Attr IdModulus conversionFactor round_u32 minId0 way (newWriter Attr)
    = Some (true,
            mkWriter
              (TokAttributes (attributes way)
               :: TokNumber (Z.of_nat (length (nodes way)) mod 2^32)
               :: TokFixed x :: TokFixed y
               :: coordToks A B (nodes way)
               ++ TokNumber (fst (scanIds (ids way) minId0) mod 2^32)
               :: (if 0 <? fst (scanIds (ids way) minId0)
                   then TokNumber (snd (scanIds (ids way) minId0) mod IdModulus)
                        :: idTokens Attr IdModulus (snd (scanIds (ids way) minId0)) 0 (ids way)
                   else []))
              false).
Proof.
  intros Hnodes. unfold Write.
  destruct (nodes way) as [|first others] eqn:Hns; [contradiction|].
  rewrite <- Hns.
  unfold attributes_Write, newWriter, Write_u32, WriteNumber.
  cbn [wr_hasError negb]. rewrite !put_ok. cbn [app].
  rewrite writeCoords_tokens.
  destruct (scanIds (ids way) minId0) as [idCount minId].
  cbn [fst snd]. rewrite put_ok.
  do 4 eexists.
  destruct (0 <? idCount).
  - rewrite put_ok, writeIds_tokens. cbn [wr_hasError negb].
    rewrite <- !app_assoc. cbn [app]. reflexivity.
  - cbn [wr_hasError negb]. rewrite <- !app_assoc. cbn [app]. reflexivity.
Qed.

Lemma countNonzero_none (l : list Id) :
  countNonzero l = 0%nat -> l = replicate (length l) 0.
Proof.
  unfold countNonzero. induction l as [|id l IH]; simpl; [reflexivity|].
  destruct (Z.eqb_spec id 0) as [->|Hne]; simpl; [|discriminate].
  intros H. rewrite <- IH by exact H. reflexivity.
Qed.

(** [ids.resize(nodeCount,0)] on a vector that holds no id. *)
Lemma resize_zeros (n : nat) (l : list Id) :
  Forall (fun id => id = 0) l -> resize n 0 l = replicate n 0.
Proof.
  intros Hzero. revert n. unfold resize.
  induction Hzero as [|id l -> Hl IH]; intros n.
  - rewrite take_nil. simpl. rewrite Nat.sub_0_r. reflexivity.
  - destruct n as [|n]; [reflexivity|]. simpl. rewrite IH. reflexivity.
Qed.

(** C10, as the code has it. A way with at least one node, as many ids
    as nodes, fewer than [2^32] nodes and ids that fit the type [Id]:
    [Write] succeeds, and [Read] into a [Way] whose [ids] hold no id, as
    that of a new [Way], succeeds on what was written and yields the ids
    vector again, zeros as zeros and every other id through the delta to
    the least non-zero id. *)
Theorem ids_round_trip (minId0 : Id) (way target : Way Attr) :
  nodes way <> [] ->
  length (ids way) = length (nodes way) ->
  Z.of_nat (length (nodes way)) < 2^32 ->
  Forall (fun id => 0 <= id < IdModulus) (ids way) ->
  Forall (fun id => id = 0) (ids target) ->
  exists writer way' scanner',
    Write Attr IdModulus conversionFactor round_u32 minId0 way (newWriter Attr)
    = Some (true, writer) /\
    Read Attr IdModulus conversionFactor u32_to_double target (openOn Attr writer)
    = Some (true, way', scanner') /\
    ids way' = ids way.
Proof.
  intros Hnodes Hlen Hsize Hrange Htarget.
  destruct (scanIds_fold (ids way) [] 0 minId0 Hrange eq_refl) as [Hcount Hmin].
  { rewrite Hlen. lia. }
  { intros; lia. }
  cbn [app] in Hcount, Hmin.
  destruct (Write_tokens minId0 way Hnodes) as (x & y & A & B & Hwrite).
  fold (scanIds (ids way) minId0) in Hcount, Hmin.
  destruct (scanIds (ids way) minId0) as [idCount minId].
  cbn [fst snd] in *.
  assert (Hle : (countNonzero (ids way) <= length (ids way))%nat).
  { unfold countNonzero. apply List.filter_length_le. }
  destruct (readCoords_tokens A B (nodes way) 0 (x mod 2^32) (y mod 2^32)
              (resize (length (nodes way)) (mkCoord 0%float 0%float) (nodes target))
              (TokNumber (idCount mod 2^32)
               :: (if 0 <? idCount
                   then TokNumber (minId mod IdModulus)
                        :: idTokens Attr IdModulus minId 0 (ids way)
                   else [])) 4) as [nodes1 Hcoords].
  assert (Hstart : forall tokens,
    Read Attr IdModulus conversionFactor u32_to_double target
      (openOn Attr
         (mkWriter (TokAttributes (attributes way)
                    :: TokNumber (Z.of_nat (length (nodes way)) mod 2^32)
                    :: TokFixed x :: TokFixed y :: tokens) false))
    = let '(nodes0, scanner) :=
        readCoords Attr conversionFactor u32_to_double (length (nodes way)) 0
          (x mod 2^32) (y mod 2^32)
          (resize (length (nodes way)) (mkCoord 0%float 0%float) (nodes target))
          (mkScanner tokens 4 false) in
      let '(_, idCount0, scanner0) := ReadNumber Attr (2^32) scanner in
      match (if 0 <? idCount0 then
               let '(_, minId1, scanner1) := ReadNumber Attr IdModulus scanner0 in
               readIds Attr IdModulus (Z.to_nat idCount0) minId1
                 (replicate (length (nodes way)) 0) scanner1
             else Some (replicate (length (nodes way)) 0, scanner0)) with
      | None => None
      | Some (ids1, scanner1) =>
          Some (negb (sc_hasError scanner1),
                mkWay (attributes way) nodes0 ids1 0%nat, scanner1)
      end).
  { intros tokens.
    unfold Read, openOn, GetPos, attributes_Read, Read_u32, advance.
    cbn [sc_hasError wr_tokens sc_tokens sc_pos attributes nodes ids fileOffset].
    rewrite ReadNumber_token.
    rewrite !Z.mod_mod by lia. rewrite (Z.mod_small (Z.of_nat _)) by lia.
    rewrite Nat2Z.id. cbn [sc_hasError sc_tokens sc_pos].
    rewrite (resize_zeros _ _ Htarget). reflexivity. }
  rewrite Hwrite. clear Hwrite.
  destruct (Z.ltb_spec 0 idCount) as [Hpos|Hzero].
  - destruct (Hmin Hpos) as [Hlow HminId].
    pose proof (readIds_tokens minId (ids way) [] [] (S (S (4 + 2 * length (nodes way)))) HminId)
      as Hread.
    cbn [app length] in Hread. rewrite app_nil_r, Hlen in Hread.
    eexists. exists (mkWay (attributes way) nodes1 (ids way) 0%nat). eexists.
    split; [reflexivity|].
    rewrite Hstart, Hcoords, ReadNumber_token.
    rewrite Z.mod_mod by lia. rewrite (Z.mod_small idCount) by lia.
    destruct (Z.ltb_spec 0 idCount) as [_|]; [|lia].
    rewrite ReadNumber_token.
    rewrite Z.mod_mod by lia. rewrite (Z.mod_small minId) by lia.
    rewrite Hcount, Nat2Z.id.
    rewrite Hread.
    + cbn [sc_hasError negb]. split; reflexivity.
    + rewrite Forall_forall in *. intros id Hin Hne.
      specialize (Hrange id Hin). specialize (Hlow id Hin Hne). lia.
    + lia.
  - eexists. exists (mkWay (attributes way) nodes1 (ids way) 0%nat). eexists.
    split; [reflexivity|].
    rewrite Hstart, Hcoords, ReadNumber_token.
    rewrite Z.mod_mod by lia. rewrite (Z.mod_small idCount) by lia.
    destruct (Z.ltb_spec 0 idCount) as [|_]; [lia|].
    cbn [sc_hasError negb]. split; [|reflexivity].
    do 4 f_equal.
    rewrite <- Hlen. symmetry. apply countNonzero_none. lia.
Qed.
End RoundTrip.

Lemma ids_round_trip_witness :
  nodes exampleWay <> [] /\
  length (ids exampleWay) = length (nodes exampleWay) /\
  Z.of_nat (length (nodes exampleWay)) < 2^32 /\
  Forall (fun id => 0 <= id < 2^64) (ids exampleWay) /\
  ids (newWay unit tt) = [] /\
  exists writer way' scanner',
    Write unit (2^64) 10000000%float (fun _ => 0) 0 exampleWay (newWriter unit)
    = Some (true, writer) /\
    Read unit (2^64) 10000000%float (fun _ => 0%float) (newWay unit tt) (openOn unit writer)
    = Some (true, way', scanner') /\
    ids way' = [0; 7; 5].
Proof.
  assert (H1 : nodes exampleWay <> []) by discriminate.
  assert (H2 : length (ids exampleWay) = length (nodes exampleWay)) by reflexivity.
  assert (H3 : Z.of_nat (length (nodes exampleWay)) < 2^32) by (vm_compute; reflexivity).
  assert (H4 : Forall (fun id => 0 <= id < 2^64) (ids exampleWay))
    by (repeat constructor; vm_compute; congruence).
  split; [exact H1|]. split; [exact H2|]. split; [exact H3|]. split; [exact H4|].
  split; [reflexivity|].
  exact (ids_round_trip unit (2^64) 10000000%float (fun _ => 0) (fun _ => 0%float)
           0 exampleWay (newWay unit tt) H1 H2 H3 H4 (List.Forall_nil _)).
Defined.

(** C10, as the claim has it, fails when the [Way] read into holds an id
    already: [ids.resize(nodeCount,0)] keeps it, and the record has no id
    for the first node to put in its place.  The way written has the ids
    [0, 7, 5]; read into a [Way] whose ids are [3], it has [3, 7, 5]. *)
Lemma ids_of_reused_way_carry_over :
  exists writer way' scanner',
    Write unit (2^64) 10000000%float (fun _ => 0) 0 exampleWay (newWriter unit)
    = Some (true, writer) /\
    Read unit (2^64) 10000000%float (fun _ => 0%float) (mkWay tt [] [3] 0%nat)
         (openOn unit writer)
    = Some (true, way', scanner') /\
    ids way' = [3; 7; 5] /\
    ids way' <> ids exampleWay.
Proof.
  do 3 eexists. split; [vm_compute; reflexivity|].
  split; [vm_compute; reflexivity|]. split; [reflexivity|discriminate].
Qed.
End WayCodecProperties.

Lemma area_triangle_paths_witness :
  IsArea Ex.triangle = true /\
  map GetId (nodes Ex.triangle) = [1; 2; 3; 1] /\
  buildRouteNode Ex.unitDistance Ex.hasAccess ∅ Ex.triangleMap (makeWaysMap Ex.triangleWays)
    (2, [20; 30]) = Some Ex.triangleNode2 /\
  rn_ways Ex.triangleNode2 !! 0%nat = Some 20 /\
  map path_id (pathsOfListing 0 (rn_paths Ex.triangleNode2)) = [3; 1] /\
  addWayEndpoints Ex.typeConfig {[ 1; 2; 3 ]} ∅ Ex.triangle !! 1 = Some [20; 20].
Proof.
  assert (Harea : IsArea Ex.triangle = true) by reflexivity.
  assert (Hids : map GetId (nodes Ex.triangle) = [1; 2; 3; 1]) by reflexivity.
  assert (Hbuild : buildRouteNode Ex.unitDistance Ex.hasAccess ∅ Ex.triangleMap
                     (makeWaysMap Ex.triangleWays) (2, [20; 30]) = Some Ex.triangleNode2)
    by (vm_compute; reflexivity).
  assert (Hlook : rn_ways Ex.triangleNode2 !! 0%nat = Some 20) by reflexivity.
  destruct (area_triangle_paths Ex.unitDistance Ex.hasAccess Ex.typeConfig {[ 1; 2; 3 ]} ∅ ∅
              Ex.triangleMap (makeWaysMap Ex.triangleWays) (2, [20; 30]) Ex.triangleNode2
              0 Ex.triangle 1 2 3 Harea Hids ltac:(lia) ltac:(lia) ltac:(lia))
    as [Hlistings Hpaths].
  split; [exact Harea|]. split; [exact Hids|]. split; [exact Hbuild|]. split; [exact Hlook|].
  split.
  - apply Hpaths; first [exact Hbuild | reflexivity].
  - apply Hlistings; [reflexivity|set_solver..].
Defined.
(** * Further properties *)

(** ** [CanTurn]: which restriction decides *)

(** X1. When the list names the turn, the first restriction that names it
    decides, whatever precedes and follows it: an Allow restriction
    allows the turn, a Forbid restriction denies it. *)
Theorem CanTurn_first_match_decides (pre : list Restriction) (r : Restriction)
    (post : list Restriction) (from to : Id) :
  r_from r = from -> r_to r = to ->
  (forall q, q ∈ pre -> r_from q = from -> r_to q <> to) ->
  CanTurn (pre ++ r :: post) from to
  = match r_type r with allow => true | forbit => false end.
Proof.
  intros Hfrom Hto Hpre. rewrite CanTurn_is_loop.
  enough (Hloop : forall defaultReturn,
            (forall q, q ∈ pre -> r_from q = from -> r_to q <> to) ->
            CanTurn_loop (pre ++ r :: post) from to defaultReturn
            = match r_type r with allow => true | forbit => false end)
    by (apply Hloop, Hpre).
  clear Hpre.
  induction pre as [|q pre IH]; intros defaultReturn Hpre; simpl.
  - rewrite Hfrom, Hto, !Z.eqb_refl. destruct (r_type r); reflexivity.
  - assert (Hrest : forall q', q' ∈ pre -> r_from q' = from -> r_to q' <> to).
    { intros q' Hin. apply Hpre. right. exact Hin. }
    destruct (Z.eqb_spec (r_from q) from) as [Hq|Hq]; [|apply IH, Hrest].
    assert (Hne : (r_to q =? to) = false).
    { apply Z.eqb_neq, Hpre; [left|exact Hq]. }
    rewrite Hne. destruct (r_type q); apply IH, Hrest.
Qed.

Lemma CanTurn_first_match_decides_witness :
  CanTurn [mkRestriction forbit 1 3; mkRestriction allow 1 2; mkRestriction forbit 1 2] 1 2
  = true.
Proof.
  apply (CanTurn_first_match_decides [mkRestriction forbit 1 3] (mkRestriction allow 1 2)
           [mkRestriction forbit 1 2] 1 2 eq_refl eq_refl).
  intros q Hq _. apply list_elem_of_singleton in Hq. subst q. simpl. lia.
Defined.

(** X2. When the list does not name the turn, the last restriction that
    starts at the source way decides: the turn is denied when that one is
    an Allow restriction, and allowed when it is a Forbid restriction or
    when no restriction starts at the source way.  With Allow and Forbid
    restrictions mixed for one source way, the later kind wins. *)
Theorem CanTurn_unnamed_turn (R : list Restriction) (from to : Id) :
  ~ namesTurn R from to ->
  CanTurn R from to
  = match lastTypeFrom R from with
    | Some allow => false
    | Some forbit => true
    | None => true
    end.
Proof.
  rewrite CanTurn_is_loop.
  enough (Hloop : forall d, ~ namesTurn R from to ->
            CanTurn_loop R from to d
            = match lastTypeFrom R from with
              | Some allow => false
              | Some forbit => true
              | None => d
              end) by (apply Hloop).
  induction R as [|r R IH]; intros d Hno; [reflexivity|].
  assert (Hrest : ~ namesTurn R from to).
  { intros (q & Hin & Hq). apply Hno. exists q. split; [right; exact Hin|exact Hq]. }
  unfold lastTypeFrom in *. simpl.
  destruct (Z.eqb_spec (r_from r) from) as [Hfrom|Hfrom]; [|apply IH, Hrest].
  assert (Hne : (r_to r =? to) = false).
  { apply Z.eqb_neq. intros Hto. apply Hno. exists r. split; [left|auto]. }
  rewrite Hne. simpl. rewrite last_cons.
  destruct (r_type r); rewrite (IH _ Hrest);
    destruct (last _) as [[]|]; reflexivity.
Qed.

Lemma CanTurn_unnamed_turn_witness :
  CanTurn [mkRestriction forbit 1 3; mkRestriction allow 1 2] 1 4 = false /\
  CanTurn [mkRestriction allow 1 2; mkRestriction forbit 1 3] 1 4 = true.
Proof.
  split.
  - apply (CanTurn_unnamed_turn [mkRestriction forbit 1 3; mkRestriction allow 1 2] 1 4).
    intros (r & Hin & _ & Hto).
    repeat (apply elem_of_cons in Hin as [->|Hin]; [simpl in Hto; lia|]).
    apply elem_of_nil in Hin. exact Hin.
  - vm_compute. reflexivity.
Defined.

(** X3. Lists of one kind.  Forbid restrictions only: a turn is denied
    exactly when the list names it.  Allow restrictions only: a turn is
    allowed exactly when the list names it or no restriction starts at its
    source way. *)
Theorem CanTurn_unmixed (R : list Restriction) (from to : Id) :
  (Forall (fun r => r_type r = forbit) R ->
   (CanTurn R from to = false <-> namesTurn R from to)) /\
  (Forall (fun r => r_type r = allow) R ->
   (CanTurn R from to = true <->
    namesTurn R from to \/ forall r, r ∈ R -> r_from r <> from)).
Proof.
  rewrite CanTurn_is_loop. split.
  - induction 1 as [|r R Hr HR IH].
    + simpl. split; [discriminate|]. intros (r & Hin & _).
      apply elem_of_nil in Hin. contradiction.
    + simpl. rewrite Hr.
      destruct (Z.eqb_spec (r_from r) from) as [Hfrom|Hfrom].
      * destruct (Z.eqb_spec (r_to r) to) as [Hto|Hto].
        -- split; [|reflexivity]. intros _. exists r. split; [left|auto].
        -- rewrite IH. split; intros (q & Hin & Hq).
           ++ exists q. split; [right; exact Hin|exact Hq].
           ++ exists q. split; [|exact Hq].
              apply elem_of_cons in Hin as [->|Hin]; [|exact Hin].
              destruct Hq. contradiction.
      * rewrite IH. split; intros (q & Hin & Hq).
        -- exists q. split; [right; exact Hin|exact Hq].
        -- exists q. split; [|exact Hq].
           apply elem_of_cons in Hin as [->|Hin]; [|exact Hin].
           destruct Hq. contradiction.
  - intros Hall.
    enough (Hloop : forall d,
              CanTurn_loop R from to d = true <->
              namesTurn R from to \/ (d = true /\ forall r, r ∈ R -> r_from r <> from)).
    { rewrite Hloop. split; intros [H|H]; auto. right. tauto. }
    induction Hall as [|r R Hr HR IH]; intros d.
    + simpl. split.
      * intros ->. right. split; [reflexivity|]. intros r Hin.
        apply elem_of_nil in Hin. contradiction.
      * intros [(r & Hin & _)|[Hd _]]; [|exact Hd].
        apply elem_of_nil in Hin. contradiction.
    + simpl. rewrite Hr.
      destruct (Z.eqb_spec (r_from r) from) as [Hfrom|Hfrom].
      * destruct (Z.eqb_spec (r_to r) to) as [Hto|Hto].
        -- split; [|reflexivity]. intros _. left. exists r. split; [left|auto].
        -- rewrite IH. split.
           ++ intros [(q & Hin & Hq)|[Hd _]]; [|discriminate].
              left. exists q. split; [right; exact Hin|exact Hq].
           ++ intros [(q & Hin & Hq)|[_ Hnone]].
              ** left. exists q. split; [|exact Hq].
                 apply elem_of_cons in Hin as [->|Hin]; [|exact Hin].
                 destruct Hq. contradiction.
              ** exfalso. apply (Hnone r); [left|exact Hfrom].
      * rewrite IH. split.
        -- intros [(q & Hin & Hq)|[Hd Hnone]].
           ++ left. exists q. split; [right; exact Hin|exact Hq].
           ++ right. split; [exact Hd|]. intros q Hin.
              apply elem_of_cons in Hin as [->|Hin]; [exact Hfrom|apply Hnone, Hin].
        -- intros [(q & Hin & Hq)|[Hd Hnone]].
           ++ left. exists q. split; [|exact Hq].
              apply elem_of_cons in Hin as [->|Hin]; [|exact Hin].
              destruct Hq. contradiction.
           ++ right. split; [exact Hd|]. intros q Hin. apply Hnone. right. exact Hin.
Qed.

Lemma CanTurn_unmixed_witness :
  CanTurn [mkRestriction forbit 1 2; mkRestriction forbit 1 3] 1 3 = false /\
  CanTurn [mkRestriction allow 1 2; mkRestriction allow 1 3] 4 5 = true.
Proof.
  split.
  - apply (CanTurn_unmixed [mkRestriction forbit 1 2; mkRestriction forbit 1 3] 1 3).
    + repeat constructor.
    + exists (mkRestriction forbit 1 3). split; [right; left|split; reflexivity].
  - apply (CanTurn_unmixed [mkRestriction allow 1 2; mkRestriction allow 1 3] 4 5).
    + repeat constructor.
    + right. intros r Hin.
      repeat (apply elem_of_cons in Hin as [->|Hin]; [simpl; lia|]).
      apply elem_of_nil in Hin. contradiction.
Defined.
(** ** The three readers and the files they read *)

(** *** [ReadRestrictionRelations] *)

Lemma elem_of_insertRestrictionType typeConfig name (set : gset TypeId) (type : TypeId) :
  type ∈ insertRestrictionType typeConfig name set ->
  type <> typeIgnore typeConfig \/ type ∈ set.
Proof.
  unfold insertRestrictionType.
  destruct (Z.eqb_spec (GetRelationTypeId typeConfig name) (typeIgnore typeConfig)) as [|Hne];
    [auto|].
  rewrite elem_of_union, elem_of_singleton. intros [->|Hin]; auto.
Qed.

(** X4. [typeIgnore] is never a restriction type: a relation of that type
    adds no restriction, also under a type configuration that knows none
    of the seven restriction names (each of them then maps to
    [typeIgnore]). *)
Theorem relation_of_ignored_type_adds_nothing (typeConfig : TypeConfig) (uninit : Id * Id)
    (relation : RawRelation) (restrictions : gmap Id (list Restriction)) :
  rel_GetType relation = typeIgnore typeConfig ->
  handleRelation typeConfig uninit relation restrictions = restrictions.
Proof.
  intros Htype. unfold handleRelation. rewrite Htype.
  assert (Hpos : typeIgnore typeConfig ∉ posRestrictions typeConfig).
  { unfold posRestrictions. intros Hin.
    repeat (apply elem_of_insertRestrictionType in Hin as [Hin|Hin]; [congruence|]).
    set_solver. }
  assert (Hneg : typeIgnore typeConfig ∉ negRestrictions typeConfig).
  { unfold negRestrictions. intros Hin.
    repeat (apply elem_of_insertRestrictionType in Hin as [Hin|Hin]; [congruence|]).
    set_solver. }
  rewrite !(bool_decide_eq_false_2 _ Hpos), !(bool_decide_eq_false_2 _ Hneg).
  reflexivity.
Qed.

Lemma relation_of_ignored_type_adds_nothing_witness :
  handleRelation Ex.typeConfig (0, 0)
    (mkRawRelation 0 [mkMember memberWay 30 "from"; mkMember memberNode 2 "via";
                      mkMember memberWay 20 "to"]) ∅ = ∅.
Proof.
  apply (relation_of_ignored_type_adds_nothing Ex.typeConfig (0, 0)
           (mkRawRelation 0 [mkMember memberWay 30 "from"; mkMember memberNode 2 "via";
                             mkMember memberWay 20 "to"]) ∅).
  reflexivity.
Defined.

(** X5. [ReadRestrictionRelations] returns [false] exactly when
    [rawrels.dat] is absent, does not start with its count, holds fewer
    decodable relations than the count announces, or announces [2^32-1]
    relations: the [uint32_t] counter of the loop can then never exceed
    the count, and the loop reads on until a read fails.  Otherwise it
    handles the announced relations, and only those, in file order. *)
Theorem ReadRestrictionRelations_reads_announced_relations (typeConfig : TypeConfig)
    (uninit : nat -> Id * Id) (rawrels : option (list (Slot RawRelation)))
    (restrictions : gmap Id (list Restriction)) :
  (ReadRestrictionRelations typeConfig uninit rawrels restrictions = None <->
   recordsOf rawrels = None \/ announcedCount rawrels = Some (2^32 - 1)) /\
  (forall relations,
      recordsOf rawrels = Some relations ->
      announcedCount rawrels <> Some (2^32 - 1) ->
      ReadRestrictionRelations typeConfig uninit rawrels restrictions
      = Some (handleRelations typeConfig uninit 1 relations restrictions)).
Proof.
  rewrite ReadRestrictionRelations_records. split.
  - apply reader_fails_iff.
  - intros relations Hfile Hcount. rewrite Hfile.
    apply recordsOf_count in Hfile as [Hannounced _].
    destruct (Z.eqb_spec (Z.of_nat (length relations)) (2^32 - 1)) as [Hwrap|];
      [|reflexivity].
    exfalso. apply Hcount. rewrite Hannounced, Hwrap. reflexivity.
Qed.

Lemma ReadRestrictionRelations_reads_announced_relations_witness :
  ReadRestrictionRelations Ex.restrictionConfig Ex.zeroed (Some Ex.rawrels) ∅
  = Some (handleRelations Ex.restrictionConfig Ex.zeroed 1 [Ex.noLeftTurn; Ex.noVia] ∅).
Proof.
  apply (ReadRestrictionRelations_reads_announced_relations Ex.restrictionConfig Ex.zeroed
           (Some Ex.rawrels) ∅).
  - reflexivity.
  - vm_compute. discriminate.
Defined.

Lemma WellKeyed_handleRelation typeConfig uninit relation restrictions :
  WellKeyed restrictions -> WellKeyed (handleRelation typeConfig uninit relation restrictions).
Proof.
  intros Hwell. unfold handleRelation.
  destruct (bool_decide _ || bool_decide _); [|exact Hwell].
  destruct (if bool_decide _ then _ else _) as [ty|]; [|exact Hwell].
  set (st := scanMembers _ _).
  destruct (Z.eqb_spec (slot_from st) 0) as [|Hfrom]; [exact Hwell|].
  destruct (Z.eqb_spec (slot_via st) 0) as [|Hvia]; [exact Hwell|].
  destruct (Z.eqb_spec (slot_to st) 0) as [|Hto]; [exact Hwell|]. simpl.
  intros via rs. unfold push_back_at.
  destruct (decide (slot_via st = via)) as [<-|Hne].
  - rewrite lookup_insert_eq. intros H. inversion H. clear H.
    split; [exact Hvia|]. split.
    + destruct (default [] _); discriminate.
    + apply Forall_app. split; [|repeat constructor; assumption].
      destruct (restrictions !! slot_via st) as [old|] eqn:Hold; [|constructor].
      apply (Hwell _ _ Hold).
  - rewrite lookup_insert_ne by exact Hne. apply Hwell.
Qed.

(** X6. What [ReadRestrictionRelations] stores is well keyed: every key is
    a non-zero via node, no key holds an empty vector, and every
    restriction has a non-zero [from] and [to], whatever the relation
    held and whatever the fields of the local [restriction] held before
    the member loop. *)
Theorem ReadRestrictionRelations_well_keyed (typeConfig : TypeConfig)
    (uninit : nat -> Id * Id) (rawrels : option (list (Slot RawRelation)))
    (restrictions restrictions' : gmap Id (list Restriction)) :
  WellKeyed restrictions ->
  ReadRestrictionRelations typeConfig uninit rawrels restrictions = Some restrictions' ->
  WellKeyed restrictions'.
Proof.
  intros Hwell. rewrite ReadRestrictionRelations_records.
  destruct (recordsOf rawrels) as [relations|]; [|discriminate].
  destruct (_ =? _); [discriminate|].
  intros H. inversion H. clear H. subst restrictions'.
  generalize 1%nat as r. revert restrictions Hwell.
  induction relations as [|relation relations IH]; intros restrictions Hwell r; simpl.
  - exact Hwell.
  - apply IH, WellKeyed_handleRelation, Hwell.
Qed.

Lemma ReadRestrictionRelations_well_keyed_witness :
  exists restrictions,
    ReadRestrictionRelations Ex.restrictionConfig Ex.zeroed (Some Ex.rawrels) ∅
    = Some restrictions /\
    restrictions !! 2 = Some [mkRestriction forbit 30 20] /\
    WellKeyed restrictions.
Proof.
  exists {[ 2 := [mkRestriction forbit 30 20] ]}.
  assert (Hrun : ReadRestrictionRelations Ex.restrictionConfig Ex.zeroed (Some Ex.rawrels) ∅
                 = Some {[ 2 := [mkRestriction forbit 30 20] ]})
    by (vm_compute; reflexivity).
  split; [exact Hrun|]. split; [reflexivity|].
  apply (ReadRestrictionRelations_well_keyed Ex.restrictionConfig Ex.zeroed (Some Ex.rawrels)
           ∅ _); [|exact Hrun].
  intros via rs Hlook. rewrite lookup_empty in Hlook. discriminate.
Defined.

(** *** [ReadJunctions] and [ReadWayEndpoints] on one file *)

(** X7. On one [ways.dat] the two passes fail together: each returns
    [false] exactly when the file is absent, does not start with its
    count, holds fewer decodable ways than the count announces, or
    announces [2^32-1] ways (the [uint32_t] counter then never exceeds the
    count), whatever the junction set and the maps passed in.  On a file
    of fewer than [2^32-1] ways, what follows the announced ways is not
    looked at. *)
Theorem way_readers_fail_together (typeConfig : TypeConfig)
    (waysDat : option (list (Slot Way))) (junctions0 junctions : gset Id)
    (endPointWayMap : gmap Id (list Id)) :
  (ReadJunctions typeConfig waysDat junctions0 = None <->
   recordsOf waysDat = None \/ announcedCount waysDat = Some (2^32 - 1)) /\
  (ReadWayEndpoints typeConfig waysDat junctions endPointWayMap = None <->
   recordsOf waysDat = None \/ announcedCount waysDat = Some (2^32 - 1)) /\
  (forall ways rest,
      Z.of_nat (length ways) < 2^32 - 1 ->
      ReadJunctions typeConfig (Some (waysFile ways ++ rest)) junctions0
      = ReadJunctions typeConfig (Some (waysFile ways)) junctions0 /\
      ReadWayEndpoints typeConfig (Some (waysFile ways ++ rest)) junctions endPointWayMap
      = ReadWayEndpoints typeConfig (Some (waysFile ways)) junctions endPointWayMap /\
      ReadJunctions typeConfig (Some (waysFile ways)) junctions0 <> None).
Proof.
  rewrite ReadJunctions_records, ReadWayEndpoints_records.
  split; [apply reader_fails_iff|]. split; [apply reader_fails_iff|].
  intros ways rest Hlen.
  assert (Hrest : recordsOf (Some (waysFile ways ++ rest)) = Some ways).
  { unfold recordsOf, waysFile. simpl.
    rewrite Z.mod_small by lia. rewrite Nat2Z.id. apply takeRecords_data. }
  rewrite !ReadJunctions_records, !ReadWayEndpoints_records.
  rewrite Hrest, (recordsOf_waysFile ways) by lia.
  destruct (Z.eqb_spec (Z.of_nat (length ways)) (2^32 - 1)); [lia|].
  split; [reflexivity|]. split; [reflexivity|discriminate].
Qed.

Lemma way_readers_fail_together_witness :
  ReadJunctions Ex.typeConfig (Some [SlotCount (2^32 - 1); SlotData Ex.lollipop]) ∅ = None /\
  ReadWayEndpoints Ex.typeConfig (Some [SlotCount (2^32 - 1); SlotData Ex.lollipop])
                   {[ 5 ]} ∅ = None /\
  ReadJunctions Ex.typeConfig (Some (waysFile [Ex.lollipop] ++ [SlotGarbage])) ∅
  = ReadJunctions Ex.typeConfig (Some (waysFile [Ex.lollipop])) ∅.
Proof.
  destruct (way_readers_fail_together Ex.typeConfig
              (Some [SlotCount (2^32 - 1); SlotData Ex.lollipop]) ∅ {[ 5 ]} ∅)
    as (Hjunctions & Hendpoints & Hfile).
  split; [apply Hjunctions; right; reflexivity|].
  split; [apply Hendpoints; right; reflexivity|].
  apply (Hfile [Ex.lollipop] [SlotGarbage]). vm_compute. reflexivity.
Defined.

Lemma lookup_push_back_at (m : gmap Id (list Id)) (key id wayId : Id) :
  push_back_at key wayId m !! id
  = if decide (key = id) then Some (default [] (m !! id) ++ [wayId]) else m !! id.
Proof.
  unfold push_back_at. destruct (decide (key = id)) as [->|Hne].
  - apply lookup_insert_eq.
  - apply lookup_insert_ne, Hne.
Qed.

Lemma lookup_addEndpoints (junctions : gset Id) (wayId : Id) (ns : list Point)
    (m : gmap Id (list Id)) (id : Id) :
  fold_left (addEndpoint junctions wayId) ns m !! id
  = if bool_decide (id ∈ junctions /\ occurrences id ns <> 0%nat)
    then Some (default [] (m !! id) ++ replicate (occurrences id ns) wayId)
    else m !! id.
Proof.
  revert m. induction ns as [|node ns IH]; intros m.
  - simpl. rewrite bool_decide_eq_false_2; [reflexivity|]. unfold occurrences. simpl. tauto.
  - simpl fold_left. rewrite IH. clear IH.
    replace (occurrences id (node :: ns))
      with ((if (GetId node =? id)%Z then 1 else 0) + occurrences id ns)%nat
      by (unfold occurrences; simpl; destruct (GetId node =? id)%Z; reflexivity).
    unfold addEndpoint.
    destruct (Z.eqb_spec (GetId node) id) as [Hid|Hid].
    + rewrite Hid.
      destruct (decide (id ∈ junctions)) as [Hin|Hout].
      * rewrite (bool_decide_eq_true_2 (id ∈ junctions)) by exact Hin.
        rewrite lookup_push_back_at. destruct (decide (id = id)); [|contradiction].
        simpl. rewrite (bool_decide_eq_true_2 (_ /\ (1 + _)%nat <> 0%nat)) by (split; [auto|lia]).
        case_bool_decide as Hrest.
        -- rewrite <- app_assoc. reflexivity.
        -- assert (occurrences id ns = 0%nat) as ->.
           { destruct (occurrences id ns); [reflexivity|].
             exfalso. apply Hrest. split; [exact Hin|discriminate]. }
           reflexivity.
      * rewrite (bool_decide_eq_false_2 (id ∈ junctions)) by exact Hout.
        rewrite !bool_decide_eq_false_2 by tauto. reflexivity.
    + simpl.
      assert (Hsame : (if bool_decide (GetId node ∈ junctions)
                       then push_back_at (GetId node) wayId m else m) !! id = m !! id).
      { case_bool_decide; [|reflexivity].
        rewrite lookup_push_back_at. destruct (decide (GetId node = id)); [contradiction|].
        reflexivity. }
      rewrite Hsame. reflexivity.
Qed.

Lemma listings_cons typeConfig (way : Way) (ways : list Way) (id : Id) :
  listings typeConfig (way :: ways) id
  = (if isRoutable typeConfig way
     then replicate (occurrences id (nodes way)) (way_GetId way) else [])
    ++ listings typeConfig ways id.
Proof. unfold listings. simpl. destruct (isRoutable typeConfig way); reflexivity. Qed.

Lemma lookup_addWayEndpoints typeConfig (junctions : gset Id) (ways : list Way)
    (m : gmap Id (list Id)) (id : Id) :
  fold_left (addWayEndpoints typeConfig junctions) ways m !! id
  = if bool_decide (id ∈ junctions /\ listings typeConfig ways id <> [])
    then Some (default [] (m !! id) ++ listings typeConfig ways id)
    else m !! id.
Proof.
  revert m. induction ways as [|way ways IH]; intros m.
  - simpl. rewrite bool_decide_eq_false_2; [reflexivity|]. unfold listings. simpl. tauto.
  - simpl fold_left. rewrite IH, listings_cons. clear IH.
    unfold addWayEndpoints. rewrite skipWay_isRoutable.
    destruct (isRoutable typeConfig way); simpl; [|reflexivity].
    rewrite lookup_addEndpoints.
    destruct (decide (id ∈ junctions)) as [Hin|Hout].
    2:{ rewrite !bool_decide_eq_false_2 by tauto. reflexivity. }
    destruct (occurrences id (nodes way)) as [|n] eqn:Hocc.
    + rewrite (bool_decide_eq_false_2 (_ /\ 0%nat <> 0%nat)) by tauto. reflexivity.
    + rewrite (bool_decide_eq_true_2 (_ /\ S n <> 0%nat)) by (split; [auto|lia]).
      rewrite (bool_decide_eq_true_2 (_ /\ replicate (S n) _ ++ _ <> [])) by (split; [auto|discriminate]).
      simpl default. case_bool_decide as Hrest.
      * rewrite <- app_assoc. reflexivity.
      * assert (listings typeConfig ways id = []) as ->.
        { destruct (listings typeConfig ways id); [reflexivity|]. exfalso. apply Hrest.
          split; [exact Hin|discriminate]. }
        rewrite app_nil_r. reflexivity.
Qed.

(** X8. On a [ways.dat] that holds the ways [ways], fewer than [2^32-1]
    of them, [ReadWayEndpoints] gives every junction that a routable way
    holds an entry, and no other node: the entry lists the ids of the
    routable ways that hold the junction, in file order, a way once for
    each of its positions that holds the junction (not only its two
    ends). *)
Theorem ReadWayEndpoints_lists_incident_ways (typeConfig : TypeConfig)
    (waysDat : option (list (Slot Way))) (ways : list Way) (junctions : gset Id) :
  recordsOf waysDat = Some ways ->
  Z.of_nat (length ways) < 2^32 - 1 ->
  exists nodeWayMap,
    ReadWayEndpoints typeConfig waysDat junctions ∅ = Some nodeWayMap /\
    forall id,
      nodeWayMap !! id
      = if bool_decide (id ∈ junctions /\ listings typeConfig ways id <> [])
        then Some (listings typeConfig ways id)
        else None.
Proof.
  intros Hfile Hlen. rewrite ReadWayEndpoints_records, Hfile.
  destruct (Z.eqb_spec (Z.of_nat (length ways)) (2^32 - 1)); [lia|].
  eexists. split; [reflexivity|]. intros id.
  rewrite lookup_addWayEndpoints, lookup_empty. reflexivity.
Qed.

Lemma ReadWayEndpoints_lists_incident_ways_witness :
  exists nodeWayMap,
    ReadWayEndpoints Ex.typeConfig (Some (waysFile [Ex.lollipop; Ex.footpath])) {[ 1; 5 ]} ∅
    = Some nodeWayMap /\
    nodeWayMap !! 5 = Some [50; 50] /\ nodeWayMap !! 1 = Some [50] /\ nodeWayMap !! 4 = None.
Proof.
  destruct (ReadWayEndpoints_lists_incident_ways Ex.typeConfig
              (Some (waysFile [Ex.lollipop; Ex.footpath])) [Ex.lollipop; Ex.footpath]
              {[ 1; 5 ]} eq_refl eq_refl) as (nodeWayMap & Hrun & Hlook).
  exists nodeWayMap. split; [exact Hrun|].
  rewrite !Hlook. repeat split.
Defined.

Lemma length_listings typeConfig (ways : list Way) (id : Id) :
  length (listings typeConfig ways id) = appearances typeConfig ways id.
Proof.
  induction ways as [|way ways IH]; [reflexivity|].
  rewrite listings_cons, length_app, IH. unfold appearances. simpl.
  destruct (isRoutable typeConfig way); simpl; [|reflexivity].
  rewrite occurrences_app, length_replicate. reflexivity.
Qed.

Lemma endpoints_of_junctions typeConfig (ways : list Way) :
  let junctions := collectJunctions (fold_left (countWay typeConfig) ways ∅) ∅ in
  let nodeWayMap := fold_left (addWayEndpoints typeConfig junctions) ways ∅ in
  (forall id, id ∈ junctions <-> (2 <= appearances typeConfig ways id)%nat) /\
  dom nodeWayMap = junctions /\
  forall id wayIds, nodeWayMap !! id = Some wayIds ->
    wayIds = listings typeConfig ways id /\ (2 <= length wayIds)%nat.
Proof.
  intros junctions nodeWayMap.
  assert (Hjunction : forall id, id ∈ junctions <-> (2 <= appearances typeConfig ways id)%nat).
  { intros id. unfold junctions. rewrite elem_of_collectJunctions, countOf_ways.
    unfold countOf. rewrite lookup_empty. simpl.
    split; [intros [H|H]; [set_solver|exact H]|auto]. }
  split; [exact Hjunction|]. split.
  - apply set_eq. intros id. unfold nodeWayMap.
    rewrite elem_of_dom, lookup_addWayEndpoints, lookup_empty.
    case_bool_decide as Hid.
    + split; [tauto|]. intros _. eexists. reflexivity.
    + split; [intros [l Hl]; discriminate|]. intros Hin. exfalso. apply Hid.
      split; [exact Hin|]. apply Hjunction in Hin. rewrite <- length_listings in Hin.
      destruct (listings typeConfig ways id); [simpl in Hin; lia|discriminate].
  - intros id wayIds. unfold nodeWayMap. rewrite lookup_addWayEndpoints, lookup_empty.
    case_bool_decide as Hid; [|discriminate].
    simpl. intros H. inversion H. clear H. split; [reflexivity|].
    rewrite length_listings. apply Hjunction, Hid.
Qed.

(** X9. The two passes over one [ways.dat] of fewer than [2^32-1] ways
    compose: every junction that [ReadJunctions] finds gets an entry in
    the node way map of [ReadWayEndpoints], no other node gets one, and
    every entry lists at least two ways (a way counted once per
    position). *)
Theorem junctions_list_two_ways (typeConfig : TypeConfig)
    (waysDat : option (list (Slot Way))) (ways : list Way) :
  recordsOf waysDat = Some ways ->
  Z.of_nat (length ways) < 2^32 - 1 ->
  exists junctions nodeWayMap,
    ReadJunctions typeConfig waysDat ∅ = Some junctions /\
    ReadWayEndpoints typeConfig waysDat junctions ∅ = Some nodeWayMap /\
    dom nodeWayMap = junctions /\
    forall id wayIds, nodeWayMap !! id = Some wayIds ->
      wayIds = listings typeConfig ways id /\ (2 <= length wayIds)%nat.
Proof.
  intros Hfile Hlen.
  set (junctions := collectJunctions (fold_left (countWay typeConfig) ways ∅) ∅).
  exists junctions, (fold_left (addWayEndpoints typeConfig junctions) ways ∅).
  rewrite ReadJunctions_records, ReadWayEndpoints_records, Hfile.
  destruct (Z.eqb_spec (Z.of_nat (length ways)) (2^32 - 1)); [lia|].
  split; [reflexivity|]. split; [reflexivity|].
  destruct (endpoints_of_junctions typeConfig ways) as (_ & Hdom & Hlists).
  split; [exact Hdom|exact Hlists].
Qed.

Lemma junctions_list_two_ways_witness :
  exists junctions nodeWayMap,
    ReadJunctions Ex.typeConfig (Some (waysFile Ex.triangleWays)) ∅ = Some junctions /\
    ReadWayEndpoints Ex.typeConfig (Some (waysFile Ex.triangleWays)) junctions ∅
    = Some nodeWayMap /\
    dom nodeWayMap = junctions /\
    forall id wayIds, nodeWayMap !! id = Some wayIds -> (2 <= length wayIds)%nat.
Proof.
  destruct (junctions_list_two_ways Ex.typeConfig (Some (waysFile Ex.triangleWays))
              Ex.triangleWays eq_refl eq_refl)
    as (junctions & nodeWayMap & Hj & He & Hdom & Hall).
  exists junctions, nodeWayMap. split; [exact Hj|]. split; [exact He|]. split; [exact Hdom|].
  intros id wayIds Hlook. apply (Hall id wayIds Hlook).
Defined.

(** ** [LoadWays]: what it loads and when it succeeds *)

Lemma record_Read_lookup {A : Type} (sc sc' : FileScanner A) (a : A) :
  record_Read sc = (Some a, sc') -> fs_file sc !! fs_pos sc = Some (SlotData a).
Proof.
  unfold record_Read. destruct (fs_hasError sc); [discriminate|].
  destruct (fs_file sc !! fs_pos sc) as [[n|a'|]|]; try discriminate.
  intros H. inversion H. reflexivity.
Qed.

Lemma lookupOffsets_Some (wayIndex : gmap Id FileOffset) (ids : list Id)
    (offsets : list FileOffset) :
  lookupOffsets wayIndex ids = Some offsets <->
  Forall2 (fun id offset => wayIndex !! id = Some offset) ids offsets.
Proof.
  revert offsets. induction ids as [|id ids IH]; intros offsets; simpl.
  - split.
    + intros H. inversion H. constructor.
    + intros H. inversion H. reflexivity.
  - split.
    + destruct (wayIndex !! id) as [offset|] eqn:Hid; [|discriminate].
      destruct (lookupOffsets wayIndex ids) as [rest|]; [|discriminate].
      intros H. inversion H. subst. constructor; [exact Hid|]. apply IH. reflexivity.
    + intros H. inversion H as [|? offset ? rest Hid Hrest]. subst.
      rewrite Hid. apply IH in Hrest. rewrite Hrest. reflexivity.
Qed.

Lemma LoadWays_loop_loaded (offsets : list FileOffset) (sc sc' : FileScanner Way)
    (ways ways' : list Way) :
  LoadWays_loop offsets sc ways = (true, sc', ways') ->
  exists loaded,
    ways' = ways ++ loaded /\
    Forall2 (fun offset way => fs_file sc !! offset = Some (SlotData way)) offsets loaded.
Proof.
  revert sc ways. induction offsets as [|offset rest IH]; intros sc ways; simpl.
  - intros H. inversion H. exists []. rewrite app_nil_r. split; [reflexivity|constructor].
  - destruct (scanner_SetPos offset sc) as [[] sc1] eqn:Hset; [|discriminate].
    apply scanner_SetPos_true in Hset as [Herr ->].
    destruct (record_Read _) as [[way|] sc2] eqn:Hread; [|discriminate].
    pose proof (record_Read_lookup _ _ _ Hread) as Hslot.
    apply record_Read_Some in Hread as [_ ->]. simpl in *.
    intros H. apply IH in H as (loaded & -> & Hall). simpl in Hall.
    exists (way :: loaded). rewrite <- app_assoc. split; [reflexivity|].
    constructor; assumption.
Qed.

Lemma LoadWays_loop_succeeds (offsets : list FileOffset) (sc : FileScanner Way)
    (ways loaded : list Way) :
  fs_hasError sc = false ->
  Forall2 (fun offset way => fs_file sc !! offset = Some (SlotData way)) offsets loaded ->
  exists pos,
    LoadWays_loop offsets sc ways = (true, mkScanner (fs_file sc) pos false, ways ++ loaded).
Proof.
  intros Herr Hall. revert sc ways loaded Herr Hall.
  induction offsets as [|offset rest IH]; intros sc ways loaded Herr Hall.
  - inversion Hall. subst. exists (fs_pos sc). simpl. rewrite app_nil_r.
    destruct sc; simpl in *. subst. reflexivity.
  - inversion Hall as [|? way ? loaded' Hslot Hrest]. subst.
    simpl. unfold scanner_SetPos. rewrite Herr.
    pose proof (lookup_lt_Some _ _ _ Hslot) as Hlt.
    destruct (Nat.ltb_spec (length (fs_file sc)) offset) as [|_]; [lia|].
    unfold record_Read. simpl. rewrite Hslot. simpl.
    destruct (IH (mkScanner (fs_file sc) (S offset) false) (ways ++ [way]) loaded' eq_refl
                 Hrest) as [pos Hloop].
    exists pos. rewrite Hloop. simpl. rewrite <- app_assoc. reflexivity.
Qed.

Lemma indexed_records_of_offsets (wayIndex : gmap Id FileOffset) (file : list (Slot Way))
    (sorted : list Id) (offsets : list FileOffset) (loaded : list Way) :
  Forall2 (fun id offset => wayIndex !! id = Some offset) sorted offsets ->
  Forall2 (fun offset way => file !! offset = Some (SlotData way)) offsets loaded ->
  Forall2 (indexedRecord wayIndex file) sorted loaded.
Proof.
  intros Hoffsets. revert loaded.
  induction Hoffsets as [|id offset sorted' offsets' Hid Hrest IH];
    intros loaded Hloaded; inversion Hloaded; subst; constructor.
  - exists offset. auto.
  - apply IH. assumption.
Qed.

(** X10. When [LoadWays] returns [true] it has appended to [ways] one way
    for each id of [ids], in ascending order of the ids: the record at
    the offset the index gives for the id.  The id the record itself
    carries is not compared with the id asked for. *)
Theorem LoadWays_loads_indexed_records (scanner scanner' : FileScanner Way)
    (wayIndex : gmap Id FileOffset) (ids : gset Id) (ways ways' : list Way) :
  LoadWays scanner wayIndex ids ways = (true, scanner', ways') ->
  exists loaded,
    ways' = ways ++ loaded /\
    Forall2 (indexedRecord wayIndex (fs_file scanner))
            (merge_sort Z.le (elements ids)) loaded.
Proof.
  unfold LoadWays, GetOffsets.
  destruct (lookupOffsets wayIndex _) as [offsets|] eqn:Hoffsets; [|discriminate].
  apply lookupOffsets_Some in Hoffsets.
  destruct (scanner_GetPos scanner) as [oldPos|]; [|discriminate].
  destruct (LoadWays_loop offsets scanner ways) as [[[] sc1] ways1] eqn:Hloop;
    [|discriminate].
  apply LoadWays_loop_loaded in Hloop as (loaded & -> & Hloaded).
  destruct (scanner_SetPos oldPos sc1) as [[] sc2]; [|discriminate].
  intros H. inversion H. subst. clear H. exists loaded. split; [reflexivity|].
  apply (indexed_records_of_offsets _ _ _ offsets); assumption.
Qed.

Lemma LoadWays_loads_indexed_records_witness :
  exists loaded,
    snd (LoadWays Ex.triangleScanner Ex.triangleIndex {[ 40; 20 ]} []) = [] ++ loaded /\
    Forall2 (indexedRecord Ex.triangleIndex (fs_file Ex.triangleScanner))
            (merge_sort Z.le (elements ({[ 40; 20 ]} : gset Id))) loaded /\
    map way_GetId loaded = [20; 40].
Proof.
  destruct (LoadWays_loads_indexed_records Ex.triangleScanner Ex.triangleScanner
              Ex.triangleIndex {[ 40; 20 ]} [] [Ex.triangle; Ex.spur3])
    as (loaded & Hways & Hall).
  - vm_compute. reflexivity.
  - exists loaded. simpl in Hways. subst loaded.
    split; [vm_compute; reflexivity|]. split; [exact Hall|reflexivity].
Defined.

(** X11. [LoadWays] returns [true] exactly when the scanner has no error
    and stands inside its file, and the index gives every id of [ids] an
    offset at which the file holds a decodable way.  A single id that the
    index does not know makes it return [false]. *)
Theorem LoadWays_succeeds_iff (scanner : FileScanner Way)
    (wayIndex : gmap Id FileOffset) (ids : gset Id) (ways : list Way) :
  fst (fst (LoadWays scanner wayIndex ids ways)) = true <->
  fs_hasError scanner = false /\
  (fs_pos scanner <= length (fs_file scanner))%nat /\
  forall id, id ∈ ids -> exists way, indexedRecord wayIndex (fs_file scanner) id way.
Proof.
  split.
  - unfold LoadWays, GetOffsets.
    destruct (lookupOffsets wayIndex _) as [offsets|] eqn:Hoffsets; [|discriminate].
    apply lookupOffsets_Some in Hoffsets.
    unfold scanner_GetPos. destruct (fs_hasError scanner) eqn:Herr; [discriminate|].
    destruct (LoadWays_loop offsets scanner ways) as [[[] sc1] ways1] eqn:Hloop;
      [|discriminate].
    pose proof (LoadWays_loop_loaded _ _ _ _ _ Hloop) as (loaded & _ & Hloaded).
    pose proof (indexed_records_of_offsets _ _ _ _ _ Hoffsets Hloaded) as Hall.
    apply LoadWays_loop_true in Hloop as [Hfile Hflag].
    unfold scanner_SetPos. rewrite Hflag, Herr, Hfile.
    destruct (Nat.ltb_spec (length (fs_file scanner)) (fs_pos scanner)); [discriminate|].
    intros _. split; [reflexivity|]. split; [assumption|].
    intros id Hin.
    assert (Hsorted : id ∈ merge_sort Z.le (elements ids)).
    { rewrite (merge_sort_Permutation Z.le _). apply elem_of_elements, Hin. }
    apply list_elem_of_lookup in Hsorted as [i Hi].
    destruct (Forall2_lookup_l _ _ _ _ _ Hall Hi) as (way & _ & Hway).
    exists way. exact Hway.
  - intros (Herr & Hpos & Hids).
    assert (Hoffsets : exists offsets loaded,
              lookupOffsets wayIndex (merge_sort Z.le (elements ids)) = Some offsets /\
              Forall2 (fun offset way => fs_file scanner !! offset = Some (SlotData way))
                      offsets loaded).
    { assert (Hall : forall id, id ∈ merge_sort Z.le (elements ids) ->
                exists way, indexedRecord wayIndex (fs_file scanner) id way).
      { intros id Hin. apply Hids. rewrite (merge_sort_Permutation Z.le _) in Hin.
        apply elem_of_elements, Hin. }
      revert Hall. generalize (merge_sort Z.le (elements ids)). intros sorted.
      induction sorted as [|id sorted IH]; intros Hall.
      - exists [], []. split; [reflexivity|constructor].
      - destruct (Hall id) as (way & offset & Hid & Hslot); [left|].
        destruct IH as (offsets & loaded & Hrest & Hloaded).
        { intros id' Hin. apply Hall. right. exact Hin. }
        exists (offset :: offsets), (way :: loaded). simpl. rewrite Hid, Hrest.
        split; [reflexivity|]. constructor; assumption. }
    destruct Hoffsets as (offsets & loaded & Hoffsets & Hloaded).
    unfold LoadWays, GetOffsets. rewrite Hoffsets.
    unfold scanner_GetPos. rewrite Herr.
    destruct (LoadWays_loop_succeeds offsets scanner ways loaded Herr Hloaded) as [pos Hloop].
    rewrite Hloop. unfold scanner_SetPos. simpl.
    destruct (Nat.ltb_spec (length (fs_file scanner)) (fs_pos scanner)); [lia|].
    reflexivity.
Qed.

Lemma LoadWays_succeeds_iff_witness :
  fst (fst (LoadWays Ex.triangleScanner Ex.triangleIndex {[ 20; 40 ]} [])) = true /\
  fst (fst (LoadWays Ex.triangleScanner Ex.triangleIndex {[ 20; 50 ]} [])) = false.
Proof.
  split.
  - vm_compute. reflexivity.
  - apply not_true_is_false. intros Hok.
    apply (LoadWays_succeeds_iff Ex.triangleScanner Ex.triangleIndex {[ 20; 50 ]} []) in Hok
      as (_ & _ & Hids).
    destruct (Hids 50) as (way & offset & Hlook & _); [set_solver|].
    vm_compute in Hlook. discriminate.
Defined.

(** ** The route graph *)

Lemma nth_elem_of {T : Type} (l : list T) (d : T) (i : nat) :
  d ∈ l -> nth i l d ∈ l.
Proof.
  intros Hd. destruct (Nat.lt_ge_cases i (length l)) as [Hlt|Hge].
  - apply list_elem_of_In, nth_In, Hlt.
  - rewrite nth_overflow by exact Hge. exact Hd.
Qed.

Lemma searchBackward_spec (nodeWayMap : gmap Id (list Id)) (ns : list Point) (d : Point)
    (j0 j : nat) :
  searchBackward nodeWayMap ns d j0 = Some j <->
  (j <= j0)%nat /\ isRouteNode nodeWayMap (GetId (nth j ns d)) = true /\
  forall k : nat, (j < k)%nat -> (k <= j0)%nat ->
    isRouteNode nodeWayMap (GetId (nth k ns d)) = false.
Proof.
  induction j0 as [|j0 IH]; simpl.
  - destruct (isRouteNode nodeWayMap (GetId (nth 0 ns d))) eqn:H0.
    + split.
      * intros H. inversion H. subst. split; [lia|]. split; [exact H0|]. intros; lia.
      * intros (Hle & _ & _). f_equal. lia.
    + split; [discriminate|]. intros (Hle & Hj & _).
      assert (j = 0%nat) as -> by lia. congruence.
  - destruct (isRouteNode nodeWayMap (GetId (nth (S j0) ns d))) eqn:Hhere.
    + split.
      * intros H. inversion H. subst. split; [lia|]. split; [exact Hhere|]. intros; lia.
      * intros (Hle & _ & Hnone). f_equal.
        destruct (Nat.eq_dec j (S j0)) as [|Hne]; [congruence|].
        rewrite (Hnone (S j0)) in Hhere by lia. discriminate.
    + rewrite IH. split.
      * intros (Hle & Hj & Hnone). split; [lia|]. split; [exact Hj|].
        intros k Hlo Hhi. destruct (Nat.eq_dec k (S j0)) as [->|Hne]; [exact Hhere|].
        apply Hnone; lia.
      * intros (Hle & Hj & Hnone).
        assert (j <> S j0) by (intros ->; congruence).
        split; [lia|]. split; [exact Hj|]. intros k Hlo Hhi. apply Hnone; lia.
Qed.

Lemma searchForward_spec (nodeWayMap : gmap Id (list Id)) (ns : list Point) (d : Point)
    (fuel j0 j : nat) :
  searchForward fuel nodeWayMap ns d j0 = Some j <->
  (j0 <= j)%nat /\ (j < j0 + fuel)%nat /\
  isRouteNode nodeWayMap (GetId (nth j ns d)) = true /\
  forall k : nat, (j0 <= k)%nat -> (k < j)%nat ->
    isRouteNode nodeWayMap (GetId (nth k ns d)) = false.
Proof.
  revert j0. induction fuel as [|fuel IH]; intros j0; simpl.
  - split; [discriminate|]. intros (? & ? & _). lia.
  - destruct (isRouteNode nodeWayMap (GetId (nth j0 ns d))) eqn:Hhere.
    + split.
      * intros H. inversion H. subst. split; [lia|]. split; [lia|].
        split; [exact Hhere|]. intros; lia.
      * intros (Hlo & _ & _ & Hnone). f_equal.
        destruct (Nat.eq_dec j j0) as [|Hne]; [congruence|].
        rewrite (Hnone j0) in Hhere by lia. discriminate.
    + rewrite IH. split.
      * intros (Hlo & Hhi & Hj & Hnone). split; [lia|]. split; [lia|].
        split; [exact Hj|]. intros k Hk1 Hk2.
        destruct (Nat.eq_dec k j0) as [->|Hne]; [exact Hhere|]. apply Hnone; lia.
      * intros (Hlo & Hhi & Hj & Hnone).
        assert (j <> j0) by (intros ->; congruence).
        split; [lia|]. split; [lia|]. split; [exact Hj|].
        intros k Hk1 Hk2. apply Hnone; lia.
Qed.

Section GraphProperties.
Variable dist : float -> float -> float -> float -> float.
Variable accessBit : Z.
Variable medium : Medium.

Lemma searchBackward_find (nodeWayMap : gmap Id (list Id)) (ns : list Point) (d : Point)
    (j : nat) :
  searchBackward nodeWayMap ns d j = routeNodeBefore nodeWayMap ns d (S j).
Proof.
  unfold routeNodeBefore. induction j as [|j IH].
  - simpl. destruct (isRouteNode _ _); reflexivity.
  - rewrite (seq_S (S j)), rev_app_distr. cbn [rev app Nat.add List.find].
    cbn [searchBackward].
    destruct (isRouteNode nodeWayMap (GetId (nth (S j) ns d))); [reflexivity|exact IH].
Qed.

Lemma searchForward_find (nodeWayMap : gmap Id (list Id)) (ns : list Point) (d : Point)
    (fuel : nat) :
  forall j,
    searchForward fuel nodeWayMap ns d j
    = List.find (fun j => isRouteNode nodeWayMap (GetId (nth j ns d))) (seq j fuel).
Proof.
  induction fuel as [|fuel IH]; intros j; simpl; [reflexivity|].
  destruct (isRouteNode _ _); [reflexivity|apply IH].
Qed.

(** X12. The paths an open way (not an area, its two ends different
    nodes) contributes to the route node of junction [nodeId], in the
    order they are appended: the places of the way are gone through in
    ascending order, and at every place that holds the junction there
    comes first, unless the way is one-way, the path to the nearest route
    node before it, then the path to the nearest route node behind it,
    each only where there is such a node.  The distance of a path is the
    sum of the segment lengths between the two places, added up from the
    lower place to the higher in both directions. *)
Theorem open_way_paths (nodeWayMap : gmap Id (list Id)) (nodeId : Id) (way : Way)
    (index : nat) (d : Point) :
  normalRouting dist accessBit nodeWayMap nodeId way index d
  = flat_map
      (fun i =>
         if GetId (nth i (nodes way) d) =? nodeId then
           (if IsOneway way then []
            else match routeNodeBefore nodeWayMap (nodes way) d i with
                 | Some j => [makePath accessBit way index (nth j (nodes way) d)
                                (sumSegments dist (nodes way) d j i)]
                 | None => []
                 end)
           ++ match routeNodeAfter nodeWayMap (nodes way) d i with
              | Some j => [makePath accessBit way index (nth j (nodes way) d)
                             (sumSegments dist (nodes way) d i j)]
              | None => []
              end
         else [])
      (seq 0 (length (nodes way))).
Proof.
  unfold normalRouting. apply flat_map_ext. intros i.
  unfold normalRoutingAt.
  destruct (GetId (nth i (nodes way) d) =? nodeId); [|reflexivity].
  f_equal.
  - destruct i as [|i'].
    + destruct (IsOneway way); reflexivity.
    + destruct (IsOneway way); [reflexivity|]. cbn [negb].
      rewrite searchBackward_find. reflexivity.
  - unfold routeNodeAfter. rewrite searchForward_find.
    replace (i + 1)%nat with (S i) by lia.
    destruct (Nat.ltb_spec (S i) (length (nodes way))) as [_|Hend]; [reflexivity|].
    replace (length (nodes way) - S i)%nat with 0%nat by lia. reflexivity.
Qed.

(** *** One record per route node, in ascending order *)

Lemma elem_of_collectWayIds (block : list (Id * list Id)) (wayId : Id) :
  wayId ∈ collectWayIds block <-> exists node, node ∈ block /\ wayId ∈ snd node.
Proof.
  unfold collectWayIds.
  assert (Hinner : forall (l : list Id) (acc : gset Id),
            wayId ∈ fold_left (fun wayIds wayId => {[ wayId ]} ∪ wayIds) l acc <->
            wayId ∈ acc \/ wayId ∈ l).
  { induction l as [|w l IH]; intros acc; simpl.
    - rewrite elem_of_nil. tauto.
    - rewrite IH, elem_of_union, elem_of_singleton, elem_of_cons. tauto. }
  enough (Houter : forall acc : gset Id,
            wayId ∈ fold_left
                      (fun wayIds node =>
                         fold_left (fun wayIds wayId => {[ wayId ]} ∪ wayIds) (snd node) wayIds)
                      block acc <->
            wayId ∈ acc \/ exists node, node ∈ block /\ wayId ∈ snd node).
  { rewrite Houter. split; [intros [H|H]; [set_solver|exact H]|auto]. }
  induction block as [|node block IH]; intros acc; simpl.
  - split; [auto|]. intros [H|(node & Hin & _)]; [exact H|].
    apply elem_of_nil in Hin. contradiction.
  - rewrite IH, Hinner. split.
    + intros [[H|H]|(node' & Hin & Hw)]; [auto| |].
      * right. exists node. split; [left|exact H].
      * right. exists node'. split; [right; exact Hin|exact Hw].
    + intros [H|(node' & Hin & Hw)]; [auto|].
      apply elem_of_cons in Hin as [->|Hin]; [auto|].
      right. exists node'. auto.
Qed.

Lemma collectWayIds_nonempty (block : list (Id * list Id)) :
  block <> [] -> Forall (fun node => snd node <> []) block -> collectWayIds block <> ∅.
Proof.
  intros Hblock Hall Hempty.
  destruct block as [|node block]; [contradiction|].
  inversion Hall as [|? ? Hnode _]. subst.
  destruct (snd node) as [|wayId wayIds] eqn:Hways; [contradiction|].
  assert (Hin : wayId ∈ collectWayIds (node :: block)).
  { apply elem_of_collectWayIds. exists node. split; [left|]. rewrite Hways. left. }
  rewrite Hempty in Hin. set_solver.
Qed.

Lemma storeRouteNodes_ids restrictions nodeWayMap waysMap block st rns status st' :
  storeRouteNodes dist accessBit medium restrictions nodeWayMap waysMap block st = (status, st') ->
  Written st rns ->
  exists new,
    Written st' (rns ++ new) /\
    map rn_id new `sublist_of` map fst block /\
    (status = Ok -> map rn_id new = map fst block).
Proof.
  revert st rns. induction block as [|node rest IH]; intros st rns; simpl.
  - intros H Hw. inversion H. subst. exists []. rewrite app_nil_r.
    split; [exact Hw|]. split; [constructor|reflexivity].
  - destruct (buildRouteNode _ _ _ _ _ node) as [rn|] eqn:Hbuild.
    + destruct (RouteNode_Write_cases medium rn (bs_writer st))
        as [Hwrite|Hwrite]; rewrite Hwrite; intros H Hw.
      * apply IH with (rns := rns ++ [rn]) in H; [|apply Written_put; exact Hw].
        destruct H as (new & Hw' & Hsub & Hok).
        apply buildRouteNode_inv in Hbuild as (Hid & _).
        exists (rn :: new). rewrite <- app_assoc in Hw'. simpl. rewrite Hid.
        split; [exact Hw'|]. split; [constructor; exact Hsub|].
        intros Hs. rewrite (Hok Hs). reflexivity.
      * inversion H. subst. exists []. rewrite app_nil_r.
        split; [exact Hw|]. split; [apply sublist_nil_l|discriminate].
    + intros H Hw. inversion H. subst. exists []. rewrite app_nil_r.
      split; [exact Hw|]. split; [apply sublist_nil_l|discriminate].
Qed.

Lemma processBlock_ids restrictions nodeWayMap wayIdx block st rns status st' :
  processBlock dist accessBit medium restrictions nodeWayMap wayIdx block st = (status, st') ->
  Written st rns ->
  exists new,
    Written st' (rns ++ new) /\
    map rn_id new `sublist_of` map fst block /\
    (status = Ok -> collectWayIds block <> ∅ -> map rn_id new = map fst block).
Proof.
  unfold processBlock. case_bool_decide as Hempty.
  - intros H Hw. inversion H. subst. exists []. rewrite app_nil_r.
    split; [exact Hw|]. split; [apply sublist_nil_l|contradiction].
  - destruct (LoadWays _ _ _ _) as [[[] scanner] ways].
    + intros H Hw. apply storeRouteNodes_ids with (rns := rns) in H; [|exact Hw].
      destruct H as (new & Hw' & Hsub & Hok). exists new. auto.
    + intros H Hw. inversion H. subst. exists []. rewrite app_nil_r.
      split; [exact Hw|]. split; [apply sublist_nil_l|discriminate].
Qed.

Lemma Import_loop_ids fuel restrictions nodeWayMap wayIdx blockSize entries st rns
    status st' :
  Import_loop dist accessBit medium fuel restrictions nodeWayMap wayIdx blockSize entries st
  = (status, st') ->
  Written st rns ->
  exists new,
    Written st' (rns ++ new) /\
    map rn_id new `sublist_of` map fst entries /\
    (status = Ok -> Forall (fun node => snd node <> []) entries ->
     map rn_id new = map fst entries).
Proof.
  revert entries st rns. induction fuel as [|fuel IH]; intros entries st rns.
  - destruct entries; simpl; intros H Hw; inversion H; subst; exists [];
      rewrite app_nil_r; (split; [exact Hw|]); (split; [apply sublist_nil_l|]);
      [reflexivity|discriminate].
  - destruct entries as [|e entries'] eqn:He.
    { simpl. intros H Hw. inversion H. subst. exists []. rewrite app_nil_r.
      split; [exact Hw|]. split; [constructor|reflexivity]. }
    rewrite <- He. intros H Hw.
    assert (Hstep :
      match processBlock dist accessBit medium restrictions nodeWayMap wayIdx
              (take blockSize entries) st with
      | (Ok, st1) => Import_loop dist accessBit medium fuel restrictions nodeWayMap wayIdx
                       blockSize (drop blockSize entries) st1
      | other => other
      end = (status, st')).
    { rewrite <- H. rewrite He. reflexivity. }
    clear H.
    destruct (processBlock _ _ _ _ _ _ _) as [status1 st1] eqn:Hblock.
    apply processBlock_ids with (rns := rns) in Hblock; [|exact Hw].
    destruct Hblock as (new1 & Hw1 & Hsub1 & Hok1).
    assert (Hsplit : map fst entries
                     = map fst (take blockSize entries) ++ map fst (drop blockSize entries)).
    { rewrite <- map_app, take_drop. reflexivity. }
    destruct status1.
    + apply IH with (rns := rns ++ new1) in Hstep; [|exact Hw1].
      destruct Hstep as (new2 & Hw2 & Hsub2 & Hok2).
      exists (new1 ++ new2). rewrite app_assoc. split; [exact Hw2|].
      rewrite map_app, Hsplit. split; [apply sublist_app; assumption|].
      intros Hs Hall.
      rewrite (Hok2 Hs) by (apply Forall_drop, Hall). f_equal.
      destruct (take blockSize entries) as [|b block] eqn:Hb.
      * apply sublist_nil_r in Hsub1. exact Hsub1.
      * apply Hok1; [reflexivity|]. apply collectWayIds_nonempty; [discriminate|].
        rewrite <- Hb. apply Forall_take, Hall.
    + inversion Hstep. subst. exists new1. split; [exact Hw1|].
      split; [|discriminate]. rewrite Hsplit, <- (app_nil_r (map rn_id new1)).
      apply sublist_app; [exact Hsub1|apply sublist_nil_l].
    + inversion Hstep. subst. exists new1. split; [exact Hw1|].
      split; [|discriminate]. rewrite Hsplit, <- (app_nil_r (map rn_id new1)).
      apply sublist_app; [exact Hsub1|apply sublist_nil_l].
    + inversion Hstep. subst. exists new1. split; [exact Hw1|].
      split; [|discriminate]. rewrite Hsplit, <- (app_nil_r (map rn_id new1)).
      apply sublist_app; [exact Hsub1|apply sublist_nil_l].
Qed.

Lemma keys_mapEntries (nodeWayMap : gmap Id (list Id)) :
  map fst (mapEntries nodeWayMap) = merge_sort Z.le (elements (dom nodeWayMap)).
Proof. unfold mapEntries. rewrite map_map. simpl. apply map_id. Qed.

Lemma StronglySorted_strict (l : list Z) :
  StronglySorted Z.le l -> NoDup l -> StronglySorted Z.lt l.
Proof.
  induction 1 as [|x l Hsorted IH Hall]; intros Hnodup; [constructor|].
  apply NoDup_cons in Hnodup as [Hx Hl].
  constructor; [apply IH, Hl|].
  rewrite Forall_forall in *. intros y Hy.
  specialize (Hall y Hy). assert (x <> y) by (intros ->; contradiction). lia.
Qed.

Lemma StronglySorted_sublist (l k : list Z) :
  l `sublist_of` k -> StronglySorted Z.lt k -> StronglySorted Z.lt l.
Proof.
  induction 1 as [|x l k Hsub IH|x l k Hsub IH]; intros Hsorted.
  - constructor.
  - apply StronglySorted_inv in Hsorted as [Hk Hall].
    constructor; [apply IH, Hk|].
    rewrite Forall_forall in *. intros y Hy. apply Hall.
    eapply elem_of_sublist; [exact Hy|exact Hsub].
  - apply StronglySorted_inv in Hsorted as [Hk _]. apply IH, Hk.
Qed.

Lemma writeRouteNodes_ids restrictions nodeWayMap wayIdx blockSize scanner status st :
  writeRouteNodes dist accessBit medium restrictions nodeWayMap wayIdx blockSize scanner
  = (status, st) ->
  map rn_id (routeNodesOf (fw_items (bs_writer st)))
    `sublist_of` merge_sort Z.le (elements (dom nodeWayMap)) /\
  (status = Ok -> NoEmptyList nodeWayMap ->
   map rn_id (routeNodesOf (fw_items (bs_writer st)))
   = merge_sort Z.le (elements (dom nodeWayMap))).
Proof.
  unfold writeRouteNodes. intros H.
  apply Import_loop_ids with (rns := []) in H; [|apply Written_start].
  destruct H as (new & Hw & Hsub & Hok). simpl in Hw.
  apply records_of_run in Hw as [-> _]. rewrite keys_mapEntries in *.
  split; [exact Hsub|]. intros Hs Hne. apply Hok; [exact Hs|].
  apply Forall_forall. intros node Hin. apply mapEntries_elem in Hin.
  apply (Hne _ _ Hin).
Qed.

(** X13. The records of [route.dat] are in strictly ascending order of
    their node ids, each the id of an entry of the node way map, however
    the build phase ends (also in the file a failed run leaves behind).
    When it runs through and no entry of the map is an empty list, there
    is exactly one record for every entry. *)
Theorem records_ascending_by_id restrictions nodeWayMap wayIdx blockSize scanner status st :
  writeRouteNodes dist accessBit medium restrictions nodeWayMap wayIdx blockSize scanner
  = (status, st) ->
  StronglySorted Z.lt (map rn_id (routeNodesOf (fw_items (bs_writer st)))) /\
  (forall rn, rn ∈ routeNodesOf (fw_items (bs_writer st)) ->
              isRouteNode nodeWayMap (rn_id rn) = true) /\
  (status = Ok -> NoEmptyList nodeWayMap ->
   map rn_id (routeNodesOf (fw_items (bs_writer st)))
   = merge_sort Z.le (elements (dom nodeWayMap))).
Proof.
  intros Hrun. apply writeRouteNodes_ids in Hrun as [Hsub Hok].
  split; [|split; [|exact Hok]].
  - apply (StronglySorted_sublist _ _ Hsub), StronglySorted_strict.
    + apply StronglySorted_merge_sort; apply _.
    + rewrite (merge_sort_Permutation Z.le _). apply NoDup_elements.
  - intros rn Hin.
    assert (Hid : rn_id rn ∈ merge_sort Z.le (elements (dom nodeWayMap))).
    { eapply elem_of_sublist; [|exact Hsub]. apply list_elem_of_fmap_2, Hin. }
    rewrite (merge_sort_Permutation Z.le _) in Hid.
    apply elem_of_elements, elem_of_dom in Hid as [wayIds Hlook].
    unfold isRouteNode. rewrite Hlook. reflexivity.
Qed.

(** *** Where paths lead *)

Lemma findCurrentNode_ge (ns : list Point) (id : Id) (k : Z) :
  k <= findCurrentNode ns id k.
Proof.
  revert k. induction ns as [|p ns IH]; intros k; simpl; [lia|].
  destruct (GetId p =? id); [lia|]. specialize (IH (k + 1)). lia.
Qed.

(** Every path [routeWay] makes leads to a node of the way that is a
    route node, and is filled from the way and that node. *)
Lemma ringRouting_targets nodeWayMap nodeId way index backward ps :
  ringRouting dist accessBit nodeWayMap nodeId way index backward = Some ps ->
  Forall (fun p => exists target d,
            target ∈ nodes way /\ isRouteNode nodeWayMap (GetId target) = true /\
            p = makePath accessBit way index target d) ps.
Proof.
  unfold ringRouting.
  destruct (nodes way !! _) as [cur|] eqn:Hcur; [|discriminate].
  assert (Hin : cur ∈ nodes way) by (eapply list_elem_of_lookup_2; exact Hcur).
  assert (Hrange : 0 <= findCurrentNode (nodes way) nodeId 0 < Z.of_nat (length (nodes way))).
  { pose proof (findCurrentNode_ge (nodes way) nodeId 0).
    apply lookup_lt_Some in Hcur. lia. }
  pose proof (walkRing_next_exits dist nodeWayMap (nodes way) cur _
                (segment dist cur (nodeAt (nodes way) cur
                   (stepNext (Z.of_nat (length (nodes way)))
                      (findCurrentNode (nodes way) nodeId 0)))) Hrange) as [_ Hnext].
  pose proof (walkRing_prev_exits dist nodeWayMap (nodes way) cur _
                (segment dist cur (nodeAt (nodes way) cur
                   (stepPrev (Z.of_nat (length (nodes way)))
                      (findCurrentNode (nodes way) nodeId 0)))) Hrange) as [_ Hprev].
  destruct (walkRing dist _ stepNext _ _ _ _ _ _) as [nextNode d1].
  destruct (walkRing dist _ stepPrev _ _ _ _ _ _) as [prevNode d2].
  simpl in Hnext, Hprev.
  intros H. inversion H. clear H. apply Forall_app. split.
  - destruct (Z.eqb_spec nextNode (findCurrentNode (nodes way) nodeId 0)) as [|Hne];
      [constructor|].
    destruct Hnext as [|Hnext]; [contradiction|].
    repeat constructor. exists (nodeAt (nodes way) cur nextNode), d1.
    split; [apply nth_elem_of, Hin|]. split; [exact Hnext|reflexivity].
  - destruct backward; [|constructor].
    destruct (Z.eqb_spec prevNode (findCurrentNode (nodes way) nodeId 0)) as [|Hne];
      [constructor|].
    destruct Hprev as [|Hprev]; [contradiction|].
    destruct (negb (prevNode =? nextNode)); [|constructor].
    repeat constructor. exists (nodeAt (nodes way) cur prevNode), d2.
    split; [apply nth_elem_of, Hin|]. split; [exact Hprev|reflexivity].
Qed.

Lemma normalRoutingAt_targets nodeWayMap nodeId way index d i :
  d ∈ nodes way ->
  Forall (fun p => exists target d',
            target ∈ nodes way /\ isRouteNode nodeWayMap (GetId target) = true /\
            p = makePath accessBit way index target d')
         (normalRoutingAt dist accessBit nodeWayMap nodeId way index d i).
Proof.
  intros Hd. unfold normalRoutingAt.
  destruct (GetId _ =? nodeId); [|constructor].
  apply Forall_app. split.
  - destruct i as [|i']; [constructor|]. destruct (negb _); [|constructor].
    destruct (searchBackward _ _ _ _) as [j|] eqn:Hj; [|constructor].
    apply searchBackward_spec in Hj as (_ & Hroute & _).
    repeat constructor. exists (nth j (nodes way) d). eexists.
    split; [apply nth_elem_of, Hd|]. split; [exact Hroute|reflexivity].
  - destruct (_ <? _)%nat; [|constructor].
    destruct (searchForward _ _ _ _ _) as [j|] eqn:Hj; [|constructor].
    apply searchForward_spec in Hj as (_ & _ & Hroute & _).
    repeat constructor. exists (nth j (nodes way) d). eexists.
    split; [apply nth_elem_of, Hd|]. split; [exact Hroute|reflexivity].
Qed.

Lemma routeWay_targets nodeWayMap nodeId way index ps :
  routeWay dist accessBit nodeWayMap nodeId way index = Some ps ->
  Forall (fun p => exists target d,
            target ∈ nodes way /\ isRouteNode nodeWayMap (GetId target) = true /\
            p = makePath accessBit way index target d) ps.
Proof.
  unfold routeWay. destruct (IsArea way); [apply ringRouting_targets|].
  destruct (nodes way) as [|front rest] eqn:Hnodes; [discriminate|].
  destruct (GetId front =? _).
  { rewrite <- Hnodes. apply ringRouting_targets. }
  intros H. inversion H. clear H. unfold normalRouting.
  apply Forall_flat_map, Forall_forall. intros i _.
  rewrite <- Hnodes. apply normalRoutingAt_targets. rewrite Hnodes. left.
Qed.

Lemma buildPaths_targets nodeWayMap waysMap nodeId wayIds ways paths ways' paths' :
  buildPaths dist accessBit nodeWayMap waysMap nodeId wayIds ways paths = Some (ways', paths') ->
  Forall (fun p => isRouteNode nodeWayMap (path_id p) = true) paths ->
  Forall (fun p => isRouteNode nodeWayMap (path_id p) = true) paths'.
Proof.
  revert ways paths. induction wayIds as [|wayId rest IH]; intros ways paths; simpl.
  - intros H. inversion H. subst. auto.
  - destruct (waysMap !! wayId) as [way|]; [|apply IH].
    destruct (routeWay _ _ _ _ _ _) as [ps|] eqn:Hroute; [|discriminate].
    intros H Hpaths. apply (IH _ _ H). apply Forall_app. split; [exact Hpaths|].
    apply routeWay_targets in Hroute.
    eapply Forall_impl; [exact Hroute|]. intros p (target & d & _ & Htarget & ->).
    exact Htarget.
Qed.

(** X14. The route graph has no dangling edge: every path of every
    record written leads to a node that has an entry in the node way map
    (it may be the record's own node), and when the build phase runs
    through and no entry of the map is an empty list, that node has a
    record of its own in the file. *)
Theorem paths_lead_to_route_nodes restrictions nodeWayMap wayIdx blockSize scanner status st
    rn p :
  writeRouteNodes dist accessBit medium restrictions nodeWayMap wayIdx blockSize scanner
  = (status, st) ->
  rn ∈ routeNodesOf (fw_items (bs_writer st)) ->
  p ∈ rn_paths rn ->
  isRouteNode nodeWayMap (path_id p) = true /\
  (status = Ok -> NoEmptyList nodeWayMap ->
   exists rn', rn' ∈ routeNodesOf (fw_items (bs_writer st)) /\ rn_id rn' = path_id p).
Proof.
  intros Hrun Hin Hp.
  assert (Htarget : isRouteNode nodeWayMap (path_id p) = true).
  { apply (written_record_emitted _ _ _ _ _ _ _ _ _ _ _ Hrun) in Hin.
    destruct Hin as (k & _ & waysMap & node & _ & Hbuild).
    unfold buildRouteNode in Hbuild.
    destruct (buildPaths _ _ _ _ _ _ _ _) as [[ways paths]|] eqn:Hpaths; [|discriminate].
    inversion Hbuild. subst. clear Hbuild. simpl in Hp.
    apply buildPaths_targets in Hpaths; [|constructor].
    rewrite Forall_forall in Hpaths. apply Hpaths, Hp. }
  split; [exact Htarget|]. intros Hok Hne.
  apply writeRouteNodes_ids in Hrun as [_ Hids]. specialize (Hids Hok Hne).
  assert (Hid : path_id p ∈ map rn_id (routeNodesOf (fw_items (bs_writer st)))).
  { rewrite Hids, (merge_sort_Permutation Z.le _).
    apply elem_of_elements, elem_of_dom. unfold isRouteNode in Htarget.
    destruct (nodeWayMap !! path_id p) as [wayIds|]; [eexists; reflexivity|discriminate]. }
  apply list_elem_of_fmap in Hid as (rn' & Heq & Hin'). exists rn'. auto.
Qed.

(** X15. Every path of a route node follows the way it is indexed to:
    [ways[path.wayIndex]] is the id of a loaded way, the path leads to a
    node of that way, carries the id and the coordinates of that node and
    the type, the speed limit and the access flag of the way. *)
Theorem path_follows_its_way restrictions nodeWayMap waysMap node rn p :
  buildRouteNode dist accessBit restrictions nodeWayMap waysMap node = Some rn ->
  p ∈ rn_paths rn ->
  exists W way target,
    rn_ways rn !! wayIndex p = Some W /\ waysMap !! W = Some way /\
    target ∈ nodes way /\
    path_id p = GetId target /\ lat p = GetLat target /\ lon p = GetLon target /\
    path_type p = GetType way /\ maxSpeed p = GetMaxSpeed way /\
    flags p = CopyFlags accessBit way.
Proof.
  intros Hbuild Hp.
  pose proof (buildRouteNode_inv _ _ _ _ _ _ _ Hbuild) as (_ & _ & Hidx & _).
  rewrite Forall_forall in Hidx. specialize (Hidx p Hp).
  destruct (rn_ways rn !! wayIndex p) as [W|] eqn:HW.
  2:{ apply lookup_ge_None in HW. lia. }
  destruct (buildRouteNode_listing _ _ _ _ _ _ _ _ _ Hbuild HW) as (way & Hway & Hroute).
  apply routeWay_targets in Hroute. rewrite Forall_forall in Hroute.
  destruct (Hroute p) as (target & d & Htarget & _ & Heq).
  { unfold pathsOfListing. apply list_elem_of_In, List.filter_In.
    split; [apply list_elem_of_In, Hp|apply Nat.eqb_refl]. }
  exists W, way, target. split; [reflexivity|]. split; [exact Hway|].
  split; [exact Htarget|]. rewrite Heq. simpl. auto 10.
Qed.

(** *** No denied turn is left out *)

Lemma excludeTurn_keeps turnConstraints ways paths src dst excludes e :
  e ∈ excludes -> e ∈ excludeTurn turnConstraints ways paths src dst excludes.
Proof.
  intros Hin. unfold excludeTurn.
  destruct (negb (src =? dst)); [|exact Hin].
  destruct (negb (CanTurn turnConstraints src dst)); [|exact Hin].
  destruct (_ <? _)%nat; [|exact Hin]. apply elem_of_app. left. exact Hin.
Qed.

Lemma excludeTurns_keep turnConstraints ways paths src dsts excludes e :
  e ∈ excludes ->
  e ∈ fold_left (fun excludes dst => excludeTurn turnConstraints ways paths src dst excludes)
        dsts excludes.
Proof.
  revert excludes. induction dsts as [|dst dsts IH]; intros excludes Hin; simpl; [exact Hin|].
  apply IH, excludeTurn_keeps, Hin.
Qed.

(** X16. No denied turn is left out: for a junction with restrictions,
    every pair of different incident ways between which [CanTurn] denies
    the turn, and whose destination way has a path in the route node, has
    an exclude, with the source way and the first path that leaves by
    the destination way. *)
Theorem denied_turns_are_excluded restrictions nodeWayMap waysMap node rn turnConstraints
    (src dst : Id) (p : Path) :
  buildRouteNode dist accessBit restrictions nodeWayMap waysMap node = Some rn ->
  restrictions !! fst node = Some turnConstraints ->
  src ∈ snd node -> dst ∈ snd node -> src <> dst ->
  CanTurn turnConstraints src dst = false ->
  p ∈ rn_paths rn -> wayOfPath (rn_ways rn) p = Some dst ->
  exists e,
    e ∈ rn_excludes rn /\ sourceWay e = src /\
    firstPathBy (rn_ways rn) (rn_paths rn) dst (targetPath e).
Proof.
  intros Hbuild Hrestr Hsrc Hdst Hne Hturn Hp Hway.
  apply buildRouteNode_inv in Hbuild as (_ & _ & _ & Hexcl).
  rewrite Hrestr in Hexcl.
  assert (Hlt : (findTargetPath (rn_ways rn) (rn_paths rn) dst 0 < length (rn_paths rn))%nat).
  { destruct (findTargetPath_first (rn_ways rn) (rn_paths rn) dst 0)
      as (n & Heq & Hlen & _ & Hmiss).
    rewrite Heq. simpl.
    destruct (Nat.eq_dec n (length (rn_paths rn))) as [->|]; [|lia].
    apply list_elem_of_lookup in Hp as [i Hi].
    exfalso. apply (Hmiss i p); [eapply lookup_lt_Some; exact Hi|exact Hi|exact Hway]. }
  exists (mkExclude src (findTargetPath (rn_ways rn) (rn_paths rn) dst 0)).
  split; [|split; [reflexivity|apply findTargetPath_firstPathBy, Hlt]].
  rewrite Hexcl. unfold resolveExcludes.
  rewrite <- (merge_sort_Permutation Z.le (snd node)) in Hsrc, Hdst.
  set (wayIds := merge_sort Z.le (snd node)) in *.
  assert (Hinner : forall dsts excludes,
            dst ∈ dsts ->
            mkExclude src (findTargetPath (rn_ways rn) (rn_paths rn) dst 0)
            ∈ fold_left (fun excludes dst' =>
                           excludeTurn turnConstraints (rn_ways rn) (rn_paths rn) src dst'
                                       excludes) dsts excludes).
  { induction dsts as [|dst' dsts IH]; intros excludes Hin.
    - apply elem_of_nil in Hin. contradiction.
    - simpl. apply elem_of_cons in Hin as [<-|Hin]; [|apply IH, Hin].
      apply excludeTurns_keep. unfold excludeTurn.
      rewrite (proj2 (Z.eqb_neq src dst) Hne), Hturn. simpl.
      rewrite (proj2 (Nat.ltb_lt _ _) Hlt).
      apply elem_of_app. right. left. }
  generalize (@nil Exclude) as excludes. revert Hsrc. generalize wayIds at 1 3 as srcs.
  induction srcs as [|src' srcs IH]; intros Hin excludes.
  - apply elem_of_nil in Hin. contradiction.
  - simpl. apply elem_of_cons in Hin as [<-|Hin]; [|apply IH, Hin].
    assert (Hkeep : forall srcs' excludes' e,
              e ∈ excludes' ->
              e ∈ fold_left
                    (fun excludes sourceWayId =>
                       fold_left
                         (fun excludes destWayId =>
                            excludeTurn turnConstraints (rn_ways rn) (rn_paths rn)
                                        sourceWayId destWayId excludes)
                         wayIds excludes)
                    srcs' excludes').
    { induction srcs' as [|s srcs' IHk]; intros excludes' e He; simpl; [exact He|].
      apply IHk, excludeTurns_keep, He. }
    apply Hkeep, Hinner, Hdst.
Qed.

(** *** [Import] from end to end *)

(** X17. When [Import] returns [true], [route.dat] holds exactly one
    record for every junction of [ways.dat] (every node that appears at
    least twice over the routable ways), in ascending order of the node
    ids, behind a header that holds their number. *)
Theorem Import_writes_one_record_per_junction blockSize typeConfig uninit dir items :
  Import dist accessBit medium blockSize typeConfig uninit dir = (Ok, Some items) ->
  exists (ways : list Way) (junctions : gset Id),
    recordsOf (ways_dat dir) = Some ways /\
    (forall id, id ∈ junctions <-> (2 <= appearances typeConfig ways id)%nat) /\
    map rn_id (routeNodesOf items) = merge_sort Z.le (elements junctions) /\
    headerOf items = Some (Z.of_nat (size junctions) mod 2^32).
Proof.
  intros Himport.
  apply Import_runs_build in Himport
    as (restrictions & junctions & nodeWayMap & wayIdx & scanner & built & st
        & _ & Hj & He & _ & _ & Hrun & Hrecords & Hitems).
  destruct built; try (destruct Hitems as [_ Hfalse]; discriminate).
  destruct Hitems as [Hitems _].
  rewrite ReadJunctions_records in Hj. rewrite ReadWayEndpoints_records in He.
  destruct (recordsOf (ways_dat dir)) as [ways|]; [|discriminate].
  destruct (_ =? _); [discriminate|].
  inversion Hj. subst junctions. clear Hj. inversion He. subst nodeWayMap. clear He.
  destruct (endpoints_of_junctions typeConfig ways) as (Hjunction & Hdom & Hlists).
  exists ways. eexists. split; [reflexivity|]. split; [exact Hjunction|].
  pose proof (writeRouteNodes_ids _ _ _ _ _ _ _ Hrun) as [_ Hids].
  rewrite Hdom in Hids. rewrite Hrecords.
  assert (Hall : map rn_id (routeNodesOf (fw_items (bs_writer st)))
                 = merge_sort Z.le (elements
                     (collectJunctions (fold_left (countWay typeConfig) ways ∅) ∅))).
  { apply Hids; [reflexivity|]. intros id wayIds Hlook Hnil.
    apply Hlists in Hlook as [_ Hlen]. rewrite Hnil in Hlen. simpl in Hlen. lia. }
  split; [exact Hall|].
  apply writeRouteNodes_Written in Hrun as (rns & Hw & _ & _).
  rewrite Hitems, (patchHeader_items st rns Hw). simpl. do 3 f_equal.
  apply records_of_run in Hw as [Hrns _]. rewrite Hrns in Hall.
  rewrite <- (length_map rn_id rns), Hall.
  rewrite (Permutation_length (merge_sort_Permutation Z.le _)). reflexivity.
Qed.

(** X18. [Import] returns [false] without creating [route.dat] when
    [rawrels.dat], [ways.dat] or the way index is missing. *)
Theorem Import_needs_its_inputs blockSize typeConfig uninit dir :
  rawrels_dat dir = None \/ ways_dat dir = None \/ way_idx dir = None ->
  Import dist accessBit medium blockSize typeConfig uninit dir = (ReturnFalse, None).
Proof.
  intros Hmissing. unfold Import.
  destruct (ReadRestrictionRelations _ _ _ _) as [restrictions|] eqn:Hr; [|reflexivity].
  destruct (ReadJunctions _ _ _) as [junctions|] eqn:Hj; [|reflexivity].
  destruct (ReadWayEndpoints _ _ _ _) as [nodeWayMap|] eqn:He; [|reflexivity].
  destruct Hmissing as [Hnone|[Hnone|Hnone]]; rewrite Hnone in *.
  - discriminate.
  - discriminate.
  - reflexivity.
Qed.



(** C7, as the code has it. In a run of [Import] that returns [true] the
    build phase has written the placeholder 0 at offset 0 and the records
    behind it, and the file [Import] leaves has at offset 0, in place of
    the placeholder, the number of those records modulo [2^32] (the
    counter is a [uint32_t]), in front of the same records.  The header
    is the number of records itself when fewer than [2^32] were
    written. *)
Theorem header_counts_records blockSize typeConfig uninit dir items :
  Import dist accessBit medium blockSize typeConfig uninit dir = (Ok, Some items) ->
  exists restrictions junctions nodeWayMap wayIdx scanner st rns,
    ReadRestrictionRelations typeConfig uninit (rawrels_dat dir) ∅ = Some restrictions /\
    ReadJunctions typeConfig (ways_dat dir) ∅ = Some junctions /\
    ReadWayEndpoints typeConfig (ways_dat dir) junctions ∅ = Some nodeWayMap /\
    way_idx dir = Some wayIdx /\
    scanner_Open (ways_dat dir) = Some scanner /\
    writeRouteNodes dist accessBit medium restrictions nodeWayMap wayIdx blockSize scanner
    = (Ok, st) /\
    fw_items (bs_writer st) = ItemU32 0 :: map ItemRouteNode rns /\
    items = ItemU32 (Z.of_nat (length rns) mod 2^32) :: map ItemRouteNode rns /\
    headerOf items = Some (Z.of_nat (length (routeNodesOf items)) mod 2^32) /\
    (Z.of_nat (length (routeNodesOf items)) < 2^32 ->
     headerOf items = Some (Z.of_nat (length (routeNodesOf items)))).
Proof.
  intros Himport.
  apply Import_runs_build in Himport
    as (restrictions & junctions & nodeWayMap & wayIdx & scanner & built & st
        & Hr & Hj & He & Hindex & Hopen & Hrun & _ & Hitems).
  destruct built; try (destruct Hitems as [_ Hfalse]; discriminate).
  destruct Hitems as [Hitems _].
  pose proof (writeRouteNodes_Written _ _ _ _ _ _ _ _ _ _ Hrun) as (rns & Hw & _ & _).
  pose proof (patchHeader_items st rns Hw) as Hpatched.
  destruct Hw as (Hwritten & _ & _).
  exists restrictions, junctions, nodeWayMap, wayIdx, scanner, st, rns.
  do 6 (split; [assumption|]).
  split; [exact Hwritten|]. rewrite Hitems, Hpatched.
  split; [reflexivity|]. rewrite routeNodesOf_records.
  split; [reflexivity|]. intros Hfew. cbn [headerOf]. rewrite Z.mod_small by lia. reflexivity.
Qed.

(** X20. With a block size of 0 and at least one entry in the node way
    map the block loop never ends: no block is ever filled, no way id is
    collected, and the [continue] goes back to the same entry.  With any
    other block size the loop ends within as many rounds as the map has
    entries. *)
Theorem block_loop_ends_iff_block_size_positive restrictions nodeWayMap wayIdx blockSize
    scanner :
  nodeWayMap <> ∅ ->
  (fst (writeRouteNodes dist accessBit medium restrictions nodeWayMap wayIdx blockSize scanner)
   = NoTermination <-> blockSize = 0%nat) /\
  (forall fuel st,
      Import_loop dist accessBit medium fuel restrictions nodeWayMap wayIdx 0
                  (mapEntries nodeWayMap) st = (NoTermination, st)).
Proof.
  intros Hmap.
  assert (Hentries : mapEntries nodeWayMap <> []).
  { intros Hnil. apply Hmap, map_size_empty_iff.
    rewrite <- length_mapEntries, Hnil. reflexivity. }
  split.
  - unfold writeRouteNodes. split.
    + intros Hloop. destruct blockSize as [|n]; [reflexivity|]. exfalso.
      revert Hloop. apply Import_loop_terminates; lia.
    + intros ->. rewrite Import_loop_block_size_zero by exact Hentries. reflexivity.
  - intros fuel st. apply Import_loop_block_size_zero, Hentries.
Qed.
End GraphProperties.


(** The triangle: three records behind a header of 3. *)
Lemma header_counts_records_witness :
  exists items,
    Import Ex.unitDistance Ex.hasAccess Ex.disk 5 Ex.typeConfig Ex.zeroed Ex.triangleDir
    = (Ok, Some items) /\
    length (routeNodesOf items) = 3%nat /\
    headerOf items = Some 3.
Proof.
  destruct (Import Ex.unitDistance Ex.hasAccess Ex.disk 5 Ex.typeConfig Ex.zeroed Ex.triangleDir)
    as [status [items|]] eqn:Himport; [|vm_compute in Himport; discriminate].
  assert (Hok : status = Ok) by (vm_compute in Himport; congruence). subst status.
  pose proof (header_counts_records Ex.unitDistance Ex.hasAccess Ex.disk 5 Ex.typeConfig
                Ex.zeroed Ex.triangleDir items Himport)
    as (_ & _ & _ & _ & _ & _ & rns & _ & _ & _ & _ & _ & _ & _ & _ & Hheader & _).
  assert (Hlen : length (routeNodesOf items) = 3%nat).
  { vm_compute in Himport. inversion Himport. reflexivity. }
  exists items. split; [reflexivity|]. split; [exact Hlen|].
  rewrite Hheader, Hlen. reflexivity.
Defined.

Lemma records_ascending_by_id_witness :
  Ex.triangleRun = (Ok, snd Ex.triangleRun) /\
  StronglySorted Z.lt (map rn_id (routeNodesOf (fw_items (bs_writer (snd Ex.triangleRun))))) /\
  map rn_id (routeNodesOf (fw_items (bs_writer (snd Ex.triangleRun)))) = [1; 2; 3].
Proof.
  assert (Hrun : Ex.triangleRun = (Ok, snd Ex.triangleRun)) by (vm_compute; reflexivity).
  split; [exact Hrun|].
  pose proof (records_ascending_by_id Ex.unitDistance Ex.hasAccess Ex.disk ∅ Ex.triangleMap
                Ex.triangleIndex 5 Ex.triangleScanner Ok (snd Ex.triangleRun) Hrun)
    as (Hsorted & _ & _).
  split; [exact Hsorted|]. vm_compute. reflexivity.
Defined.

Lemma paths_lead_to_route_nodes_witness :
  Ex.triangleRun = (Ok, snd Ex.triangleRun) /\
  Ex.triangleNode2 ∈ routeNodesOf (fw_items (bs_writer (snd Ex.triangleRun))) /\
  map path_id (rn_paths Ex.triangleNode2) = [3; 1] /\
  Forall (fun p => isRouteNode Ex.triangleMap (path_id p) = true)
         (rn_paths Ex.triangleNode2).
Proof.
  assert (Hrun : Ex.triangleRun = (Ok, snd Ex.triangleRun)) by (vm_compute; reflexivity).
  assert (Hin : Ex.triangleNode2 ∈ routeNodesOf (fw_items (bs_writer (snd Ex.triangleRun))))
    by (vm_compute; right; left).
  split; [exact Hrun|]. split; [exact Hin|]. split; [vm_compute; reflexivity|].
  apply Forall_forall. intros p Hp.
  pose proof (paths_lead_to_route_nodes Ex.unitDistance Ex.hasAccess Ex.disk ∅ Ex.triangleMap
                Ex.triangleIndex 5 Ex.triangleScanner Ok (snd Ex.triangleRun)
                Ex.triangleNode2 p Hrun Hin Hp) as [Htarget _].
  exact Htarget.
Defined.

Lemma path_follows_its_way_witness :
  buildRouteNode Ex.unitDistance Ex.hasAccess ∅ Ex.triangleMap (makeWaysMap Ex.triangleWays)
    (2, [20; 30]) = Some Ex.triangleNode2 /\
  exists p W way target,
    rn_paths Ex.triangleNode2 !! 0%nat = Some p /\
    rn_ways Ex.triangleNode2 !! wayIndex p = Some W /\
    makeWaysMap Ex.triangleWays !! W = Some way /\
    target ∈ nodes way /\ path_id p = GetId target /\ path_type p = GetType way.
Proof.
  assert (Hbuild : buildRouteNode Ex.unitDistance Ex.hasAccess ∅ Ex.triangleMap
                     (makeWaysMap Ex.triangleWays) (2, [20; 30]) = Some Ex.triangleNode2)
    by (vm_compute; reflexivity).
  split; [exact Hbuild|].
  destruct (rn_paths Ex.triangleNode2) as [|p ps] eqn:Hpaths; [discriminate|].
  assert (Hp : p ∈ rn_paths Ex.triangleNode2) by (rewrite Hpaths; left).
  pose proof (path_follows_its_way Ex.unitDistance Ex.hasAccess ∅ Ex.triangleMap
                (makeWaysMap Ex.triangleWays) (2, [20; 30]) Ex.triangleNode2 p Hbuild Hp)
    as (W & way & target & HW & Hway & Htarget & Hid & _ & _ & Htype & _).
  exists p, W, way, target. auto 10.
Defined.

Lemma Import_writes_one_record_per_junction_witness :
  exists (ways : list Way) (junctions : gset Id) (items : list Item),
    Import Ex.unitDistance Ex.hasAccess Ex.disk 5 Ex.typeConfig Ex.zeroed Ex.triangleDir
    = (Ok, Some items) /\
    recordsOf (ways_dat Ex.triangleDir) = Some ways /\
    map rn_id (routeNodesOf items) = merge_sort Z.le (elements junctions) /\
    map rn_id (routeNodesOf items) = [1; 2; 3] /\
    headerOf items = Some 3.
Proof.
  destruct (Import Ex.unitDistance Ex.hasAccess Ex.disk 5 Ex.typeConfig Ex.zeroed Ex.triangleDir)
    as [status [items|]] eqn:Himport; [|vm_compute in Himport; discriminate].
  assert (Hok : status = Ok) by (vm_compute in Himport; congruence).
  subst status.
  pose proof (Import_writes_one_record_per_junction Ex.unitDistance Ex.hasAccess Ex.disk 5
                Ex.typeConfig Ex.zeroed Ex.triangleDir items Himport)
    as (ways & junctions & Hfile & _ & Hids & _).
  exists ways, junctions, items.
  split; [reflexivity|]. split; [exact Hfile|]. split; [exact Hids|].
  vm_compute in Himport. inversion Himport. split; reflexivity.
Defined.

Lemma Import_needs_its_inputs_witness :
  Import Ex.unitDistance Ex.hasAccess Ex.disk 5 Ex.typeConfig Ex.zeroed
    (mkDirectory (Some [SlotCount 0]) (Some (waysFile Ex.triangleWays)) None)
  = (ReturnFalse, None).
Proof.
  apply (Import_needs_its_inputs Ex.unitDistance Ex.hasAccess Ex.disk 5 Ex.typeConfig Ex.zeroed
           (mkDirectory (Some [SlotCount 0]) (Some (waysFile Ex.triangleWays)) None)).
  right. right. reflexivity.
Defined.


Lemma block_loop_ends_iff_block_size_positive_witness :
  fst (writeRouteNodes Ex.unitDistance Ex.hasAccess Ex.disk ∅ Ex.triangleMap Ex.triangleIndex 0
         Ex.triangleScanner) = NoTermination /\
  fst (writeRouteNodes Ex.unitDistance Ex.hasAccess Ex.disk ∅ Ex.triangleMap Ex.triangleIndex 1
         Ex.triangleScanner) = Ok.
Proof.
  assert (Hmap : Ex.triangleMap <> ∅).
  { intros Hempty. assert (Hlook : Ex.triangleMap !! 1 = None) by (rewrite Hempty; reflexivity).
    vm_compute in Hlook. discriminate. }
  pose proof (block_loop_ends_iff_block_size_positive Ex.unitDistance Ex.hasAccess Ex.disk ∅
                Ex.triangleMap Ex.triangleIndex 0 Ex.triangleScanner Hmap) as [Hiff _].
  split; [apply Hiff; reflexivity|vm_compute; reflexivity].
Defined.

Lemma denied_turns_are_excluded_witness :
  exists e,
    e ∈ rn_excludes Ex.restrictedNode /\ sourceWay e = 30 /\
    firstPathBy (rn_ways Ex.restrictedNode) (rn_paths Ex.restrictedNode) 20 (targetPath e).
Proof.
  assert (Hbuild : buildRouteNode Ex.unitDistance Ex.hasAccess Ex.noTurnInto20 Ex.triangleMap
                     (makeWaysMap Ex.triangleWays) (2, [20; 30]) = Some Ex.restrictedNode)
    by (vm_compute; reflexivity).
  destruct (rn_paths Ex.restrictedNode) as [|p ps] eqn:Hpaths; [discriminate|].
  assert (Hp : p ∈ rn_paths Ex.restrictedNode) by (rewrite Hpaths; left).
  rewrite <- Hpaths.
  apply (denied_turns_are_excluded Ex.unitDistance Ex.hasAccess Ex.noTurnInto20 Ex.triangleMap
           (makeWaysMap Ex.triangleWays) (2, [20; 30]) Ex.restrictedNode
           [mkRestriction forbit 30 20] 30 20 p Hbuild).
  - reflexivity.
  - simpl. right. left.
  - simpl. left.
  - lia.
  - reflexivity.
  - exact Hp.
  - vm_compute in Hpaths. inversion Hpaths. reflexivity.
Defined.

(** ** Ring ways: the area branch and the circular-way branch of [Import] *)

Lemma ringAhead_cases (n c : Z) (k : nat) :
  0 <= c < n -> (Z.of_nat k <= n) ->
  ringAhead n c k = if c + Z.of_nat k <? n then c + Z.of_nat k else c + Z.of_nat k - n.
Proof.
  intros Hc Hk. unfold ringAhead. destruct (Z.ltb_spec (c + Z.of_nat k) n) as [Hlt|Hge].
  - apply Z.mod_small. lia.
  - symmetry. apply (Z.mod_unique _ _ 1); lia.
Qed.

Lemma ringBehind_cases (n c : Z) (k : nat) :
  0 <= c < n -> (Z.of_nat k <= n) ->
  ringBehind n c k = if c - Z.of_nat k <? 0 then c - Z.of_nat k + n else c - Z.of_nat k.
Proof.
  intros Hc Hk. unfold ringBehind. destruct (Z.ltb_spec (c - Z.of_nat k) 0) as [Hlt|Hge].
  - symmetry. apply (Z.mod_unique _ _ (-1)); lia.
  - apply Z.mod_small. lia.
Qed.

Lemma ringBehind_ahead (n c : Z) (k : nat) :
  0 <= c < n -> (1 <= Z.of_nat k < n) ->
  ringBehind n c k = ringAhead n c (Z.to_nat (n - Z.of_nat k)).
Proof.
  intros Hc Hk. rewrite ringBehind_cases, ringAhead_cases by lia.
  rewrite Z2Nat.id by lia.
  destruct (Z.ltb_spec (c - Z.of_nat k) 0), (Z.ltb_spec (c + (n - Z.of_nat k)) n); lia.
Qed.

Section RingProperties.
Variable dist : float -> float -> float -> float -> float.
Variable accessBit : Z.

(** The ring walk along a numbering [place] of the ring's places that
    starts at [currentNode] and returns to it after [length ns] steps. *)
Lemma walkRing_along (step : Z -> Z -> Z) (place : nat -> Z)
    (nodeWayMap : gmap Id (list Id)) (ns : list Point) (d : Point) (currentNode : Z) :
  (forall k, (k < length ns)%nat ->
             step (Z.of_nat (length ns)) (place k) = place (S k)) ->
  (forall k, (1 <= k < length ns)%nat -> place k <> currentNode) ->
  place (length ns) = currentNode ->
  forall (fuel k : nat) (acc : float),
    (1 <= k <= length ns)%nat -> (length ns - k < fuel)%nat ->
    walkRing dist fuel step nodeWayMap ns d currentNode (place k) acc
    = match List.find (fun k => isRouteNode nodeWayMap (GetId (nodeAt ns d (place k))))
                      (seq k (length ns - k)) with
      | Some j =>
          (place j,
           fold_left (fun acc m => PrimFloat.add acc
                                     (segment dist (nodeAt ns d (place m))
                                              (nodeAt ns d (place (S m)))))
                     (seq k (j - k)) acc)
      | None =>
          (currentNode,
           fold_left (fun acc m => PrimFloat.add acc
                                     (segment dist (nodeAt ns d (place m))
                                              (nodeAt ns d (place (S m)))))
                     (seq k (length ns - 1 - k)) acc)
      end.
Proof.
  intros Hstep Hne Hfull fuel.
  induction fuel as [|fuel IH]; intros k acc Hk Hfuel; [lia|].
  destruct (Nat.eq_dec k (length ns)) as [->|Hlt].
  - simpl. rewrite Hfull, Z.eqb_refl. simpl.
    replace (length ns - length ns)%nat with 0%nat by lia.
    replace (length ns - 1 - length ns)%nat with 0%nat by lia. reflexivity.
  - cbn [walkRing].
    assert (Hplace : (place k =? currentNode) = false)
      by (apply Z.eqb_neq, Hne; lia).
    rewrite Hplace. cbn [negb andb].
    replace (length ns - k)%nat with (S (length ns - S k)) by lia.
    cbn [seq List.find].
    destruct (isRouteNode nodeWayMap (GetId (nodeAt ns d (place k)))) eqn:Hroute.
    + cbn [negb]. replace (k - k)%nat with 0%nat by lia. reflexivity.
    + cbn [negb]. rewrite (Hstep k) by lia.
      rewrite (IH (S k)) by lia.
      destruct (List.find _ (seq (S k) (length ns - S k))) as [j|] eqn:Hfind.
      * apply find_some in Hfind as [Hin _]. apply in_seq in Hin.
        assert (Hnext : (place (S k) =? currentNode) = false)
          by (apply Z.eqb_neq, Hne; lia).
        rewrite Hnext. cbn [negb].
        replace (j - k)%nat with (S (j - S k)) by lia. reflexivity.
      * destruct (Nat.eq_dec (S k) (length ns)) as [Hend|Hmore].
        -- rewrite Hend, Hfull, Z.eqb_refl. cbn [negb].
           replace (length ns - 1 - length ns)%nat with 0%nat by lia.
           replace (length ns - 1 - k)%nat with 0%nat by lia. reflexivity.
        -- assert (Hnext : (place (S k) =? currentNode) = false)
             by (apply Z.eqb_neq, Hne; lia).
           rewrite Hnext. cbn [negb].
           replace (length ns - 1 - k)%nat with (S (length ns - 1 - S k)) by lia.
           reflexivity.
Qed.

Lemma stepNext_ahead (n c : Z) (k : nat) :
  0 <= c < n -> Z.of_nat k < n ->
  stepNext n (ringAhead n c k) = ringAhead n c (S k).
Proof.
  intros Hc Hk. rewrite !ringAhead_cases by lia. unfold stepNext.
  destruct (Z.ltb_spec (c + Z.of_nat k) n), (Z.ltb_spec (c + Z.of_nat (S k)) n);
    destruct (Z.geb_spec (c + Z.of_nat k + 1) n);
    try destruct (Z.geb_spec (c + Z.of_nat k - n + 1) n); lia.
Qed.

Lemma stepPrev_behind (n c : Z) (k : nat) :
  0 <= c < n -> Z.of_nat k < n ->
  stepPrev n (ringBehind n c k) = ringBehind n c (S k).
Proof.
  intros Hc Hk. rewrite !ringBehind_cases by lia. unfold stepPrev.
  destruct (Z.ltb_spec (c - Z.of_nat k) 0), (Z.ltb_spec (c - Z.of_nat (S k)) 0);
    try destruct (Z.ltb_spec (c - Z.of_nat k + n - 1) 0);
    try destruct (Z.ltb_spec (c - Z.of_nat k - 1) 0); lia.
Qed.

Lemma ringAhead_away (n c : Z) (k : nat) :
  0 <= c < n -> 1 <= Z.of_nat k < n -> ringAhead n c k <> c.
Proof.
  intros Hc Hk. rewrite ringAhead_cases by lia.
  destruct (Z.ltb_spec (c + Z.of_nat k) n); lia.
Qed.

Lemma ringBehind_away (n c : Z) (k : nat) :
  0 <= c < n -> 1 <= Z.of_nat k < n -> ringBehind n c k <> c.
Proof.
  intros Hc Hk. rewrite ringBehind_cases by lia.
  destruct (Z.ltb_spec (c - Z.of_nat k) 0); lia.
Qed.

Lemma findCurrentNode_first (ns : list Point) (id : Id) (start : Z) :
  let c := findCurrentNode ns id start in
  start <= c <= start + Z.of_nat (length ns) /\
  (forall i p, Z.of_nat i < c - start -> ns !! i = Some p -> GetId p <> id) /\
  (forall p, ns !! Z.to_nat (c - start) = Some p -> GetId p = id).
Proof.
  revert start. induction ns as [|q ns IH]; intros start; simpl.
  - split; [lia|]. split; intros; discriminate.
  - destruct (Z.eqb_spec (GetId q) id) as [Heq|Hne].
    + split; [lia|]. split; [intros; lia|].
      rewrite Z.sub_diag. simpl. intros p [= <-]. exact Heq.
    + destruct (IH (start + 1)) as (Hrange & Hbefore & Hat).
      split; [lia|]. split.
      * intros [|i] p Hi Hlook; simpl in Hlook.
        -- injection Hlook as <-. exact Hne.
        -- apply (Hbefore i p); [lia|exact Hlook].
      * intros p Hlook.
        replace (Z.to_nat (findCurrentNode ns id (start + 1) - start))
          with (S (Z.to_nat (findCurrentNode ns id (start + 1) - (start + 1))))
          in Hlook by lia.
        simpl in Hlook. apply Hat. exact Hlook.
Qed.

(** X21. A ring way (an area, or a way whose two ends are the same node)
    is walked from the first position that holds the junction, and from
    that one only; the assertion fails exactly when the way does not hold
    the junction.  The forward path leads to the first route node found
    by stepping ahead round the end of the vector, at most [size-1]
    steps; the backward path, for an area and for a circular way that is
    not one-way, to the first one found by stepping back, and it is left
    out when both walks end at the same place.  Each distance adds the
    segment lengths in the order they are walked. *)
Theorem ring_way_paths (nodeWayMap : gmap Id (list Id)) (nodeId : Id) (way : Way)
    (index : nat) (backward : bool) :
  let ns := nodes way in
  let size := Z.of_nat (length ns) in
  let currentNode := findCurrentNode ns nodeId 0 in
  let ahead := ringAhead size currentNode in
  let behind := ringBehind size currentNode in
  (ns !! Z.to_nat currentNode = None <-> forall p, p ∈ ns -> GetId p <> nodeId) /\
  (forall i p, (i < Z.to_nat currentNode)%nat -> ns !! i = Some p -> GetId p <> nodeId) /\
  ringRouting dist accessBit nodeWayMap nodeId way index backward
  = match ns !! Z.to_nat currentNode with
    | None => None
    | Some cur =>
        Some (match firstOnRing nodeWayMap ns cur ahead with
              | Some k => [ringPath dist accessBit way index cur ahead k]
              | None => []
              end ++
              match firstOnRing nodeWayMap ns cur behind,
                    firstOnRing nodeWayMap ns cur ahead with
              | Some k, Some k' =>
                  if backward && negb (behind k =? ahead k')
                  then [ringPath dist accessBit way index cur behind k]
                  else []
              | _, _ => []
              end)
    end.
Proof.
  intros ns size currentNode ahead behind.
  destruct (findCurrentNode_first ns nodeId 0) as (Hrange & Hbefore & Hat).
  fold currentNode in Hrange, Hbefore, Hat. rewrite Z.sub_0_r in Hat.
  split; [|split].
  - split.
    + intros Hnone p Hp Hid. apply list_elem_of_lookup in Hp as [i Hi].
      apply lookup_ge_None in Hnone.
      apply (Hbefore i p); [|exact Hi|exact Hid].
      apply lookup_lt_Some in Hi. lia.
    + intros Hno. destruct (ns !! Z.to_nat currentNode) as [p|] eqn:Hlook; [|reflexivity].
      exfalso. apply (Hno p); [eapply list_elem_of_lookup_2; exact Hlook|].
      apply Hat. reflexivity.
  - intros i p Hi Hlook. apply (Hbefore i p); [lia|exact Hlook].
  - unfold ringRouting. fold ns. fold currentNode. fold size.
    destruct (ns !! Z.to_nat currentNode) as [cur|] eqn:Hcur; [|reflexivity].
    assert (Hc : 0 <= currentNode < size).
    { apply lookup_lt_Some in Hcur. unfold size. lia. }
    assert (Hpos : (1 <= length ns)%nat) by (unfold size in Hc; lia).
    assert (Ha0 : ahead 0%nat = currentNode).
    { unfold ahead. rewrite ringAhead_cases by lia.
      destruct (Z.ltb_spec (currentNode + Z.of_nat 0) size); lia. }
    assert (Hb0 : behind 0%nat = currentNode).
    { unfold behind. rewrite ringBehind_cases by lia.
      destruct (Z.ltb_spec (currentNode - Z.of_nat 0) 0); lia. }
    assert (Hcurrent : nodeAt ns cur currentNode = cur).
    { unfold nodeAt. apply nth_lookup_Some with (d := cur) in Hcur. exact Hcur. }
    assert (Hforward :
      walkRing dist (length ns) stepNext nodeWayMap ns cur currentNode (ahead 1%nat)
               (segment dist (nodeAt ns cur (ahead 0%nat)) (nodeAt ns cur (ahead 1%nat)))
      = match firstOnRing nodeWayMap ns cur ahead with
        | Some k => (ahead k, ringDistance dist ns cur ahead k)
        | None => (currentNode,
                   fold_left (fun acc m => PrimFloat.add acc
                                (segment dist (nodeAt ns cur (ahead m))
                                         (nodeAt ns cur (ahead (S m)))))
                             (seq 1 (length ns - 1 - 1))
                             (segment dist (nodeAt ns cur (ahead 0%nat))
                                      (nodeAt ns cur (ahead 1%nat))))
        end).
    { apply (walkRing_along stepNext ahead); try lia.
      - intros k Hk. apply stepNext_ahead; unfold size in *; lia.
      - intros k Hk. apply ringAhead_away; unfold size in *; lia.
      - unfold ahead. rewrite ringAhead_cases by (unfold size; lia).
        fold size. destruct (Z.ltb_spec (currentNode + size) size); lia. }
    assert (Hbackward :
      walkRing dist (length ns) stepPrev nodeWayMap ns cur currentNode (behind 1%nat)
               (segment dist (nodeAt ns cur (behind 0%nat)) (nodeAt ns cur (behind 1%nat)))
      = match firstOnRing nodeWayMap ns cur behind with
        | Some k => (behind k, ringDistance dist ns cur behind k)
        | None => (currentNode,
                   fold_left (fun acc m => PrimFloat.add acc
                                (segment dist (nodeAt ns cur (behind m))
                                         (nodeAt ns cur (behind (S m)))))
                             (seq 1 (length ns - 1 - 1))
                             (segment dist (nodeAt ns cur (behind 0%nat))
                                      (nodeAt ns cur (behind 1%nat))))
        end).
    { apply (walkRing_along stepPrev behind); try lia.
      - intros k Hk. apply stepPrev_behind; unfold size in *; lia.
      - intros k Hk. apply ringBehind_away; unfold size in *; lia.
      - unfold behind. rewrite ringBehind_cases by (unfold size; lia).
        fold size. destruct (Z.ltb_spec (currentNode - size) 0); lia. }
    assert (Hnext : stepNext size currentNode = ahead 1%nat).
    { rewrite <- Ha0 at 1. apply stepNext_ahead; unfold size in *; lia. }
    assert (Hprev : stepPrev size currentNode = behind 1%nat).
    { rewrite <- Hb0 at 1. apply stepPrev_behind; unfold size in *; lia. }
    rewrite Hnext, Hprev.
    rewrite Ha0, Hb0, Hcurrent in *.
    rewrite Hforward, Hbackward.
    destruct (firstOnRing nodeWayMap ns cur ahead) as [k'|] eqn:Hfwd.
    + assert (Hk' : (1 <= k' < length ns)%nat).
      { unfold firstOnRing in Hfwd. apply find_some in Hfwd as [Hin _].
        apply in_seq in Hin. lia. }
      assert (Haway : (ahead k' =? currentNode) = false).
      { apply Z.eqb_neq, ringAhead_away; unfold size in *; lia. }
      rewrite Haway. cbn [negb]. unfold ringPath. fold ns.
      destruct backward;
        [|destruct (firstOnRing nodeWayMap ns cur behind); reflexivity].
      destruct (firstOnRing nodeWayMap ns cur behind) as [k|] eqn:Hbwd.
      * assert (Hk : (1 <= k < length ns)%nat).
        { unfold firstOnRing in Hbwd. apply find_some in Hbwd as [Hin _].
          apply in_seq in Hin. lia. }
        assert (Haway' : (behind k =? currentNode) = false).
        { apply Z.eqb_neq, ringBehind_away; unfold size in *; lia. }
        rewrite Haway'. cbn [negb andb]. reflexivity.
      * rewrite Z.eqb_refl. reflexivity.
    + rewrite Z.eqb_refl. cbn [negb app].
      destruct backward;
        [|destruct (firstOnRing nodeWayMap ns cur behind); reflexivity].
      destruct (firstOnRing nodeWayMap ns cur behind) as [k|] eqn:Hbwd.
      * exfalso. unfold firstOnRing in Hfwd, Hbwd.
        apply find_some in Hbwd as [Hin Hroute]. apply in_seq in Hin.
        unfold behind in Hroute.
        rewrite ringBehind_ahead in Hroute by (unfold size in *; lia).
        pose proof (find_none _ _ Hfwd (Z.to_nat (size - Z.of_nat k))) as Hnone.
        simpl in Hnone. unfold ahead in Hnone. rewrite Hnone in Hroute; [discriminate|].
        apply in_seq. unfold size in *. lia.
      * rewrite Z.eqb_refl. reflexivity.
Qed.
End RingProperties.

(** ** Runs of [Import] that go through *)

Lemma findCurrentNode_finds (ns : list Point) (id : Id) (start : Z) :
  (exists p, p ∈ ns /\ GetId p = id) ->
  is_Some (ns !! Z.to_nat (findCurrentNode ns id start - start)).
Proof.
  revert start. induction ns as [|q ns IH]; intros start (p & Hin & Hid).
  - apply elem_of_nil in Hin. contradiction.
  - simpl. destruct (Z.eqb_spec (GetId q) id) as [Heq|Hne].
    + rewrite Z.sub_diag. simpl. eauto.
    + apply elem_of_cons in Hin as [->|Hin]; [contradiction|].
      pose proof (findCurrentNode_ge ns id (start + 1)) as Hge.
      replace (Z.to_nat (findCurrentNode ns id (start + 1) - start))
        with (S (Z.to_nat (findCurrentNode ns id (start + 1) - (start + 1)))) by lia.
      simpl. apply IH. eauto.
Qed.

Lemma makeWaysMap_lookup (ways : list Way) (id : Id) (way : Way) :
  makeWaysMap ways !! id = Some way -> way ∈ ways /\ way_GetId way = id.
Proof.
  unfold makeWaysMap.
  enough (Hfold : forall m : gmap Id Way,
            fold_left (fun waysMap way => <[ way_GetId way := way ]> waysMap) ways m !! id
            = Some way ->
            (way ∈ ways /\ way_GetId way = id) \/ m !! id = Some way).
  { intros H. apply Hfold in H as [H|H]; [exact H|]. rewrite lookup_empty in H. discriminate. }
  induction ways as [|w ways IH]; intros m; simpl; [auto|].
  intros H. apply IH in H as [[Hin Hid]|H].
  - left. split; [right; exact Hin|exact Hid].
  - destruct (decide (way_GetId w = id)) as [Heq|Hne].
    + rewrite <- Heq, lookup_insert_eq in H. inversion H. subst. left.
      split; [left|reflexivity].
    + rewrite lookup_insert_ne in H by exact Hne. auto.
Qed.

Lemma indexedRecord_functional (wayIndex : gmap Id FileOffset) (file : list (Slot Way))
    (id : Id) (way way' : Way) :
  indexedRecord wayIndex file id way -> indexedRecord wayIndex file id way' -> way = way'.
Proof.
  intros (offset & Hid & Hslot) (offset' & Hid' & Hslot'). congruence.
Qed.

(** [LoadWays] on a scanner that has no error and stands inside its file,
    with an index that knows every id. *)
Lemma LoadWays_succeeds (scanner : FileScanner Way) (wayIndex : gmap Id FileOffset)
    (ids : gset Id) (ways : list Way) :
  fs_hasError scanner = false ->
  (fs_pos scanner <= length (fs_file scanner))%nat ->
  (forall id, id ∈ ids -> exists way, indexedRecord wayIndex (fs_file scanner) id way) ->
  exists loaded,
    LoadWays scanner wayIndex ids ways = (true, scanner, ways ++ loaded) /\
    Forall2 (indexedRecord wayIndex (fs_file scanner)) (merge_sort Z.le (elements ids)) loaded.
Proof.
  intros Herr Hpos Hids.
  assert (Hoffsets : exists offsets loaded,
            lookupOffsets wayIndex (merge_sort Z.le (elements ids)) = Some offsets /\
            Forall2 (fun id offset => wayIndex !! id = Some offset)
                    (merge_sort Z.le (elements ids)) offsets /\
            Forall2 (fun offset way => fs_file scanner !! offset = Some (SlotData way))
                    offsets loaded).
  { assert (Hall : forall id, id ∈ merge_sort Z.le (elements ids) ->
              exists way, indexedRecord wayIndex (fs_file scanner) id way).
    { intros id Hin. apply Hids. rewrite (merge_sort_Permutation Z.le _) in Hin.
      apply elem_of_elements, Hin. }
    revert Hall. generalize (merge_sort Z.le (elements ids)). intros sorted.
    induction sorted as [|id sorted IH]; intros Hall.
    - exists [], []. split; [reflexivity|]. split; constructor.
    - destruct (Hall id) as (way & offset & Hid & Hslot); [left|].
      destruct IH as (offsets & loaded & Hrest & Hindex & Hloaded).
      { intros id' Hin. apply Hall. right. exact Hin. }
      exists (offset :: offsets), (way :: loaded). simpl. rewrite Hid, Hrest.
      split; [reflexivity|]. split; constructor; assumption. }
  destruct Hoffsets as (offsets & loaded & Hoffsets & Hindex & Hloaded).
  exists loaded. split.
  - unfold LoadWays, GetOffsets. rewrite Hoffsets.
    unfold scanner_GetPos. rewrite Herr.
    destruct (LoadWays_loop_succeeds offsets scanner ways loaded Herr Hloaded) as [pos Hloop].
    rewrite Hloop. unfold scanner_SetPos. simpl.
    destruct (Nat.ltb_spec (length (fs_file scanner)) (fs_pos scanner)); [lia|].
    destruct scanner as [file pos' flag]. simpl in *. subst flag. reflexivity.
  - apply (indexed_records_of_offsets _ _ _ offsets); assumption.
Qed.

Lemma appearances_cons typeConfig (way : Way) (ways : list Way) (id : Id) :
  appearances typeConfig (way :: ways) id
  = ((if isRoutable typeConfig way then occurrences id (nodes way) else 0)
     + appearances typeConfig ways id)%nat.
Proof.
  unfold appearances. simpl. destruct (isRoutable typeConfig way); [|reflexivity].
  simpl. apply occurrences_app.
Qed.

Lemma occurrences_holds (id : Id) (ns : list Point) :
  (0 < occurrences id ns)%nat <-> exists p, p ∈ ns /\ GetId p = id.
Proof.
  unfold occurrences. induction ns as [|q ns IH]; simpl.
  - split; [lia|]. intros (p & Hin & _). apply elem_of_nil in Hin. contradiction.
  - destruct (Z.eqb_spec (GetId q) id) as [Heq|Hne]; simpl.
    + split; [|lia]. intros _. exists q. split; [left|exact Heq].
    + rewrite IH. split.
      * intros (p & Hin & Hid). exists p. split; [right; exact Hin|exact Hid].
      * intros (p & Hin & Hid). apply elem_of_cons in Hin as [->|Hin]; [contradiction|].
        exists p. auto.
Qed.

(** A way id that [ReadWayEndpoints] lists for a node is the id of a
    routable way of the file that holds the node. *)
Lemma elem_of_listings typeConfig (ways : list Way) (id wayId : Id) :
  wayId ∈ listings typeConfig ways id <->
  exists way, way ∈ ways /\ isRoutable typeConfig way = true /\
              way_GetId way = wayId /\ holdsNode way id.
Proof.
  induction ways as [|way ways IH].
  - unfold listings. simpl. split.
    + intros Hin. apply elem_of_nil in Hin. contradiction.
    + intros (w & Hin & _). apply elem_of_nil in Hin. contradiction.
  - rewrite listings_cons, elem_of_app, IH. clear IH. split.
    + intros [Hin|(w & Hin & Hw)].
      * destruct (isRoutable typeConfig way) eqn:Hroutable.
        2:{ apply elem_of_nil in Hin. contradiction. }
        apply elem_of_replicate in Hin as [-> Hocc].
        exists way. split; [left|]. split; [exact Hroutable|]. split; [reflexivity|].
        apply occurrences_holds. lia.
      * exists w. split; [right; exact Hin|exact Hw].
    + intros (w & Hin & Hroutable & Hid & Hholds).
      apply elem_of_cons in Hin as [->|Hin].
      * left. rewrite Hroutable, <- Hid. apply elem_of_replicate. split; [reflexivity|].
        apply occurrences_holds in Hholds. lia.
      * right. exists w. auto.
Qed.

Lemma indexFrom_lookup (ways : list Way) (offset k : nat) (way : Way) :
  NoDup (map way_GetId ways) -> ways !! k = Some way ->
  indexFrom offset ways !! way_GetId way = Some (offset + k)%nat.
Proof.
  revert offset k. induction ways as [|w ways IH]; intros offset k Hnodup Hlook.
  - discriminate.
  - simpl in Hnodup. apply NoDup_cons in Hnodup as [Hout Hnodup].
    destruct k as [|k]; simpl in *.
    + inversion Hlook. subst. rewrite lookup_insert_eq, Nat.add_0_r. reflexivity.
    + rewrite lookup_insert_ne.
      * rewrite (IH (S offset) k Hnodup Hlook). f_equal. lia.
      * intros Heq. apply Hout. rewrite Heq.
        apply list_elem_of_fmap_2. eapply list_elem_of_lookup_2. exact Hlook.
Qed.

(** Ways of distinct ids, their file and its index fit together. *)
Lemma indexOf_Indexed typeConfig (ways : list Way) :
  NoDup (map way_GetId ways) -> Indexed typeConfig (indexOf ways) (waysFile ways) ways.
Proof.
  intros Hnodup way Hin _. apply list_elem_of_lookup in Hin as [k Hk].
  exists (S k). split.
  - apply (indexFrom_lookup ways 1 k way Hnodup Hk).
  - unfold waysFile. simpl. rewrite list_lookup_fmap, Hk. reflexivity.
Qed.

Lemma appearances_holds typeConfig (ways : list Way) (id : Id) :
  (0 < appearances typeConfig ways id)%nat <->
  exists way, way ∈ ways /\ isRoutable typeConfig way = true /\ holdsNode way id.
Proof.
  rewrite <- length_listings. split.
  - destruct (listings typeConfig ways id) as [|wayId rest] eqn:Hlistings; [simpl; lia|].
    intros _. assert (Hin : wayId ∈ listings typeConfig ways id).
    { rewrite Hlistings. left. }
    apply elem_of_listings in Hin as (way & Hin & Hroutable & _ & Hholds).
    exists way. auto.
  - intros (way & Hin & Hroutable & Hholds).
    assert (Hlisted : way_GetId way ∈ listings typeConfig ways id).
    { apply elem_of_listings. exists way. auto. }
    destruct (listings typeConfig ways id); [|simpl; lia].
    apply elem_of_nil in Hlisted. contradiction.
Qed.

Lemma appearances_ge typeConfig (ways : list Way) (way : Way) (id : Id) :
  way ∈ ways -> isRoutable typeConfig way = true ->
  (occurrences id (nodes way) <= appearances typeConfig ways id)%nat.
Proof.
  induction ways as [|w ways IH]; intros Hin Hroutable.
  - apply elem_of_nil in Hin. contradiction.
  - rewrite appearances_cons. apply elem_of_cons in Hin as [->|Hin].
    + rewrite Hroutable. lia.
    + specialize (IH Hin Hroutable). lia.
Qed.

Lemma elem_of_junctionsOf typeConfig (ways : list Way) (id : Id) :
  id ∈ junctionsOf typeConfig ways <-> (2 <= appearances typeConfig ways id)%nat.
Proof.
  unfold junctionsOf. rewrite elem_of_list_to_set, list_elem_of_In, List.filter_In.
  rewrite Nat.leb_le. split; [tauto|]. intros Htwice. split; [|exact Htwice].
  assert (Hpos : (0 < appearances typeConfig ways id)%nat) by lia.
  apply appearances_holds in Hpos as (way & Hin & _ & p & Hp & Hid).
  apply list_elem_of_In. rewrite <- Hid. apply list_elem_of_fmap_2.
  apply list_elem_of_In, in_flat_map. exists way.
  split; apply list_elem_of_In; assumption.
Qed.

Lemma collectJunctions_junctionsOf typeConfig (ways : list Way) :
  collectJunctions (fold_left (countWay typeConfig) ways ∅) ∅ = junctionsOf typeConfig ways.
Proof.
  destruct (endpoints_of_junctions typeConfig ways) as (Hjunction & _ & _).
  apply set_eq. intros id. rewrite Hjunction, elem_of_junctionsOf. reflexivity.
Qed.

(** The entries of the node way map of a file whose ways are indexed are
    all served. *)
Lemma entries_served typeConfig wayIndex (file : list (Slot Way)) (ways : list Way) :
  Indexed typeConfig wayIndex file ways ->
  forall node,
    node ∈ mapEntries
             (fold_left
                (addWayEndpoints typeConfig
                   (collectJunctions (fold_left (countWay typeConfig) ways ∅) ∅))
                ways ∅) ->
    Served wayIndex file node.
Proof.
  intros Hindexed node Hin wayId Hid.
  apply mapEntries_elem in Hin.
  destruct (endpoints_of_junctions typeConfig ways) as (_ & _ & Hlists).
  apply Hlists in Hin as [Heq _]. rewrite Heq in Hid.
  apply elem_of_listings in Hid as (way & Hway & Hroutable & Hown & Hholds).
  exists way. split; [|split; assumption]. rewrite <- Hown. apply Hindexed; assumption.
Qed.

Section RunsThrough.
Variable dist : float -> float -> float -> float -> float.
Variable accessBit : Z.
Variable medium : Medium.

Lemma ringRouting_succeeds nodeWayMap nodeId way index backward :
  holdsNode way nodeId ->
  exists ps, ringRouting dist accessBit nodeWayMap nodeId way index backward = Some ps.
Proof.
  intros Hholds. apply (findCurrentNode_finds _ _ 0) in Hholds as [cur Hcur].
  rewrite Z.sub_0_r in Hcur. unfold ringRouting. rewrite Hcur.
  destruct (walkRing _ _ stepNext _ _ _ _ _ _) as [nextNode dist1].
  destruct backward.
  - destruct (walkRing _ _ stepPrev _ _ _ _ _ _) as [prevNode dist2]. eexists. reflexivity.
  - eexists. reflexivity.
Qed.

Lemma routeWay_succeeds nodeWayMap nodeId way index :
  holdsNode way nodeId ->
  exists ps, routeWay dist accessBit nodeWayMap nodeId way index = Some ps.
Proof.
  intros Hholds. unfold routeWay.
  destruct (IsArea way); [apply ringRouting_succeeds, Hholds|].
  destruct (nodes way) as [|front rest] eqn:Hnodes.
  - destruct Hholds as (p & Hin & _). rewrite Hnodes in Hin.
    apply elem_of_nil in Hin. contradiction.
  - rewrite <- Hnodes. destruct (_ =? _); [apply ringRouting_succeeds, Hholds|].
    eexists. reflexivity.
Qed.

Lemma buildPaths_succeeds nodeWayMap waysMap nodeId wayIds :
  (forall wayId way, wayId ∈ wayIds -> waysMap !! wayId = Some way -> holdsNode way nodeId) ->
  forall ways paths,
    exists built, buildPaths dist accessBit nodeWayMap waysMap nodeId wayIds ways paths
                  = Some built.
Proof.
  induction wayIds as [|wayId rest IH]; intros Hholds ways paths; simpl.
  - eexists. reflexivity.
  - assert (Hrest : forall wayId' way, wayId' ∈ rest -> waysMap !! wayId' = Some way ->
                      holdsNode way nodeId).
    { intros wayId' way Hin. apply Hholds. right. exact Hin. }
    destruct (waysMap !! wayId) as [way|] eqn:Hway; [|apply IH, Hrest].
    destruct (routeWay_succeeds nodeWayMap nodeId way (length (ways ++ [wayId]) - 1))
      as [ps Hps].
    { apply (Hholds wayId way); [left|exact Hway]. }
    rewrite Hps. apply IH, Hrest.
Qed.

Lemma buildRouteNode_succeeds restrictions nodeWayMap waysMap node :
  (forall wayId way, wayId ∈ snd node -> waysMap !! wayId = Some way ->
                     holdsNode way (fst node)) ->
  exists rn, buildRouteNode dist accessBit restrictions nodeWayMap waysMap node = Some rn.
Proof.
  intros Hholds. unfold buildRouteNode.
  destruct (buildPaths_succeeds nodeWayMap waysMap (fst node)
              (merge_sort Z.le (snd node))) with (ways := @nil Id) (paths := @nil Path)
    as [[ways paths] Hbuilt].
  { intros wayId way Hin. apply Hholds.
    rewrite (merge_sort_Permutation Z.le _) in Hin. exact Hin. }
  rewrite Hbuilt. eexists. reflexivity.
Qed.

Lemma storeRouteNodes_succeeds restrictions nodeWayMap waysMap block :
  (forall node wayId way, node ∈ block -> wayId ∈ snd node ->
     waysMap !! wayId = Some way -> holdsNode way (fst node)) ->
  forall st rns,
    Written st rns ->
    roomFor medium (length rns + length block) ->
    exists st',
      storeRouteNodes dist accessBit medium restrictions nodeWayMap waysMap block st
      = (Ok, st') /\
      bs_scanner st' = bs_scanner st.
Proof.
  induction block as [|node rest IH]; intros Hholds st rns Hw Hroom; simpl.
  - eexists. split; reflexivity.
  - destruct (buildRouteNode_succeeds restrictions nodeWayMap waysMap node) as [rn Hrn].
    { intros wayId way. apply Hholds. left. }
    rewrite Hrn.
    assert (Hwrite : RouteNode_Write medium rn (bs_writer st)
                     = (true, writer_put (ItemRouteNode rn) (bs_writer st))).
    { unfold RouteNode_Write. unfold roomFor in Hroom.
      destruct (room medium) as [n|]; [|reflexivity].
      destruct Hw as (Hitems & _ & _). rewrite Hitems, routeNodesOf_records.
      simpl in Hroom. destruct (Nat.ltb_spec (length rns) n); [reflexivity|lia]. }
    rewrite Hwrite.
    edestruct IH as (st' & Hrun & Hscanner); [| |  |exists st'; split; [exact Hrun|]].
    + intros node' wayId way Hin. apply Hholds. right. exact Hin.
    + apply Written_put with (rn := rn). exact Hw.
    + rewrite length_app. simpl in *. replace (length rns + 1 + length rest)%nat
        with (length rns + S (length rest))%nat by lia. exact Hroom.
    + rewrite Hscanner. reflexivity.
Qed.

(** A block all of whose entries are served, on a scanner that is sound. *)
Lemma processBlock_succeeds restrictions nodeWayMap wayIndex block st rns :
  (forall node, node ∈ block -> Served wayIndex (fs_file (bs_scanner st)) node) ->
  fs_hasError (bs_scanner st) = false ->
  (fs_pos (bs_scanner st) <= length (fs_file (bs_scanner st)))%nat ->
  Written st rns ->
  roomFor medium (length rns + length block) ->
  exists st',
    processBlock dist accessBit medium restrictions nodeWayMap wayIndex block st = (Ok, st') /\
    bs_scanner st' = bs_scanner st.
Proof.
  intros Hserved Herr Hpos Hw Hroom. unfold processBlock.
  case_bool_decide as Hempty; [eexists; split; reflexivity|].
  destruct (LoadWays_succeeds (bs_scanner st) wayIndex (collectWayIds block) [] Herr Hpos)
    as (loaded & Hload & Hloaded).
  { intros id Hin. apply elem_of_collectWayIds in Hin as (node & Hnode & Hid).
    destruct (Hserved node Hnode id Hid) as (way & Hway & _). exists way. exact Hway. }
  rewrite Hload. simpl app.
  enough (Hholds : forall node wayId way, node ∈ block -> wayId ∈ snd node ->
            makeWaysMap loaded !! wayId = Some way -> holdsNode way (fst node)).
  { destruct (storeRouteNodes_succeeds restrictions nodeWayMap (makeWaysMap loaded) block
                Hholds
                (mkBuildState (bs_scanner st) (bs_writer st) (handledRouteNodeCount st)
                              (writtenRouteNodeCount st) (writtenRoutePathCount st))
                rns Hw Hroom) as (st' & Hrun & Hscanner).
    exists st'. split; [exact Hrun|exact Hscanner]. }
  intros node wayId way Hnode Hid Hlook.
  apply makeWaysMap_lookup in Hlook as [Hin Hown].
  apply list_elem_of_lookup in Hin as [i Hi].
  destruct (Forall2_lookup_r _ _ _ _ _ Hloaded Hi) as (id' & Hid' & Hrecord).
  assert (Hlisted : id' ∈ collectWayIds block).
  { apply elem_of_elements. rewrite <- (merge_sort_Permutation Z.le _).
    eapply list_elem_of_lookup_2. exact Hid'. }
  apply elem_of_collectWayIds in Hlisted as (node' & Hnode' & Hlisted).
  destruct (Hserved node' Hnode' id' Hlisted) as (way' & Hrecord' & Hown' & _).
  assert (way' = way) as -> by (eapply indexedRecord_functional; eassumption).
  assert (id' = wayId) as -> by congruence.
  destruct (Hserved node Hnode wayId Hid) as (way'' & Hrecord'' & _ & Hholds).
  assert (way'' = way) as -> by (eapply indexedRecord_functional; eassumption).
  exact Hholds.
Qed.

Lemma Import_loop_succeeds restrictions nodeWayMap wayIndex blockSize fuel :
  (0 < blockSize)%nat ->
  forall entries st rns,
    (length entries <= fuel)%nat ->
    (forall node, node ∈ entries -> Served wayIndex (fs_file (bs_scanner st)) node) ->
    fs_hasError (bs_scanner st) = false ->
    (fs_pos (bs_scanner st) <= length (fs_file (bs_scanner st)))%nat ->
    Written st rns ->
    roomFor medium (length rns + length entries) ->
    exists st',
      Import_loop dist accessBit medium fuel restrictions nodeWayMap wayIndex blockSize
                  entries st = (Ok, st').
Proof.
  intros Hsize. induction fuel as [|fuel IH]; intros entries st rns Hfuel Hserved Herr Hpos
                                                      Hw Hroom.
  - destruct entries; [eexists; reflexivity|simpl in Hfuel; lia].
  - destruct entries as [|e entries'] eqn:He; [eexists; reflexivity|].
    rewrite <- He in *.
    assert (Hunfold :
      Import_loop dist accessBit medium (S fuel) restrictions nodeWayMap wayIndex blockSize
                  entries st
      = match processBlock dist accessBit medium restrictions nodeWayMap wayIndex
                (take blockSize entries) st with
        | (Ok, st1) => Import_loop dist accessBit medium fuel restrictions nodeWayMap wayIndex
                         blockSize (drop blockSize entries) st1
        | other => other
        end).
    { rewrite He. reflexivity. }
    rewrite Hunfold. clear Hunfold.
    assert (Hlen : (length (take blockSize entries) + length (drop blockSize entries)
                    = length entries)%nat).
    { rewrite <- length_app, take_drop. reflexivity. }
    assert (Hroom1 : roomFor medium (length rns + length (take blockSize entries))).
    { unfold roomFor in *. destruct (room medium); [lia|exact I]. }
    destruct (processBlock_succeeds restrictions nodeWayMap wayIndex (take blockSize entries)
                st rns) as (st1 & Hblock & Hscanner); try assumption.
    { intros node Hin. apply Hserved, (subseteq_take blockSize entries), Hin. }
    rewrite Hblock.
    destruct (processBlock_Written _ _ _ _ _ _ _ _ _ _ _ Hblock Hw)
      as (new & Hw1 & Hnew & _).
    apply (IH (drop blockSize entries) st1 (rns ++ new)).
    + rewrite length_drop. rewrite He in *. simpl in Hfuel. simpl. lia.
    + rewrite Hscanner. intros node Hin.
      apply Hserved, (subseteq_drop blockSize entries), Hin.
    + rewrite Hscanner. exact Herr.
    + rewrite Hscanner. exact Hpos.
    + exact Hw1.
    + unfold roomFor in *. destruct (room medium); [|exact I].
      rewrite length_app. lia.
Qed.
Lemma writeRouteNodes_succeeds restrictions nodeWayMap wayIndex blockSize
    (file : list (Slot Way)) :
  (0 < blockSize)%nat ->
  (forall node, node ∈ mapEntries nodeWayMap -> Served wayIndex file node) ->
  roomFor medium (size nodeWayMap) ->
  exists st,
    writeRouteNodes dist accessBit medium restrictions nodeWayMap wayIndex blockSize
                    (mkScanner file 0 false) = (Ok, st).
Proof.
  intros Hsize Hserved Hroom. unfold writeRouteNodes.
  apply Import_loop_succeeds with (rns := []).
  - exact Hsize.
  - lia.
  - exact Hserved.
  - reflexivity.
  - simpl. lia.
  - apply Written_start.
  - rewrite length_mapEntries. exact Hroom.
Qed.

(** The build phase on the node way map of a file whose ways are indexed:
    it runs through and writes one record per junction. *)
Lemma build_runs_through restrictions typeConfig wayIndex blockSize (file : list (Slot Way))
    (ways : list Way) :
  Indexed typeConfig wayIndex file ways ->
  (0 < blockSize)%nat ->
  roomFor medium (size (junctionsOf typeConfig ways)) ->
  let junctions := collectJunctions (fold_left (countWay typeConfig) ways ∅) ∅ in
  let nodeWayMap := fold_left (addWayEndpoints typeConfig junctions) ways ∅ in
  exists st rns,
    writeRouteNodes dist accessBit medium restrictions nodeWayMap wayIndex blockSize
                    (mkScanner file 0 false) = (Ok, st) /\
    Written st rns /\
    map rn_id rns = merge_sort Z.le (elements (junctionsOf typeConfig ways)).
Proof.
  intros Hindexed Hsize Hroom junctions nodeWayMap.
  destruct (endpoints_of_junctions typeConfig ways) as (_ & Hdom & Hlists).
  fold junctions in Hdom, Hlists. fold nodeWayMap in Hdom, Hlists.
  assert (Hjunctions : dom nodeWayMap = junctionsOf typeConfig ways).
  { rewrite Hdom. apply collectJunctions_junctionsOf. }
  destruct (writeRouteNodes_succeeds restrictions nodeWayMap wayIndex blockSize file Hsize)
    as [st Hrun].
  { apply entries_served, Hindexed. }
  { rewrite <- size_dom, Hjunctions. exact Hroom. }
  pose proof (writeRouteNodes_Written _ _ _ _ _ _ _ _ _ _ Hrun) as (rns & Hw & _ & _).
  exists st, rns. split; [exact Hrun|]. split; [exact Hw|].
  pose proof (writeRouteNodes_ids _ _ _ _ _ _ _ _ _ _ Hrun) as [_ Hids].
  apply records_of_run in Hw as [Hrns _]. rewrite Hrns, Hjunctions in Hids.
  apply Hids; [reflexivity|].
  intros id wayIds Hlook Hnil. apply Hlists in Hlook as [_ Hlen].
  rewrite Hnil in Hlen. simpl in Hlen. lia.
Qed.

(** [Import] on files that hold what their counts announce: the three
    readers succeed and the build phase decides the outcome. *)
Lemma Import_on_files blockSize typeConfig uninit dir (relations : list RawRelation)
    (file : list (Slot Way)) (ways : list Way) (wayIndex : gmap Id FileOffset) :
  recordsOf (rawrels_dat dir) = Some relations ->
  Z.of_nat (length relations) < 2^32 - 1 ->
  ways_dat dir = Some file ->
  recordsOf (Some file) = Some ways ->
  Z.of_nat (length ways) < 2^32 - 1 ->
  way_idx dir = Some wayIndex ->
  creates medium = true ->
  let restrictions := handleRelations typeConfig uninit 1 relations ∅ in
  let junctions := collectJunctions (fold_left (countWay typeConfig) ways ∅) ∅ in
  let nodeWayMap := fold_left (addWayEndpoints typeConfig junctions) ways ∅ in
  Import dist accessBit medium blockSize typeConfig uninit dir
  = match writeRouteNodes dist accessBit medium restrictions nodeWayMap wayIndex blockSize
            (mkScanner file 0 false) with
    | (Ok, st) =>
        (if writerCloses medium && indexCloses medium then Ok else ReturnFalse,
         Some (fw_items (patchHeader st)))
    | (other, st) => (other, Some (fw_items (bs_writer st)))
    end.
Proof.
  intros Hrelations Hfew Hfile Hways Hfew' Hindex Hcreates restrictions junctions nodeWayMap.
  unfold Import.
  rewrite ReadRestrictionRelations_records, Hrelations.
  destruct (Z.eqb_spec (Z.of_nat (length relations)) (2^32 - 1)); [lia|].
  rewrite ReadJunctions_records, Hfile, Hways.
  destruct (Z.eqb_spec (Z.of_nat (length ways)) (2^32 - 1)) as [|Hcount]; [lia|].
  rewrite ReadWayEndpoints_records, Hways.
  apply Z.eqb_neq in Hcount. rewrite Hcount, Hindex, Hcreates.
  cbn [scanner_Open negb].
  fold restrictions. fold junctions. fold nodeWayMap.
  destruct (writeRouteNodes _ _ _ _ _ _ _ _) as [[] st]; try reflexivity.
  cbn [scanner_Close]. destruct (writerCloses medium), (indexCloses medium); reflexivity.
Qed.

(** X29. [Import] returns [true] on inputs that fit together: a
    [rawrels.dat] and a [ways.dat] that hold the records their counts
    announce, fewer than [2^32-1] each, a way index that leads the id of
    every routable way to the record of that way, a block size that is not
    0, and a medium that takes a route node for every junction and on
    which nothing else fails.  The [route.dat] it leaves holds one record
    for every junction, in ascending order of the node ids, behind a
    header that holds their number modulo [2^32]. *)
Theorem Import_returns_true blockSize typeConfig uninit dir (relations : list RawRelation)
    (file : list (Slot Way)) (ways : list Way) (wayIndex : gmap Id FileOffset) :
  recordsOf (rawrels_dat dir) = Some relations ->
  Z.of_nat (length relations) < 2^32 - 1 ->
  ways_dat dir = Some file ->
  recordsOf (Some file) = Some ways ->
  Z.of_nat (length ways) < 2^32 - 1 ->
  way_idx dir = Some wayIndex ->
  Indexed typeConfig wayIndex file ways ->
  (0 < blockSize)%nat ->
  creates medium = true ->
  roomFor medium (size (junctionsOf typeConfig ways)) ->
  writerCloses medium = true ->
  indexCloses medium = true ->
  exists items,
    Import dist accessBit medium blockSize typeConfig uninit dir = (Ok, Some items) /\
    map rn_id (routeNodesOf items)
    = merge_sort Z.le (elements (junctionsOf typeConfig ways)) /\
    headerOf items = Some (Z.of_nat (size (junctionsOf typeConfig ways)) mod 2^32).
Proof.
  intros Hrelations Hfew Hfile Hways Hfew' Hindex Hindexed Hsize Hcreates Hroom Hwriter
         Hcloses.
  rewrite (Import_on_files blockSize typeConfig uninit dir relations file ways wayIndex)
    by assumption.
  destruct (build_runs_through (handleRelations typeConfig uninit 1 relations ∅) typeConfig
              wayIndex blockSize file ways Hindexed Hsize Hroom)
    as (st & rns & Hrun & Hw & Hids).
  rewrite Hrun, Hwriter, Hcloses. eexists. split; [reflexivity|].
  rewrite (patchHeader_items st rns Hw), routeNodesOf_records.
  split; [exact Hids|]. simpl headerOf. do 3 f_equal.
  rewrite <- (length_map rn_id rns), Hids.
  rewrite (Permutation_length (merge_sort_Permutation Z.le _)). reflexivity.
Qed.
End RunsThrough.

Lemma Import_returns_true_witness :
  exists items,
    Import Ex.unitDistance Ex.hasAccess Ex.disk 5 Ex.typeConfig Ex.zeroed Ex.triangleDir
    = (Ok, Some items) /\
    map rn_id (routeNodesOf items) = [1; 2; 3] /\
    headerOf items = Some 3.
Proof.
  destruct (Import_returns_true Ex.unitDistance Ex.hasAccess Ex.disk 5 Ex.typeConfig
              Ex.zeroed Ex.triangleDir [] (waysFile Ex.triangleWays) Ex.triangleWays
              Ex.triangleIndex)
    as (items & Hrun & Hids & Hheader); try reflexivity; try (simpl; lia).
  - apply (indexOf_Indexed Ex.typeConfig Ex.triangleWays).
    apply (bool_decide_unpack _). vm_compute. exact I.
  - exists items. split; [exact Hrun|]. rewrite Hids, Hheader.
    split; vm_compute; reflexivity.
Defined.

(** ** A run that writes [2^32] route nodes *)

Lemma NoDup_naturals (f : nat -> Z) (n : nat) :
  (forall a b, f a = f b -> a = b) -> NoDup (map f (seq 0 n)).
Proof. intros Hinj. apply (NoDup_fmap_2 f (Inj0 := Hinj)), NoDup_seq. Qed.

Lemma zigzags_length (n : nat) : length (Ex.zigzags n) = n.
Proof. unfold Ex.zigzags. rewrite length_map, length_seq. reflexivity. Qed.

Lemma zigzags_ids (n : nat) :
  map way_GetId (Ex.zigzags n) = map (fun k => Z.of_nat k + 1) (seq 0 n).
Proof. unfold Ex.zigzags. rewrite map_map. reflexivity. Qed.

Lemma zigzag_holds (k : nat) (id : Id) :
  holdsNode (Ex.zigzag k) id <-> id = 2 * Z.of_nat k \/ id = 2 * Z.of_nat k + 1.
Proof.
  unfold holdsNode. cbn [nodes Ex.zigzag]. split.
  - intros (p & Hin & <-).
    repeat (apply elem_of_cons in Hin as [->|Hin]; [cbn [GetId Ex.pt]; auto|]).
    apply elem_of_nil in Hin. contradiction.
  - intros [->| ->].
    + exists (Ex.pt (2 * Z.of_nat k)). split; [left|reflexivity].
    + exists (Ex.pt (2 * Z.of_nat k + 1)). split; [right; left|reflexivity].
Qed.

Lemma zigzag_occurrences (k : nat) (id : Id) :
  id = 2 * Z.of_nat k \/ id = 2 * Z.of_nat k + 1 ->
  occurrences id (nodes (Ex.zigzag k)) = 2%nat.
Proof.
  intros Hid. unfold occurrences. cbn [nodes Ex.zigzag List.filter GetId Ex.pt].
  destruct (Z.eqb_spec (2 * Z.of_nat k) id), (Z.eqb_spec (2 * Z.of_nat k + 1) id);
    try lia; reflexivity.
Qed.

(** Every node of the zigzag ways appears twice: the junctions of the
    first [n] of them are the ids from 0 up to [2n-1]. *)
Lemma zigzags_appearances (n : nat) (id : Id) :
  (2 <= appearances Ex.typeConfig (Ex.zigzags n) id)%nat <-> 0 <= id < 2 * Z.of_nat n.
Proof.
  split.
  - intros Htwice.
    assert (Hpos : (0 < appearances Ex.typeConfig (Ex.zigzags n) id)%nat) by lia.
    apply appearances_holds in Hpos as (way & Hin & _ & Hholds).
    unfold Ex.zigzags in Hin. apply list_elem_of_fmap in Hin as (k & -> & Hk).
    apply elem_of_seq in Hk. apply zigzag_holds in Hholds. lia.
  - intros Hrange.
    assert (Hk : exists k, (k < n)%nat /\ (id = 2 * Z.of_nat k \/ id = 2 * Z.of_nat k + 1)).
    { destruct (Z.Even_or_Odd id) as [[m Hm]|[m Hm]]; exists (Z.to_nat m); lia. }
    destruct Hk as (k & Hk & Hid).
    rewrite <- (zigzag_occurrences k id Hid).
    apply appearances_ge; [|reflexivity].
    unfold Ex.zigzags. apply list_elem_of_fmap_2, elem_of_seq. lia.
Qed.

Lemma zigzags_junction_count (n : nat) :
  size (junctionsOf Ex.typeConfig (Ex.zigzags n)) = (2 * n)%nat.
Proof.
  assert (Hjunctions : junctionsOf Ex.typeConfig (Ex.zigzags n)
                       = list_to_set (map Z.of_nat (seq 0 (2 * n)))).
  { apply set_eq. intros id.
    rewrite elem_of_junctionsOf, zigzags_appearances, elem_of_list_to_set. split.
    - intros Hrange. replace id with (Z.of_nat (Z.to_nat id)) by lia.
      apply list_elem_of_fmap_2, elem_of_seq. lia.
    - intros Hin. apply list_elem_of_fmap in Hin as (k & -> & Hk).
      apply elem_of_seq in Hk. lia. }
  rewrite Hjunctions, size_list_to_set.
  - rewrite length_map, length_seq. reflexivity.
  - apply NoDup_naturals. intros a b. lia.
Qed.

(** [Import] on the first [n] zigzag ways, fewer than [2^32-1], with
    their index: it returns [true] and leaves two route nodes for every
    way behind the header. *)
Lemma zigzag_run (n blockSize : nat) (uninit : nat -> Id * Id) :
  Z.of_nat n < 2^32 - 1 ->
  (0 < blockSize)%nat ->
  exists items,
    Import Ex.unitDistance Ex.hasAccess Ex.disk blockSize Ex.typeConfig uninit (Ex.zigzagDir n)
    = (Ok, Some items) /\
    length (routeNodesOf items) = (2 * n)%nat /\
    headerOf items = Some (Z.of_nat (2 * n) mod 2^32).
Proof.
  intros Hn Hsize.
  rewrite (Import_on_files Ex.unitDistance Ex.hasAccess Ex.disk blockSize Ex.typeConfig uninit
             (Ex.zigzagDir n) [] (waysFile (Ex.zigzags n)) (Ex.zigzags n)
             (indexOf (Ex.zigzags n))).
  2: reflexivity.
  2: cbn [length]; lia.
  2: reflexivity.
  2: apply recordsOf_waysFile; rewrite zigzags_length; lia.
  2: rewrite zigzags_length; exact Hn.
  2: reflexivity.
  2: reflexivity.
  destruct (build_runs_through Ex.unitDistance Ex.hasAccess Ex.disk
              (handleRelations Ex.typeConfig uninit 1 [] ∅) Ex.typeConfig
              (indexOf (Ex.zigzags n)) blockSize (waysFile (Ex.zigzags n)) (Ex.zigzags n))
    as (st & rns & Hrun & Hw & Hids).
  - apply indexOf_Indexed. rewrite zigzags_ids. apply NoDup_naturals. intros a b. lia.
  - exact Hsize.
  - exact I.
  - rewrite Hrun. cbn [Ex.disk writerCloses indexCloses andb].
    eexists. split; [reflexivity|].
    rewrite (patchHeader_items st rns Hw), routeNodesOf_records.
    assert (Hcount : length rns = (2 * n)%nat).
    { rewrite <- (length_map rn_id rns), Hids.
      rewrite (Permutation_length (merge_sort_Permutation Z.le _)).
      apply zigzags_junction_count. }
    split; [exact Hcount|]. cbn [headerOf]. rewrite Hcount. reflexivity.
Qed.

(** C7, the claim as stated: on [2^31] zigzag ways [Import] returns
    [true] and leaves [2^32] route nodes in [route.dat], one for each of
    the node ids from 0 up to [2^32-1]; the counter has wrapped, and the
    header it leaves at offset 0 is 0, not the number of records. *)
Lemma header_wraps_at_2_32_records :
  exists items,
    Import Ex.unitDistance Ex.hasAccess Ex.disk 5 Ex.typeConfig Ex.zeroed
           (Ex.zigzagDir (Z.to_nat (2^31)))
    = (Ok, Some items) /\
    Z.of_nat (length (routeNodesOf items)) = 2^32 /\
    headerOf items = Some 0 /\
    headerOf items <> Some (Z.of_nat (length (routeNodesOf items))).
Proof.
  destruct (zigzag_run (Z.to_nat (2^31)) 5 Ex.zeroed) as (items & Hrun & Hlen & Hheader).
  - rewrite Z2Nat.id by lia. lia.
  - lia.
  - exists items. split; [exact Hrun|].
    rewrite Hheader, Hlen, Nat2Z.inj_mul, Z2Nat.id by lia.
    split; [reflexivity|]. split; [reflexivity|]. discriminate.
Qed.

(** ** [Way.cpp]: records in a file *)

Module WayProperties.
Import WayCodec WayCodecProperties.

Section Records.
Variable Attr : Type.
Variable IdModulus : Z.
Variable conversionFactor : float.
Variable round_u32 : float -> Z.
Variable u32_to_double : Z -> float.

Lemma Write_appends (minId0 : Id) (way : Way Attr) (before : list (Token Attr)) :
  nodes way <> [] ->
  Write Attr IdModulus conversionFactor round_u32 minId0 way (mkWriter before false)
  = Some (true,
          mkWriter (before ++ recordTokens Attr IdModulus conversionFactor round_u32 minId0 way)
                   false).
Proof.
  intros Hnodes. unfold Write, recordTokens.
  destruct (nodes way) as [|first others] eqn:Hns; [contradiction|].
  rewrite <- Hns.
  unfold attributes_Write, Write_u32, WriteNumber.
  cbn [wr_hasError negb]. rewrite !put_ok.
  rewrite writeCoords_tokens.
  destruct (scanIds (ids way) minId0) as [idCount minId].
  cbn [fst snd]. rewrite put_ok.
  destruct (0 <? idCount).
  - rewrite put_ok, writeIds_tokens. cbn [wr_hasError negb].
    rewrite <- !app_assoc. reflexivity.
  - cbn [wr_hasError negb]. rewrite <- !app_assoc. reflexivity.
Qed.

Lemma length_coordTokens (A B : float) (ns : list Coord) :
  length (coordTokens Attr conversionFactor round_u32 A B ns) = (2 * length ns)%nat.
Proof. induction ns as [|n ns IH]; simpl; [reflexivity|]. rewrite IH. lia. Qed.

Lemma length_idTokens (minId : Id) (i : nat) (l : list Id) :
  length (idTokens Attr IdModulus minId i l) = (2 * countNonzero l)%nat.
Proof.
  revert i. unfold countNonzero. induction l as [|id l IH]; intros i; simpl; [reflexivity|].
  destruct (negb (id =? 0)); simpl; rewrite IH; lia.
Qed.

Lemma scanIds_count (l : list Id) (minId0 : Id) :
  Z.of_nat (length l) < 2^32 ->
  fst (scanIds l minId0) = Z.of_nat (countNonzero l).
Proof.
  unfold scanIds.
  enough (Hfold : forall c m, 0 <= c -> c + Z.of_nat (length l) < 2^32 ->
            fst (fold_left scanId l (c, m)) = c + Z.of_nat (countNonzero l)).
  { intros Hlen. rewrite Hfold by lia. lia. }
  unfold countNonzero. induction l as [|id l IH]; intros c m Hc Hlen; simpl.
  - lia.
  - simpl length in Hlen. unfold scanId at 2. cbn [fst snd].
    destruct (negb (id =? 0)); simpl.
    + rewrite IH.
      * rewrite Z.mod_small by lia. lia.
      * apply Z.mod_pos_bound. lia.
      * rewrite Z.mod_small by lia. lia.
    + rewrite IH by lia. lia.
Qed.

Lemma readIds_consumes (minId minId' : Id) (todo : list Id) :
  forall (i : nat) (l : list Id) (rest : list (Token Attr)) (pos : nat),
    (i + length todo <= length l)%nat ->
    Z.of_nat (length l) < 2^32 ->
    exists l',
      readIds Attr IdModulus (countNonzero todo) minId l
        (mkScanner (idTokens Attr IdModulus minId' i todo ++ rest) pos false)
      = Some (l', mkScanner rest (pos + 2 * countNonzero todo) false) /\
      length l' = length l.
Proof.
  induction todo as [|id todo IH]; intros i l rest pos Hfit Hsize.
  - exists l. simpl. rewrite Nat.add_0_r. auto.
  - simpl length in Hfit.
    simpl idTokens. destruct (Z.eqb_spec id 0) as [->|Hne]; simpl negb; cbv iota.
    + replace (countNonzero (0 :: todo)) with (countNonzero todo) by reflexivity.
      apply IH; [lia|exact Hsize].
    + replace (countNonzero (id :: todo)) with (S (countNonzero todo)).
      2:{ unfold countNonzero. simpl. destruct (Z.eqb_spec id 0); [contradiction|reflexivity]. }
      simpl app. rewrite readIds_step.
      rewrite (Z.mod_small (Z.of_nat i)) by lia.
      rewrite (Z.mod_small (Z.of_nat i)) by lia.
      rewrite Nat2Z.id.
      assert (Hinside : (i <? length l)%nat = true) by (apply Nat.ltb_lt; lia).
      rewrite Hinside.
      destruct (IH (S i) (<[ i := (((id - minId') mod IdModulus) mod IdModulus + minId)
                                    mod IdModulus ]> l) rest (S (S pos)))
        as (l' & Hread & Hlen).
      { rewrite length_insert. lia. }
      { rewrite length_insert. exact Hsize. }
      exists l'. rewrite Hread. split; [do 3 f_equal; lia|].
      rewrite Hlen. apply length_insert.
Qed.

Lemma readCoords_length (n i : nat) (minLat minLon : Z) (nodes0 : list Coord)
    (sc : Scanner Attr) :
  length (fst (readCoords Attr conversionFactor u32_to_double n i minLat minLon nodes0 sc))
  = length nodes0.
Proof.
  revert i nodes0 sc. induction n as [|n IH]; intros i nodes0 sc; simpl; [reflexivity|].
  destruct (ReadNumber Attr (2^32) sc) as [[ok1 latValue] sc1].
  destruct (ReadNumber Attr (2^32) sc1) as [[ok2 lonValue] sc2].
  rewrite IH. apply length_insert.
Qed.

Lemma length_resized {T : Type} (n : nat) (x : T) (v : list T) :
  length (resize n x v) = n.
Proof. unfold resize. rewrite length_app, length_take, length_replicate. lia. Qed.

(** [Read] on the tokens of a record: what is left to do once the
    coordinates are read. *)
Lemma Read_on_record (minId0 : Id) (way target : Way Attr) (rest : list (Token Attr))
    (pos : nat) :
  nodes way <> [] ->
  Z.of_nat (length (nodes way)) < 2^32 ->
  exists nodes1,
    length nodes1 = length (nodes way) /\
    Read Attr IdModulus conversionFactor u32_to_double target
         (mkScanner (recordTokens Attr IdModulus conversionFactor round_u32 minId0 way ++ rest)
                    pos false)
    = let idCount := fst (scanIds (ids way) minId0) in
      let minId := snd (scanIds (ids way) minId0) in
      let idSection :=
        if 0 <? idCount
        then TokNumber (minId mod IdModulus) :: idTokens Attr IdModulus minId 0 (ids way)
        else [] in
      let behindCount :=
        mkScanner (idSection ++ rest) (S (S (S (S (S pos))) + 2 * length (nodes way))) false in
      match (if 0 <? idCount mod 2^32 mod 2^32
             then let '(_, minId1, scanner1) := ReadNumber Attr IdModulus behindCount in
                  readIds Attr IdModulus (Z.to_nat (idCount mod 2^32 mod 2^32)) minId1
                    (resize (length (nodes way)) 0 (ids target)) scanner1
             else Some (resize (length (nodes way)) 0 (ids target), behindCount)) with
      | None => None
      | Some (ids1, scanner1) =>
          Some (negb (sc_hasError scanner1), mkWay (attributes way) nodes1 ids1 pos, scanner1)
      end.
Proof.
  intros Hnodes Hsize. unfold recordTokens.
  destruct (nodes way) as [|first others] eqn:Hns; [contradiction|].
  rewrite <- Hns in *.
  set (A := fold_left (fun m n => fmin m (GetLat n)) others (GetLat first)).
  set (B := fold_left (fun m n => fmin m (GetLon n)) others (GetLon first)).
  set (x := round_u32 (PrimFloat.mul (PrimFloat.add A 90%float) conversionFactor)).
  set (y := round_u32 (PrimFloat.mul (PrimFloat.add B 180%float) conversionFactor)).
  destruct (scanIds (ids way) minId0) as [idCount minId]. cbn [fst snd].
  set (idSection := if 0 <? idCount
                    then TokNumber (minId mod IdModulus)
                         :: idTokens Attr IdModulus minId 0 (ids way)
                    else []).
  destruct (readCoords_tokens Attr conversionFactor round_u32 u32_to_double
              A B (nodes way) 0 (x mod 2^32 mod 2^32) (y mod 2^32 mod 2^32)
              (resize (length (nodes way)) (mkCoord 0%float 0%float) (nodes target))
              (TokNumber (idCount mod 2^32) :: idSection ++ rest) (S (S (S (S pos)))))
    as [nodes1 Hcoords].
  pose proof (readCoords_length (length (nodes way)) 0 (x mod 2^32 mod 2^32)
                (y mod 2^32 mod 2^32)
                (resize (length (nodes way)) (mkCoord 0%float 0%float) (nodes target))
                (mkScanner (coordTokens Attr conversionFactor round_u32 A B (nodes way)
                            ++ TokNumber (idCount mod 2^32) :: idSection ++ rest)
                           (S (S (S (S pos)))) false)) as Hlen1.
  rewrite Hcoords, length_resized in Hlen1. simpl in Hlen1.
  exists nodes1. split; [exact Hlen1|].
  unfold Read, GetPos, attributes_Read, Read_u32, advance.
  cbn [app sc_hasError sc_tokens sc_pos attributes nodes ids fileOffset].
  rewrite ReadNumber_token.
  rewrite Z.mod_mod by lia. rewrite (Z.mod_small (Z.of_nat _)) by lia.
  rewrite Nat2Z.id. cbn [sc_hasError sc_tokens sc_pos].
  rewrite <- app_assoc. cbn [app].
  rewrite Hcoords, ReadNumber_token.
  replace (S (S (S (S (S pos))) + 2 * length (nodes way)))
    with (S (S (S (S (S pos))) + 2 * length (nodes way)))%nat by lia.
  reflexivity.
Qed.

Lemma length_recordTokens (minId0 : Id) (way : Way Attr) :
  nodes way <> [] ->
  length (recordTokens Attr IdModulus conversionFactor round_u32 minId0 way)
  = (5 + 2 * length (nodes way)
     + length (if (0 <? fst (scanIds (ids way) minId0))%Z
               then TokNumber (snd (scanIds (ids way) minId0) mod IdModulus)%Z
                    :: idTokens Attr IdModulus (snd (scanIds (ids way) minId0)) 0 (ids way)
               else []))%nat.
Proof.
  intros Hnodes. unfold recordTokens.
  destruct (nodes way) as [|first others] eqn:Hns; [contradiction|].
  rewrite <- Hns.
  rewrite !length_cons, length_app, length_coordTokens, length_cons. lia.
Qed.

(** X22. A record that [Write] appends to a file, for a way with no more
    ids than nodes, is read back by [Read] from the offset it was written
    at, whatever precedes and follows it: [Read] returns [true], takes
    the attributes and the number of nodes of the way written, notes the
    offset in [fileOffset], and leaves the scanner exactly behind the
    record, where the next one starts. *)
Theorem Read_leaves_scanner_behind_record (minId0 : Id) (way target : Way Attr)
    (before rest : list (Token Attr)) (pos : nat) :
  nodes way <> [] ->
  Z.of_nat (length (nodes way)) < 2^32 ->
  (length (ids way) <= length (nodes way))%nat ->
  exists record way',
    Write Attr IdModulus conversionFactor round_u32 minId0 way (mkWriter before false)
    = Some (true, mkWriter (before ++ record) false) /\
    Read Attr IdModulus conversionFactor u32_to_double target
         (mkScanner (record ++ rest) pos false)
    = Some (true, way', mkScanner rest (pos + length record) false) /\
    attributes way' = attributes way /\
    length (nodes way') = length (nodes way) /\
    fileOffset way' = pos.
Proof.
  intros Hnodes Hsize Hids.
  exists (recordTokens Attr IdModulus conversionFactor round_u32 minId0 way).
  destruct (Read_on_record minId0 way target rest pos Hnodes Hsize)
    as (nodes1 & Hlen1 & Hread).
  assert (Hidsize : Z.of_nat (length (ids way)) < 2^32) by lia.
  pose proof (scanIds_count (ids way) minId0 Hidsize) as Hcount.
  assert (Hle : (countNonzero (ids way) <= length (ids way))%nat).
  { unfold countNonzero. apply List.filter_length_le. }
  rewrite Hread, (length_recordTokens minId0 way Hnodes). clear Hread.
  destruct (scanIds (ids way) minId0) as [idCount minId]. cbn [fst snd] in *.
  cbv zeta. rewrite Z.mod_mod by lia. rewrite (Z.mod_small idCount) by lia.
  destruct (0 <? idCount).
  - cbn [app]. rewrite ReadNumber_token.
    destruct (readIds_consumes (minId mod IdModulus mod IdModulus) minId (ids way) 0
                (resize (length (nodes way)) 0 (ids target)) rest
                (S (S (S (S (S (S pos))) + 2 * length (nodes way)))))
      as (ids1 & Hread & _).
    { rewrite length_resized. simpl. exact Hids. }
    { rewrite length_resized. exact Hsize. }
    rewrite Hcount, Nat2Z.id, Hread. cbn [sc_hasError negb].
    exists (mkWay (attributes way) nodes1 ids1 pos).
    split; [apply Write_appends, Hnodes|].
    split; [|split; [reflexivity|split; [exact Hlen1|reflexivity]]].
    do 3 f_equal. rewrite length_cons, length_idTokens. lia.
  - cbn [app sc_hasError negb length].
    exists (mkWay (attributes way) nodes1 (resize (length (nodes way)) 0 (ids target)) pos).
    split; [apply Write_appends, Hnodes|].
    split; [|split; [reflexivity|split; [exact Hlen1|reflexivity]]].
    do 3 f_equal. lia.
Qed.

(** The id loop of [Read] on the tokens of the id loop of [Write], into a
    vector that holds [old] where the ids to come go. *)
Lemma readIds_overlay (minId : Id) (todo done old : list Id) (rest : list (Token Attr))
    (pos : nat) :
  0 <= minId < IdModulus ->
  Forall (fun id => id <> 0 -> minId <= id < IdModulus) todo ->
  Z.of_nat (length done + length todo) < 2^32 ->
  length old = length todo ->
  readIds Attr IdModulus (countNonzero todo) minId (done ++ old)
    (mkScanner (idTokens Attr IdModulus minId (length done) todo ++ rest) pos false)
  = Some (done ++ overlay todo old, mkScanner rest (pos + 2 * countNonzero todo) false).
Proof.
  intros HminId. revert done old pos.
  induction todo as [|id todo IH]; intros done old pos Hall Hlen Hold.
  - destruct old; [|discriminate]. simpl. rewrite Nat.add_0_r. reflexivity.
  - destruct old as [|o old]; [discriminate|].
    inversion Hall as [|? ? Hid Hrest]. subst.
    simpl length in *. simpl idTokens.
    destruct (Z.eqb_spec id 0) as [->|Hne]; simpl negb; cbv iota.
    + replace (countNonzero (0 :: todo)) with (countNonzero todo) by reflexivity.
      replace (overlay (0 :: todo) (o :: old)) with (o :: overlay todo old) by reflexivity.
      replace (done ++ o :: old) with ((done ++ [o]) ++ old)
        by (rewrite <- app_assoc; reflexivity).
      replace (done ++ o :: overlay todo old) with ((done ++ [o]) ++ overlay todo old)
        by (rewrite <- app_assoc; reflexivity).
      replace (S (length done)) with (length (done ++ [o]))
        by (rewrite length_app; simpl; lia).
      apply IH; [exact Hrest|rewrite length_app; simpl; lia|lia].
    + replace (countNonzero (id :: todo)) with (S (countNonzero todo)).
      2:{ unfold countNonzero. simpl. destruct (Z.eqb_spec id 0); [contradiction|reflexivity]. }
      replace (overlay (id :: todo) (o :: old)) with (id :: overlay todo old).
      2:{ unfold overlay. simpl. destruct (Z.eqb_spec id 0); [contradiction|reflexivity]. }
      simpl app at 2. rewrite readIds_step.
      rewrite (Z.mod_small (Z.of_nat (length done))) by lia.
      rewrite (Z.mod_small (Z.of_nat (length done))) by lia.
      rewrite Nat2Z.id.
      assert (Hinside : (length done <? length (done ++ o :: old))%nat = true)
        by (apply Nat.ltb_lt; rewrite length_app; simpl; lia).
      rewrite Hinside.
      specialize (Hid Hne).
      rewrite (Z.mod_small (id - minId)) by lia.
      rewrite (Z.mod_small (id - minId)) by lia.
      replace (id - minId + minId) with id by lia.
      rewrite (Z.mod_small id) by lia.
      rewrite insert_app_r_alt by lia. rewrite Nat.sub_diag. simpl insert.
      replace (done ++ id :: old) with ((done ++ [id]) ++ old)
        by (rewrite <- app_assoc; reflexivity).
      replace (done ++ id :: overlay todo old) with ((done ++ [id]) ++ overlay todo old)
        by (rewrite <- app_assoc; reflexivity).
      replace (S (length done)) with (length (done ++ [id]))
        by (rewrite length_app; simpl; lia).
      rewrite IH; [|exact Hrest|rewrite length_app; simpl; lia|lia].
      do 3 f_equal. lia.
Qed.

Lemma overlay_zeros (old : list Id) :
  overlay (replicate (length old) 0) old = old.
Proof. induction old as [|o old IH]; simpl; [reflexivity|]. unfold overlay in *. simpl. rewrite IH. reflexivity. Qed.

(** X23. [Read] into a [Way] that is not new keeps ids that are not in
    the file: the vector is resized to the number of nodes with
    [ids.resize(nodeCount,0)], which leaves what was there, and only the
    places of the non-zero ids of the file are assigned.  Where the way
    written has id 0, the way read has the id the target held there (0
    beyond its old size). *)
Theorem Read_keeps_ids_the_file_lacks (minId0 : Id) (way target : Way Attr) :
  nodes way <> [] ->
  length (ids way) = length (nodes way) ->
  Z.of_nat (length (nodes way)) < 2^32 ->
  Forall (fun id => 0 <= id < IdModulus) (ids way) ->
  exists writer way' scanner',
    Write Attr IdModulus conversionFactor round_u32 minId0 way (newWriter Attr)
    = Some (true, writer) /\
    Read Attr IdModulus conversionFactor u32_to_double target (openOn Attr writer)
    = Some (true, way', scanner') /\
    ids way' = overlay (ids way) (resize (length (nodes way)) 0 (ids target)).
Proof.
  intros Hnodes Hlen Hsize Hrange.
  destruct (scanIds_fold IdModulus (ids way) [] 0 minId0 Hrange eq_refl) as [Hcount Hmin].
  { rewrite Hlen. lia. }
  { intros; lia. }
  cbn [app] in Hcount, Hmin.
  fold (scanIds (ids way) minId0) in Hcount, Hmin.
  destruct (Read_on_record minId0 way target [] 0 Hnodes Hsize) as (nodes1 & _ & Hread).
  rewrite !app_nil_r in Hread.
  assert (Hle : (countNonzero (ids way) <= length (ids way))%nat).
  { unfold countNonzero. apply List.filter_length_le. }
  pose proof (Write_appends minId0 way [] Hnodes) as Hwrite. cbn [app] in Hwrite.
  destruct (scanIds (ids way) minId0) as [idCount minId]. cbn [fst snd] in *.
  cbv zeta in Hread. rewrite Z.mod_mod in Hread by lia.
  rewrite (Z.mod_small idCount) in Hread by lia.
  destruct (Z.ltb_spec 0 idCount) as [Hpos|Hzero].
  - destruct (Hmin Hpos) as [Hlow HminId].
    cbn [app] in Hread. rewrite ReadNumber_token in Hread.
    rewrite Z.mod_mod in Hread by lia. rewrite (Z.mod_small minId) in Hread by lia.
    rewrite Hcount, Nat2Z.id in Hread.
    pose proof (readIds_overlay minId (ids way) []
                  (resize (length (nodes way)) 0 (ids target)) []
                  (S (S (S (S (S (S 0))) + 2 * length (nodes way)))) HminId) as Hids.
    cbn [app length] in Hids. rewrite Hids in Hread.
    + cbn [sc_hasError negb] in Hread. do 3 eexists.
      split; [exact Hwrite|]. split; [exact Hread|reflexivity].
    + rewrite Forall_forall in *. intros id Hin Hne.
      specialize (Hrange id Hin). specialize (Hlow id Hin Hne). lia.
    + lia.
    + rewrite length_resized. lia.
  - cbn [app sc_hasError negb] in Hread. do 3 eexists.
    split; [exact Hwrite|]. split; [exact Hread|]. cbn [ids].
    assert (Hnone : ids way = replicate (length (ids way)) 0).
    { apply countNonzero_none. lia. }
    set (old := resize (length (nodes way)) 0 (ids target)).
    assert (Hold : length old = length (ids way)).
    { unfold old. rewrite length_resized, Hlen. reflexivity. }
    rewrite Hnone, <- Hold. symmetry. apply overlay_zeros.
Qed.

(** *** What [Read] takes from the [Way] read into *)

Lemma readCoords_scanner (n i i' : nat) (minLat minLon : Z) (l l' : list Coord)
    (sc : Scanner Attr) :
  snd (readCoords Attr conversionFactor u32_to_double n i minLat minLon l sc)
  = snd (readCoords Attr conversionFactor u32_to_double n i' minLat minLon l' sc).
Proof.
  revert i i' l l' sc. induction n as [|n IH]; intros i i' l l' sc; simpl; [reflexivity|].
  destruct (ReadNumber Attr (2^32) sc) as [[ok1 latValue] sc1].
  destruct (ReadNumber Attr (2^32) sc1) as [[ok2 lonValue] sc2].
  apply IH.
Qed.

Lemma readCoords_overwrites (n i : nat) (minLat minLon : Z) (l l' : list Coord)
    (sc : Scanner Attr) :
  length l = (i + n)%nat -> length l' = (i + n)%nat -> take i l = take i l' ->
  fst (readCoords Attr conversionFactor u32_to_double n i minLat minLon l sc)
  = fst (readCoords Attr conversionFactor u32_to_double n i minLat minLon l' sc).
Proof.
  revert i l l' sc. induction n as [|n IH]; intros i l l' sc Hl Hl' Htake; simpl.
  - rewrite <- (take_ge l i), <- (take_ge l' i) by lia. exact Htake.
  - destruct (ReadNumber Attr (2^32) sc) as [[ok1 latValue] sc1].
    destruct (ReadNumber Attr (2^32) sc1) as [[ok2 lonValue] sc2].
    assert (Hi : (i < length l)%nat) by lia.
    assert (Hi' : (i < length l')%nat) by lia.
    apply IH; rewrite ?length_insert; try lia.
    rewrite (take_S_r _ _ _ (list_lookup_insert_eq l i _ Hi)).
    rewrite (take_S_r _ _ _ (list_lookup_insert_eq l' i _ Hi')).
    rewrite !take_insert_ge by lia. rewrite Htake. reflexivity.
Qed.

(** Whether the id loop is defined, and where it leaves the scanner,
    depends on the length of the vector only. *)
Lemma readIds_scanner (n : nat) (minId : Id) :
  forall (l l' : list Id) (sc : Scanner Attr),
    length l = length l' ->
    option_map snd (readIds Attr IdModulus n minId l sc)
    = option_map snd (readIds Attr IdModulus n minId l' sc).
Proof.
  induction n as [|n IH]; intros l l' sc Hlen; simpl; [reflexivity|].
  destruct (ReadNumber Attr (2^32) sc) as [[ok1 index] sc1].
  destruct (ReadNumber Attr IdModulus sc1) as [[ok2 id] sc2].
  rewrite Hlen. destruct (_ <? _)%nat; [|reflexivity].
  apply IH. rewrite !length_insert. exact Hlen.
Qed.

(** X24. What a [Read] that returns [true], and assigns no id outside
    the [ids] vector, yields for the attributes, the nodes and the file
    offset does not depend on the [Way] read into:
    [nodes.resize(nodeCount)] keeps old coordinates, but the loop assigns
    every one of the [nodeCount] places.  Nor does it depend on that
    [Way] whether every id goes to an index inside the vector, which has
    [nodeCount] places either way: [Read] into any other [Way] returns
    [true] on the same file and leaves the scanner at the same place.
    Only [ids] can carry over what the [Way] held. *)
Theorem Read_overwrites_all_nodes (target1 target2 way1 : Way Attr)
    (scanner scanner1 : Scanner Attr) :
  Read Attr IdModulus conversionFactor u32_to_double target1 scanner
  = Some (true, way1, scanner1) ->
  exists way2,
    Read Attr IdModulus conversionFactor u32_to_double target2 scanner
    = Some (true, way2, scanner1) /\
    nodes way2 = nodes way1 /\
    attributes way2 = attributes way1 /\
    fileOffset way2 = fileOffset way1.
Proof.
  unfold Read.
  destruct (GetPos Attr scanner) as [offset|]; [|discriminate].
  destruct (attributes_Read Attr scanner) as [[attrs|] sc1]; [|discriminate].
  destruct (ReadNumber Attr (2^32) sc1) as [[[] nodeCount] sc2]; [|discriminate].
  destruct (Read_u32 Attr sc2) as [[ok3 minLat] sc3].
  destruct (Read_u32 Attr sc3) as [[ok4 minLon] sc4].
  cbn [attributes nodes ids fileOffset].
  pose proof (readCoords_scanner (Z.to_nat nodeCount) 0 0 minLat minLon
                (resize (Z.to_nat nodeCount) (mkCoord 0%float 0%float) (nodes target1))
                (resize (Z.to_nat nodeCount) (mkCoord 0%float 0%float) (nodes target2)) sc4)
    as Hscanner.
  pose proof (readCoords_overwrites (Z.to_nat nodeCount) 0 minLat minLon
                (resize (Z.to_nat nodeCount) (mkCoord 0%float 0%float) (nodes target1))
                (resize (Z.to_nat nodeCount) (mkCoord 0%float 0%float) (nodes target2)) sc4
                (length_resized _ _ _) (length_resized _ _ _) eq_refl) as Hnodes.
  destruct (readCoords _ _ _ _ _ _ _ (resize _ _ (nodes target1)) sc4) as [nodes1 sc5].
  destruct (readCoords _ _ _ _ _ _ _ (resize _ _ (nodes target2)) sc4) as [nodes2 sc5'].
  simpl in Hscanner, Hnodes. subst sc5' nodes2.
  destruct (ReadNumber Attr (2^32) sc5) as [[ok6 idCount] sc6].
  destruct (0 <? idCount).
  - destruct (ReadNumber Attr IdModulus sc6) as [[ok7 minId] sc7].
    pose proof (readIds_scanner (Z.to_nat idCount) minId
                  (resize (Z.to_nat nodeCount) 0 (ids target1))
                  (resize (Z.to_nat nodeCount) 0 (ids target2)) sc7) as Hids.
    rewrite !length_resized in Hids. specialize (Hids eq_refl).
    destruct (readIds _ _ _ _ (resize _ _ (ids target1)) sc7) as [[ids1 sc8]|];
      [|discriminate].
    destruct (readIds _ _ _ _ (resize _ _ (ids target2)) sc7) as [[ids2 sc8']|];
      [|discriminate].
    simpl in Hids. injection Hids as <-.
    intros H. inversion H. subst. eexists. rewrite H1. split; [reflexivity|]. auto.
  - intros H. inversion H. subst. eexists. rewrite H1. split; [reflexivity|]. auto.
Qed.

(** *** The record without ids *)

Lemma WriteOptimized_appends (way : Way Attr) (before : list (Token Attr)) :
  nodes way <> [] ->
  WriteOptimized Attr conversionFactor round_u32 way (mkWriter before false)
  = Some (true,
          mkWriter (before ++ optimizedTokens Attr conversionFactor round_u32 way) false).
Proof.
  intros Hnodes. unfold WriteOptimized, optimizedTokens.
  destruct (nodes way) as [|first others] eqn:Hns; [contradiction|].
  rewrite <- Hns.
  unfold attributes_Write, Write_u32, WriteNumber.
  cbn [wr_hasError negb]. rewrite !put_ok.
  rewrite writeCoords_tokens. cbn [wr_hasError negb].
  rewrite <- !app_assoc. reflexivity.
Qed.

Lemma recordTokens_optimized (minId0 : Id) (way : Way Attr) :
  nodes way <> [] ->
  recordTokens Attr IdModulus conversionFactor round_u32 minId0 way
  = optimizedTokens Attr conversionFactor round_u32 way
    ++ TokNumber (fst (scanIds (ids way) minId0) mod 2^32)
       :: (if 0 <? fst (scanIds (ids way) minId0)
           then TokNumber (snd (scanIds (ids way) minId0) mod IdModulus)
                :: idTokens Attr IdModulus (snd (scanIds (ids way) minId0)) 0 (ids way)
           else []).
Proof.
  intros Hnodes. unfold recordTokens, optimizedTokens.
  destruct (nodes way) as [|first others]; [contradiction|]. reflexivity.
Qed.

Lemma ReadOptimized_on_record (way target : Way Attr) (rest : list (Token Attr)) (pos : nat) :
  nodes way <> [] ->
  Z.of_nat (length (nodes way)) < 2^32 ->
  exists nodes1,
    length nodes1 = length (nodes way) /\
    ReadOptimized Attr conversionFactor u32_to_double target
      (mkScanner (optimizedTokens Attr conversionFactor round_u32 way ++ rest) pos false)
    = (true, mkWay (attributes way) nodes1 (ids target) pos,
       mkScanner rest (pos + length (optimizedTokens Attr conversionFactor round_u32 way))
                 false).
Proof.
  intros Hnodes Hsize. unfold optimizedTokens.
  destruct (nodes way) as [|first others] eqn:Hns; [contradiction|].
  rewrite <- Hns in *.
  set (A := fold_left (fun m n => fmin m (GetLat n)) others (GetLat first)).
  set (B := fold_left (fun m n => fmin m (GetLon n)) others (GetLon first)).
  set (x := round_u32 (PrimFloat.mul (PrimFloat.add A 90%float) conversionFactor)).
  set (y := round_u32 (PrimFloat.mul (PrimFloat.add B 180%float) conversionFactor)).
  destruct (readCoords_tokens Attr conversionFactor round_u32 u32_to_double
              A B (nodes way) 0 (x mod 2^32 mod 2^32) (y mod 2^32 mod 2^32)
              (resize (length (nodes way)) (mkCoord 0%float 0%float) (nodes target))
              rest (S (S (S (S pos)))))
    as [nodes1 Hcoords].
  pose proof (readCoords_length (length (nodes way)) 0 (x mod 2^32 mod 2^32)
                (y mod 2^32 mod 2^32)
                (resize (length (nodes way)) (mkCoord 0%float 0%float) (nodes target))
                (mkScanner (coordTokens Attr conversionFactor round_u32 A B (nodes way)
                            ++ rest) (S (S (S (S pos)))) false)) as Hlen1.
  rewrite Hcoords, length_resized in Hlen1. simpl in Hlen1.
  exists nodes1. split; [exact Hlen1|].
  unfold ReadOptimized, GetPos, attributes_Read, Read_u32, advance.
  cbn [app sc_hasError sc_tokens sc_pos attributes nodes ids fileOffset].
  rewrite ReadNumber_token.
  rewrite Z.mod_mod by lia. rewrite (Z.mod_small (Z.of_nat _)) by lia.
  rewrite Nat2Z.id. cbn [sc_hasError sc_tokens sc_pos].
  rewrite Hcoords. cbn [sc_hasError negb].
  do 2 f_equal. rewrite !length_cons, length_coordTokens. lia.
Qed.

(** X25. A record that [WriteOptimized] appends is read back by
    [ReadOptimized] from its offset: it returns [true], takes the
    attributes and the number of nodes, and leaves the scanner behind
    the record.  It never touches [ids]: the [Way] read into keeps the
    ids it held, also when it now has another number of nodes. *)
Theorem ReadOptimized_leaves_ids_alone (way target : Way Attr)
    (before rest : list (Token Attr)) (pos : nat) :
  nodes way <> [] ->
  Z.of_nat (length (nodes way)) < 2^32 ->
  exists record way',
    WriteOptimized Attr conversionFactor round_u32 way (mkWriter before false)
    = Some (true, mkWriter (before ++ record) false) /\
    ReadOptimized Attr conversionFactor u32_to_double target
      (mkScanner (record ++ rest) pos false)
    = (true, way', mkScanner rest (pos + length record) false) /\
    attributes way' = attributes way /\
    length (nodes way') = length (nodes way) /\
    fileOffset way' = pos /\
    ids way' = ids target.
Proof.
  intros Hnodes Hsize.
  destruct (ReadOptimized_on_record way target rest pos Hnodes Hsize)
    as (nodes1 & Hlen1 & Hread).
  exists (optimizedTokens Attr conversionFactor round_u32 way).
  exists (mkWay (attributes way) nodes1 (ids target) pos).
  split; [apply WriteOptimized_appends, Hnodes|].
  split; [exact Hread|]. simpl. auto.
Qed.

(** X26. The two formats do not mix.  [ReadOptimized] on a record of
    [Write] returns [true] and stops in front of the id section, which
    holds at least the id count: the scanner is not at the next record.
    [Read] on a record of [WriteOptimized] that ends the file returns
    [false]: the id count it looks for is not there. *)
Theorem formats_do_not_mix (minId0 : Id) (way target : Way Attr) (rest : list (Token Attr))
    (pos : nat) :
  nodes way <> [] ->
  Z.of_nat (length (nodes way)) < 2^32 ->
  (exists way' idSection,
      ReadOptimized Attr conversionFactor u32_to_double target
        (mkScanner (recordTokens Attr IdModulus conversionFactor round_u32 minId0 way ++ rest)
                   pos false)
      = (true, way',
         mkScanner (idSection ++ rest)
           (pos + length (optimizedTokens Attr conversionFactor round_u32 way)) false) /\
      recordTokens Attr IdModulus conversionFactor round_u32 minId0 way
      = optimizedTokens Attr conversionFactor round_u32 way ++ idSection /\
      idSection <> []) /\
  exists way' scanner',
    Read Attr IdModulus conversionFactor u32_to_double target
         (mkScanner (optimizedTokens Attr conversionFactor round_u32 way) pos false)
    = Some (false, way', scanner').
Proof.
  intros Hnodes Hsize. split.
  - rewrite (recordTokens_optimized minId0 way Hnodes), <- app_assoc.
    destruct (ReadOptimized_on_record way target
                ((TokNumber (fst (scanIds (ids way) minId0) mod 2^32)
                  :: (if 0 <? fst (scanIds (ids way) minId0)
                      then TokNumber (snd (scanIds (ids way) minId0) mod IdModulus)
                           :: idTokens Attr IdModulus (snd (scanIds (ids way) minId0)) 0
                                (ids way)
                      else [])) ++ rest) pos Hnodes Hsize) as (nodes1 & _ & Hread).
    do 2 eexists. split; [exact Hread|]. split; [reflexivity|discriminate].
  - unfold optimizedTokens.
    destruct (nodes way) as [|first others] eqn:Hns; [contradiction|].
    rewrite <- Hns in *.
    set (A := fold_left (fun m n => fmin m (GetLat n)) others (GetLat first)).
    set (B := fold_left (fun m n => fmin m (GetLon n)) others (GetLon first)).
    set (x := round_u32 (PrimFloat.mul (PrimFloat.add A 90%float) conversionFactor)).
    set (y := round_u32 (PrimFloat.mul (PrimFloat.add B 180%float) conversionFactor)).
    destruct (readCoords_tokens Attr conversionFactor round_u32 u32_to_double
                A B (nodes way) 0 (x mod 2^32 mod 2^32) (y mod 2^32 mod 2^32)
                (resize (length (nodes way)) (mkCoord 0%float 0%float) (nodes target))
                [] (S (S (S (S pos)))))
      as [nodes1 Hcoords].
    rewrite app_nil_r in Hcoords.
    unfold Read, GetPos, attributes_Read, Read_u32, advance.
    cbn [app sc_hasError sc_tokens sc_pos attributes nodes ids fileOffset].
    rewrite ReadNumber_token.
    rewrite Z.mod_mod by lia. rewrite (Z.mod_small (Z.of_nat _)) by lia.
    rewrite Nat2Z.id. cbn [sc_hasError sc_tokens sc_pos].
    rewrite Hcoords. do 2 eexists. reflexivity.
Qed.
End Records.

Lemma Read_overwrites_all_nodes_witness :
  exists way1 scanner1 way2,
    Read unit (2^64) 10000000%float (fun v => if v =? 0 then 0%float else 1%float)
         (newWay unit tt)
         (mkScanner (recordTokens unit (2^64) 10000000%float (fun _ => 0) 0 exampleWay) 0 false)
    = Some (true, way1, scanner1) /\
    Read unit (2^64) 10000000%float (fun v => if v =? 0 then 0%float else 1%float)
         (mkWay tt [mkCoord 5%float 5%float; mkCoord 6%float 6%float] [] 7%nat)
         (mkScanner (recordTokens unit (2^64) 10000000%float (fun _ => 0) 0 exampleWay) 0 false)
    = Some (true, way2, scanner1) /\
    nodes way2 = nodes way1.
Proof.
  destruct (Read unit (2^64) 10000000%float (fun v => if v =? 0 then 0%float else 1%float)
              (newWay unit tt)
              (mkScanner (recordTokens unit (2^64) 10000000%float (fun _ => 0) 0 exampleWay)
                         0 false)) as [[[ok way1] scanner1]|] eqn:Hread;
    [|vm_compute in Hread; discriminate].
  assert (Hok : ok = true) by (vm_compute in Hread; congruence). subst ok.
  destruct (Read_overwrites_all_nodes unit (2^64) 10000000%float
              (fun v => if v =? 0 then 0%float else 1%float) (newWay unit tt)
              (mkWay tt [mkCoord 5%float 5%float; mkCoord 6%float 6%float] [] 7%nat)
              way1 _ scanner1 Hread) as (way2 & Hread2 & Hnodes & _).
  exists way1, scanner1, way2. auto.
Defined.

Lemma ReadOptimized_leaves_ids_alone_witness :
  exists record way',
    WriteOptimized unit 10000000%float (fun _ => 0) exampleWay (mkWriter [] false)
    = Some (true, mkWriter ([] ++ record) false) /\
    ReadOptimized unit 10000000%float (fun _ => 0%float) (mkWay tt [] [3; 4; 6; 8] 0%nat)
      (mkScanner (record ++ []) 0 false)
    = (true, way', mkScanner [] (0 + length record) false) /\
    length (nodes way') = 3%nat /\
    ids way' = [3; 4; 6; 8].
Proof.
  destruct (ReadOptimized_leaves_ids_alone unit 10000000%float (fun _ => 0)
              (fun _ => 0%float) exampleWay (mkWay tt [] [3; 4; 6; 8] 0%nat) [] [] 0)
    as (record & way' & Hwrite & Hread & _ & Hlen & _ & Hids).
  - discriminate.
  - vm_compute. reflexivity.
  - exists record, way'. auto.
Defined.

Lemma formats_do_not_mix_witness :
  exists way' scanner',
    Read unit (2^64) 10000000%float (fun _ => 0%float) (newWay unit tt)
         (mkScanner (optimizedTokens unit 10000000%float (fun _ => 0) exampleWay) 0 false)
    = Some (false, way', scanner').
Proof.
  apply (formats_do_not_mix unit (2^64) 10000000%float (fun _ => 0) (fun _ => 0%float) 0
           exampleWay (newWay unit tt) [] 0).
  - discriminate.
  - vm_compute. reflexivity.
Defined.

Lemma Read_leaves_scanner_behind_record_witness :
  exists record way',
    Write unit (2^64) 10000000%float (fun _ => 0) 0 exampleWay
          (mkWriter [TokNumber 9] false)
    = Some (true, mkWriter ([TokNumber 9] ++ record) false) /\
    Read unit (2^64) 10000000%float (fun _ => 0%float) (newWay unit tt)
         (mkScanner (record ++ [TokNumber 8]) 1 false)
    = Some (true, way', mkScanner [TokNumber 8] (1 + length record) false) /\
    attributes way' = attributes exampleWay /\
    length (nodes way') = length (nodes exampleWay) /\
    fileOffset way' = 1%nat.
Proof.
  apply (Read_leaves_scanner_behind_record unit (2^64) 10000000%float (fun _ => 0)
           (fun _ => 0%float) 0 exampleWay (newWay unit tt) [TokNumber 9] [TokNumber 8] 1).
  - discriminate.
  - vm_compute. reflexivity.
  - vm_compute. reflexivity.
Defined.

Lemma Read_keeps_ids_the_file_lacks_witness :
  exists writer way' scanner',
    Write unit (2^64) 10000000%float (fun _ => 0) 0 exampleWay (newWriter unit)
    = Some (true, writer) /\
    Read unit (2^64) 10000000%float (fun _ => 0%float)
         (mkWay tt [] [3; 4; 6; 8] 0%nat) (openOn unit writer)
    = Some (true, way', scanner') /\
    ids way' = [3; 7; 5].
Proof.
  apply (Read_keeps_ids_the_file_lacks unit (2^64) 10000000%float (fun _ => 0)
           (fun _ => 0%float) 0 exampleWay (mkWay tt [] [3; 4; 6; 8] 0%nat)).
  - discriminate.
  - reflexivity.
  - vm_compute. reflexivity.
  - repeat constructor; vm_compute; congruence.
Defined.
End WayProperties.

(** ** [Way::GetBoundingBox] and [Way::GetCenter] *)

(** *** The order of [double], from the specification of the primitive
    floats *)

Lemma SFcompare_refl (x : spec_float) :
  x <> S754_nan -> SFcompare x x = Some Eq.
Proof.
  destruct x as [s|s| |s m e]; simpl; try congruence.
  - destruct s; reflexivity.
  - intros _. rewrite Z.compare_refl.
    change (Pos.compare_cont Eq m m) with (Pos.compare m m).
    rewrite Pos.compare_refl. destruct s; reflexivity.
Qed.

Lemma SFcompare_antisym (x y : spec_float) :
  SFcompare y x = option_map CompOpp (SFcompare x y).
Proof.
  destruct x as [s1|s1| |s1 m1 e1], y as [s2|s2| |s2 m2 e2]; simpl;
    try reflexivity; try (destruct s1; reflexivity); try (destruct s2; reflexivity);
    try (destruct s1, s2; reflexivity).
  change (Pos.compare_cont Eq m2 m1) with (Pos.compare m2 m1).
  change (Pos.compare_cont Eq m1 m2) with (Pos.compare m1 m2).
  rewrite (Z.compare_antisym e1 e2), (Pos.compare_antisym m1 m2).
  destruct s1, s2; simpl; try reflexivity;
    destruct (e1 ?= e2); simpl; try reflexivity;
    destruct (m1 ?= m2)%positive; reflexivity.
Qed.

Lemma SFleb_trans (x y z : spec_float) :
  SFleb x y = true -> SFleb y z = true -> SFleb x z = true.
Proof.
  unfold SFleb.
  destruct x as [s1|s1| |s1 m1 e1], y as [s2|s2| |s2 m2 e2], z as [s3|s3| |s3 m3 e3];
    simpl; try discriminate; try reflexivity;
    try (destruct s1, s2, s3; simpl; try discriminate; reflexivity);
    try (destruct s1, s2; simpl; try discriminate; reflexivity);
    try (destruct s1, s3; simpl; try discriminate; reflexivity);
    try (destruct s2, s3; simpl; try discriminate; reflexivity).
  change (Pos.compare_cont Eq m1 m2) with (Pos.compare m1 m2).
  change (Pos.compare_cont Eq m2 m3) with (Pos.compare m2 m3).
  change (Pos.compare_cont Eq m1 m3) with (Pos.compare m1 m3).
  destruct s1, s2, s3; simpl; try discriminate; try reflexivity;
    destruct (Z.compare_spec e1 e2), (Z.compare_spec e2 e3), (Z.compare_spec e1 e3);
    simpl; try discriminate; try reflexivity; try lia;
    destruct (Pos.compare_spec m1 m2), (Pos.compare_spec m2 m3), (Pos.compare_spec m1 m3);
    simpl; try discriminate; try reflexivity; lia.
Qed.

Lemma is_nan_false (a : float) :
  is_nan a = false <-> Prim2SF a <> S754_nan.
Proof.
  unfold is_nan. rewrite FloatAxioms.eqb_spec. unfold SFeqb. split.
  - intros H Hnan. rewrite Hnan in H. discriminate.
  - intros H. rewrite SFcompare_refl by exact H. reflexivity.
Qed.

Lemma fleb_refl (a : float) : is_nan a = false -> PrimFloat.leb a a = true.
Proof.
  intros H. apply is_nan_false in H. rewrite FloatAxioms.leb_spec. unfold SFleb.
  rewrite SFcompare_refl by exact H. reflexivity.
Qed.

Lemma fleb_trans (a b c : float) :
  PrimFloat.leb a b = true -> PrimFloat.leb b c = true -> PrimFloat.leb a c = true.
Proof. rewrite !FloatAxioms.leb_spec. apply SFleb_trans. Qed.

Lemma fltb_leb (a b : float) : PrimFloat.ltb a b = true -> PrimFloat.leb a b = true.
Proof.
  rewrite FloatAxioms.ltb_spec, FloatAxioms.leb_spec. unfold SFltb, SFleb.
  destruct (SFcompare _ _) as [[]|]; congruence.
Qed.

Lemma fnot_ltb_leb (a b : float) :
  is_nan a = false -> is_nan b = false ->
  PrimFloat.ltb b a = false -> PrimFloat.leb a b = true.
Proof.
  intros Ha Hb. apply is_nan_false in Ha, Hb.
  rewrite FloatAxioms.ltb_spec, FloatAxioms.leb_spec. unfold SFltb, SFleb.
  rewrite (SFcompare_antisym (Prim2SF a) (Prim2SF b)).
  destruct (Prim2SF a) as [s1|s1| |s1 m1 e1] eqn:Ea; try congruence;
    destruct (Prim2SF b) as [s2|s2| |s2 m2 e2] eqn:Eb; try congruence;
    destruct (SFcompare _ _) as [[]|] eqn:Hc; simpl; try congruence;
    simpl in Hc; discriminate.
Qed.

Module WayGeometry.
Import WayCodec.

Lemma fmin_le (a b : float) :
  is_nan a = false -> is_nan b = false ->
  PrimFloat.leb (fmin a b) a = true /\ PrimFloat.leb (fmin a b) b = true /\
  is_nan (fmin a b) = false.
Proof.
  intros Ha Hb. unfold fmin. destruct (PrimFloat.ltb b a) eqn:Hlt.
  - split; [apply fltb_leb, Hlt|]. split; [apply fleb_refl, Hb|exact Hb].
  - split; [apply fleb_refl, Ha|]. split; [apply fnot_ltb_leb; assumption|exact Ha].
Qed.

Lemma fmax_ge (a b : float) :
  is_nan a = false -> is_nan b = false ->
  PrimFloat.leb a (fmax a b) = true /\ PrimFloat.leb b (fmax a b) = true /\
  is_nan (fmax a b) = false.
Proof.
  intros Ha Hb. unfold fmax. destruct (PrimFloat.ltb a b) eqn:Hlt.
  - split; [apply fltb_leb, Hlt|]. split; [apply fleb_refl, Hb|exact Hb].
  - split; [apply fleb_refl, Ha|]. split; [apply fnot_ltb_leb; assumption|exact Ha].
Qed.

Section Geometry.
Variable Attr : Type.

(** The two loops keep the same four extremes. *)
Lemma stretch_enlarge (others : list Coord) (e : Extremes) (b : Box) :
  minLat e = box_minLat b -> minLon e = box_minLon b ->
  maxLat e = box_maxLat b -> maxLon e = box_maxLon b ->
  minLat (fold_left stretch others e) = box_minLat (fold_left enlarge others b) /\
  minLon (fold_left stretch others e) = box_minLon (fold_left enlarge others b) /\
  maxLat (fold_left stretch others e) = box_maxLat (fold_left enlarge others b) /\
  maxLon (fold_left stretch others e) = box_maxLon (fold_left enlarge others b).
Proof.
  revert e b. induction others as [|node others IH]; intros e b H1 H2 H3 H4; simpl.
  - auto.
  - apply IH; unfold stretch, enlarge; simpl; congruence.
Qed.

(** X27. [GetCenter] returns [false] exactly for a way without nodes,
    where [GetBoundingBox] fails its assertion; otherwise the point it
    yields is the middle of the box that [GetBoundingBox] yields,
    computed as [min+(max-min)/2] in each direction. *)
Theorem GetCenter_is_middle_of_bounding_box (way : Way Attr) :
  GetCenter Attr way
  = match GetBoundingBox Attr way with
    | Some box =>
        Some (PrimFloat.add (box_minLat box)
                (PrimFloat.div (PrimFloat.sub (box_maxLat box) (box_minLat box)) 2%float),
              PrimFloat.add (box_minLon box)
                (PrimFloat.div (PrimFloat.sub (box_maxLon box) (box_minLon box)) 2%float))
    | None => None
    end /\
  (GetCenter Attr way = None <-> nodes way = []).
Proof.
  unfold GetCenter, GetBoundingBox.
  destruct (nodes way) as [|first others]; [split; [reflexivity|tauto]|].
  destruct (stretch_enlarge others
              (mkExtremes (GetLat first) (GetLon first) (GetLat first) (GetLon first))
              (mkBox (GetLon first) (GetLon first) (GetLat first) (GetLat first))
              eq_refl eq_refl eq_refl eq_refl) as (H1 & H2 & H3 & H4).
  cbv zeta. rewrite H1, H2, H3, H4. split; [reflexivity|]. split; discriminate.
Qed.

Lemma inBox_enlarge (b : Box) (node seen : Coord) :
  isNumber (mkCoord (box_minLat b) (box_minLon b)) = true ->
  isNumber (mkCoord (box_maxLat b) (box_maxLon b)) = true ->
  isNumber node = true ->
  isNumber (mkCoord (box_minLat (enlarge b node)) (box_minLon (enlarge b node))) = true /\
  isNumber (mkCoord (box_maxLat (enlarge b node)) (box_maxLon (enlarge b node))) = true /\
  inBox (enlarge b node) node = true /\
  (inBox b seen = true -> inBox (enlarge b node) seen = true).
Proof.
  unfold isNumber, inBox, enlarge. simpl.
  rewrite !andb_true_iff, !negb_true_iff.
  intros [Hlat0 Hlon0] [Hlat1 Hlon1] [Hlat Hlon].
  destruct (fmin_le (box_minLat b) (GetLat node) Hlat0 Hlat) as (Ha1 & Ha2 & Ha3).
  destruct (fmin_le (box_minLon b) (GetLon node) Hlon0 Hlon) as (Hb1 & Hb2 & Hb3).
  destruct (fmax_ge (box_maxLat b) (GetLat node) Hlat1 Hlat) as (Hc1 & Hc2 & Hc3).
  destruct (fmax_ge (box_maxLon b) (GetLon node) Hlon1 Hlon) as (Hd1 & Hd2 & Hd3).
  split; [auto|]. split; [auto|]. split; [auto|].
  intros [[[H1 H2] H3] H4].
  split; [split; [split|]|].
  - exact (fleb_trans _ _ _ Ha1 H1).
  - exact (fleb_trans _ _ _ H2 Hc1).
  - exact (fleb_trans _ _ _ Hb1 H3).
  - exact (fleb_trans _ _ _ H4 Hd1).
Qed.

(** X28. The box of [GetBoundingBox] holds every node of the way, in the
    order of [double], when no coordinate of the way is a NaN: whatever
    [GetCoordinates] yields for an index lies in the box, its sides
    included.  [GetCoordinates] fails its assertion exactly for an index
    that is not below the number of nodes. *)
Theorem bounding_box_holds_all_nodes (way : Way Attr) (box : Box) (nodeIndex : nat) :
  GetBoundingBox Attr way = Some box ->
  Forall (fun node => isNumber node = true) (nodes way) ->
  match GetCoordinates Attr way nodeIndex with
  | Some (lat, lon) =>
      (nodeIndex < length (nodes way))%nat /\ inBox box (mkCoord lat lon) = true
  | None => (length (nodes way) <= nodeIndex)%nat
  end.
Proof.
  intros Hbox Hnumbers.
  enough (Hall : Forall (fun node => inBox box node = true) (nodes way)).
  { unfold GetCoordinates. destruct (nodes way !! nodeIndex) as [node|] eqn:Hnode.
    - split; [eapply lookup_lt_Some; exact Hnode|].
      rewrite Forall_forall in Hall. destruct node as [lat lon]. simpl.
      apply Hall. eapply list_elem_of_lookup_2. exact Hnode.
    - apply lookup_ge_None, Hnode. }
  revert Hbox Hnumbers. unfold GetBoundingBox.
  destruct (nodes way) as [|first others]; [discriminate|].
  intros H Hnumbers. inversion H. clear H. subst box.
  inversion Hnumbers as [|? ? Hfirst Hothers]. subst.
  enough (Hloop : forall (seen : list Coord) (b : Box),
            isNumber (mkCoord (box_minLat b) (box_minLon b)) = true ->
            isNumber (mkCoord (box_maxLat b) (box_maxLon b)) = true ->
            Forall (fun node => inBox b node = true) seen ->
            Forall (fun node => inBox (fold_left enlarge others b) node = true)
                   (seen ++ others)).
  { apply (Hloop [first]).
    - exact Hfirst.
    - exact Hfirst.
    - constructor; [|constructor].
      unfold isNumber in Hfirst. apply andb_true_iff in Hfirst as [Hlat Hlon].
      apply negb_true_iff in Hlat, Hlon.
      unfold inBox. simpl. rewrite !fleb_refl by assumption. reflexivity. }
  clear Hnumbers Hfirst.
  induction Hothers as [|node others Hnode Hothers IH]; intros seen b Hmin Hmax Hseen; simpl.
  - rewrite app_nil_r. exact Hseen.
  - replace (seen ++ node :: others) with ((seen ++ [node]) ++ others)
      by (rewrite <- app_assoc; reflexivity).
    destruct (inBox_enlarge b node node Hmin Hmax Hnode) as (Hmin' & Hmax' & Hin & _).
    apply IH; [exact Hmin'|exact Hmax'|].
    apply Forall_app. split; [|constructor; [exact Hin|constructor]].
    eapply Forall_impl; [exact Hseen|]. intros old Hold. simpl in Hold.
    apply (inBox_enlarge b node old Hmin Hmax Hnode), Hold.
Qed.
End Geometry.

Lemma bounding_box_holds_all_nodes_witness :
  GetBoundingBox unit exampleWay = Some (mkBox 0%float 1%float 0%float 1%float) /\
  GetCoordinates unit exampleWay 2 = Some (1%float, 1%float) /\
  inBox (mkBox 0%float 1%float 0%float 1%float) (mkCoord 1%float 1%float) = true /\
  GetCoordinates unit exampleWay 3 = None.
Proof.
  assert (Hbox : GetBoundingBox unit exampleWay = Some (mkBox 0%float 1%float 0%float 1%float))
    by (vm_compute; reflexivity).
  assert (Hnumbers : Forall (fun node => isNumber node = true) (nodes exampleWay))
    by (repeat constructor).
  pose proof (bounding_box_holds_all_nodes unit exampleWay _ 2 Hbox Hnumbers) as Hin.
  split; [exact Hbox|]. split; [reflexivity|]. split; [apply Hin|reflexivity].
Defined.
End WayGeometry.
